(** * lego-stats: the postprocess aggregation pipeline

    A shallow embedding of [postprocess-node.mjs] / [postprocess.ts] (the
    batch job that turns the Rebrickable CSV tables into the dashboard's JSON
    aggregates), of [aggregateYearData] from [CoverageAnalysis.tsx], and of
    the dashboard helpers that read these aggregates: the CSV parser, the
    custom range key, the coverage summary figures, the date range filter,
    the threshold markers of the coverage curve and the series of the trends
    chart.

    Conventions of the embedding:
    - a JavaScript [number] is an exact rational or one of NaN, +Infinity,
      -Infinity: binary floating-point rounding is not modelled, nor the
      exponent notation that [toFixed] switches to from 1e21 on;
    - piece quantities are integers ([parseInt(..) || 0]), unbounded;
    - a JavaScript [Map] is an association list in insertion order, a [Set] a
      duplicate-free list in insertion order;
    - [Array.prototype.sort] is a stable sort. *)

From Stdlib Require Import ZArith QArith Qround Qabs List String Ascii Bool Lia Lqa.
From Stdlib Require Import Permutation Sorted DecimalString DecimalN.
Import ListNotations.

Local Open Scope Z_scope.

(** ** JavaScript numbers *)

Module JS.

Inductive number : Type :=
| NaN
| PInf
| NInf
| Num (q : Q).

Definition of_int (z : Z) : number := Num (inject_Z z).

(** [a / b] for integer-valued operands. *)
Definition div (a b : Z) : number :=
  if b =? 0 then
    if a =? 0 then NaN else if 0 <? a then PInf else NInf
  else Num (inject_Z a / inject_Z b).

(** [x * 100]. *)
Definition times100 (x : number) : number :=
  match x with
  | Num q => Num (q * 100)
  | other => other
  end.

Definition pow10 (d : nat) : positive := Z.to_pos (10 ^ Z.of_nat d).

(** The integer [n] of [Number.prototype.toFixed]: the one for which
    [n / 10^d - x] is closest to zero, the larger one on a tie ([x >= 0]). *)
Definition nearest (d : nat) (x : Q) : Z :=
  Qfloor (x * inject_Z (Zpos (pow10 d)) + (1 # 2)).

(** [parseFloat(x.toFixed(d))]: the sign is split off and the magnitude
    rounded; a non-finite [x] prints and parses back as itself. *)
Definition toFixed (d : nat) (x : number) : number :=
  match x with
  | Num q =>
      if Qle_bool 0 q
      then Num (Qred (nearest d q # pow10 d))
      else Num (Qred (- nearest d (- q) # pow10 d))
  | other => other
  end.

(** [Math.round]: the nearest integer, ties towards +Infinity. *)
Definition round (x : number) : number :=
  match x with
  | Num q => Num (inject_Z (Qfloor (q + (1 # 2))))
  | other => other
  end.

(** [x || 0]: NaN and zero are falsy. *)
Definition or0 (x : number) : number :=
  match x with
  | NaN => Num 0
  | Num q => if Qeq_bool q 0 then Num 0 else x
  | other => other
  end.

(** [x >= t] for an integer [t]; false on NaN. *)
Definition ge (x : number) (t : Z) : bool :=
  match x with
  | NaN => false
  | PInf => true
  | NInf => false
  | Num q => Qle_bool (inject_Z t) q
  end.

(** [x + y]. *)
Definition add (x y : number) : number :=
  match x, y with
  | NaN, _ | _, NaN => NaN
  | PInf, NInf | NInf, PInf => NaN
  | PInf, _ | _, PInf => PInf
  | NInf, _ | _, NInf => NInf
  | Num p, Num q => Num (p + q)
  end.

(** *** [parseInt] without a radix argument *)

Definition isWhite (c : ascii) : bool :=
  let n := nat_of_ascii c in
  ((9 <=? n) && (n <=? 13))%nat || (n =? 32)%nat.

Fixpoint trimStart (s : string) : string :=
  match s with
  | String c rest => if isWhite c then trimStart rest else s
  | EmptyString => s
  end.

Definition digitValue (radix : Z) (c : ascii) : option Z :=
  let n := Z.of_nat (nat_of_ascii c) in
  let v :=
    if (48 <=? n) && (n <=? 57) then Some (n - 48)
    else if (97 <=? n) && (n <=? 122) then Some (n - 87)
    else if (65 <=? n) && (n <=? 90) then Some (n - 55)
    else None in
  match v with
  | Some d => if d <? radix then Some d else None
  | None => None
  end.

(** The value of the longest prefix of digits; [None] when it is empty. *)
Fixpoint digits (radix : Z) (s : string) (acc : option Z) : option Z :=
  match s with
  | String c rest =>
      match digitValue radix c with
      | Some d =>
          digits radix rest
            (Some (match acc with Some a => a * radix + d | None => d end))
      | None => acc
      end
  | EmptyString => acc
  end.

Definition unsignedInt (s : string) : option Z :=
  match s with
  | String "0" (String "x" rest) | String "0" (String "X" rest) =>
      digits 16 rest None
  | _ => digits 10 s None
  end.

(** [parseInt(s)]; [None] stands for NaN. *)
Definition parseInt (s : string) : option Z :=
  match trimStart s with
  | String "-" rest => option_map Z.opp (unsignedInt rest)
  | String "+" rest => unsignedInt rest
  | t => unsignedInt t
  end.

(** [parseInt(s) || 0]. *)
Definition parseIntOr0 (s : string) : Z :=
  match parseInt s with Some z => z | None => 0 end.

(** A string is truthy when it is not empty. *)
Definition truthy (s : string) : bool :=
  match s with EmptyString => false | _ => true end.

(** [s || dflt] *)
Definition strOr (s dflt : string) : string :=
  if truthy s then s else dflt.

End JS.

(** ** [Map] and [Set], in insertion order *)

Section JsMap.
Context {K V : Type}.
Variable eqb : K -> K -> bool.

Definition Map := list (K * V).

Fixpoint map_get (m : Map) (k : K) : option V :=
  match m with
  | [] => None
  | (k', v) :: rest => if eqb k' k then Some v else map_get rest k
  end.

Definition map_has (m : Map) (k : K) : bool :=
  match map_get m k with Some _ => true | None => false end.

(** [m.set(k, v)]: an existing key keeps its position. *)
Fixpoint map_set (m : Map) (k : K) (v : V) : Map :=
  match m with
  | [] => [(k, v)]
  | (k', v') :: rest =>
      if eqb k' k then (k', v) :: rest else (k', v') :: map_set rest k v
  end.

Definition map_values (m : Map) : list V := map snd m.
Definition map_keys (m : Map) : list K := map fst m.
End JsMap.

Arguments Map : clear implicits.

Section JsSet.
Context {K : Type}.
Variable eqb : K -> K -> bool.

Definition set_has (s : list K) (k : K) : bool := existsb (eqb k) s.

Definition set_add (s : list K) (k : K) : list K :=
  if set_has s k then s else s ++ [k].
End JsSet.

(** ** Stable sorting, as [Array.prototype.sort] with a consistent comparator *)

Section Sort.
Context {A : Type}.
(** [before y x]: [y] must come strictly before [x]. *)
Variable before : A -> A -> bool.

Fixpoint insert (x : A) (l : list A) : list A :=
  match l with
  | [] => [x]
  | y :: rest => if before y x then y :: insert x rest else x :: l
  end.

Fixpoint sort (l : list A) : list A :=
  match l with
  | [] => []
  | x :: rest => insert x (sort rest)
  end.
End Sort.

(** ** The CSV records *)

Record Color := { c_id : string; c_name : string; c_rgb : string; c_is_trans : string }.
Record Part := { p_part_num : string; p_name : string; p_part_cat_id : string;
                 p_part_material : string }.
Record LegoSet := { s_set_num : string; s_name : string; s_year : string;
                    s_theme_id : string; s_num_parts : string }.
Record Inventory := { inv_id : string; inv_version : string; inv_set_num : string }.
Record InventoryPart := { ip_inventory_id : string; ip_part_num : string;
                          ip_color_id : string; ip_quantity : string;
                          ip_is_spare : string; ip_img_url : string }.

(** The five tables of one snapshot. *)
Record Tables := {
  colors : list Color;
  parts : list Part;
  sets : list LegoSet;
  inventories : list Inventory;
  inventoryParts : list InventoryPart
}.

(** ** Lookup maps *)

Definition colorMap (t : Tables) : Map string Color :=
  fold_left (fun m c => map_set String.eqb m (c_id c) c) (colors t) [].

Definition partMap (t : Tables) : Map string Part :=
  fold_left (fun m p => map_set String.eqb m (p_part_num p) p) (parts t) [].

Definition setMap (t : Tables) : Map string LegoSet :=
  fold_left (fun m s => map_set String.eqb m (s_set_num s) s) (sets t) [].

(** inventory id -> set number, the first inventory seen wins. *)
Definition inventoryToSetMap (t : Tables) : Map string string :=
  fold_left
    (fun m inv =>
       if map_has String.eqb m (inv_id inv) then m
       else map_set String.eqb m (inv_id inv) (inv_set_num inv))
    (inventories t) [].

Definition qtyOf (ip : InventoryPart) : Z := JS.parseIntOr0 (ip_quantity ip).

(** [parseFloat(((q / total) * 100).toFixed(d))] *)
Definition percentOf (d : nat) (q total : Z) : JS.number :=
  JS.toFixed d (JS.times100 (JS.div q total)).


(** ** Color stats *)

Record ColorAcc := { ca_name : string; ca_color : string; ca_quantity : Z }.

Record ColorStat := {
  cs_name : string;
  cs_color : string;
  cs_quantity : Z;
  cs_percent : JS.number;
  cs_rank : nat;
  cs_cumulative_percent : JS.number
}.

Definition colorKey (c : Color) : string := (c_rgb c ++ "-" ++ c_name c)%string.

(** One turn of the loop over [inventoryParts] that fills a color
    accumulator; rows whose color id is unknown are passed over. *)
Definition colorAggStep (cm : Map string Color) (agg : Map string ColorAcc)
    (ip : InventoryPart) : Map string ColorAcc :=
  let qty := qtyOf ip in
  match map_get String.eqb cm (ip_color_id ip) with
  | None => agg
  | Some color =>
      let key := colorKey color in
      match map_get String.eqb agg key with
      | Some existing =>
          map_set String.eqb agg key
            {| ca_name := ca_name existing; ca_color := ca_color existing;
               ca_quantity := ca_quantity existing + qty |}
      | None =>
          map_set String.eqb agg key
            {| ca_name := c_name color; ca_color := ("#" ++ c_rgb color)%string;
               ca_quantity := qty |}
      end
  end.

Definition colorAgg (t : Tables) : Map string ColorAcc :=
  fold_left (colorAggStep (colorMap t)) (inventoryParts t) [].

Definition sumBy {A : Type} (f : A -> Z) (l : list A) : Z :=
  fold_left (fun sum x => sum + f x) l 0.

Definition totalPieces (t : Tables) : Z :=
  sumBy ca_quantity (map_values (colorAgg t)).

(** [(a, b) => b.quantity - a.quantity]: larger quantities first. *)
Definition byQuantityDesc {A : Type} (quantity : A -> Z) (y x : A) : bool :=
  quantity x <? quantity y.

Definition sortedColors (t : Tables) : list ColorAcc :=
  sort (byQuantityDesc ca_quantity) (map_values (colorAgg t)).

(** The [map] callback with its running sum [cum] and the [index]. *)
Fixpoint colorStatsFrom (total : Z) (index : nat) (cum : Z) (l : list ColorAcc)
    : list ColorStat :=
  match l with
  | [] => []
  | c :: rest =>
      let percent := percentOf 4 (ca_quantity c) total in
      let cum' := cum + ca_quantity c in
      let cumulative_percent := percentOf 4 cum' total in
      {| cs_name := ca_name c; cs_color := ca_color c;
         cs_quantity := ca_quantity c; cs_percent := percent;
         cs_rank := index + 1; cs_cumulative_percent := cumulative_percent |}
      :: colorStatsFrom total (S index) cum' rest
  end.

Definition colorStats (t : Tables) : list ColorStat :=
  colorStatsFrom (totalPieces t) 0 0 (sortedColors t).

(** ** Part frequency *)

Record PartAcc := { pa_part_num : string; pa_quantity : Z; pa_img_url : string }.

Record PartFrequency := {
  pf_part_num : string;
  pf_name : string;
  pf_quantity : Z;
  pf_image : string;
  pf_rank : nat;
  pf_percent : JS.number;
  pf_cumulative_percent : JS.number
}.

(** One turn of the loop that fills [partAgg]; the part map is not consulted. *)
Definition partAggStep (agg : Map string PartAcc) (ip : InventoryPart)
    : Map string PartAcc :=
  let qty := qtyOf ip in
  match map_get String.eqb agg (ip_part_num ip) with
  | Some existing =>
      map_set String.eqb agg (ip_part_num ip)
        {| pa_part_num := pa_part_num existing;
           pa_quantity := pa_quantity existing + qty;
           pa_img_url :=
             if JS.truthy (ip_img_url ip) && negb (JS.truthy (pa_img_url existing))
             then ip_img_url ip else pa_img_url existing |}
  | None =>
      map_set String.eqb agg (ip_part_num ip)
        {| pa_part_num := ip_part_num ip; pa_quantity := qty;
           pa_img_url := JS.strOr (ip_img_url ip) "" |}
  end.

Definition partAgg (t : Tables) : Map string PartAcc :=
  fold_left partAggStep (inventoryParts t) [].

Definition sortedParts (t : Tables) : list PartAcc :=
  sort (byQuantityDesc pa_quantity) (map_values (partAgg t)).

Definition totalPartsQuantity (t : Tables) : Z :=
  sumBy pa_quantity (sortedParts t).

(** [part?.name || "Unknown"] *)
Definition partName (pm : Map string Part) (part_num : string) : string :=
  match map_get String.eqb pm part_num with
  | Some part => JS.strOr (p_name part) "Unknown"
  | None => "Unknown"%string
  end.

Fixpoint partFrequencyFrom (pm : Map string Part) (total : Z) (index : nat) (cum : Z)
    (l : list PartAcc) : list PartFrequency :=
  match l with
  | [] => []
  | p :: rest =>
      let percent := percentOf 4 (pa_quantity p) total in
      let cum' := cum + pa_quantity p in
      let cumulative_percent := percentOf 4 cum' total in
      {| pf_part_num := pa_part_num p; pf_name := partName pm (pa_part_num p);
         pf_quantity := pa_quantity p; pf_image := JS.strOr (pa_img_url p) "";
         pf_rank := index + 1; pf_percent := percent;
         pf_cumulative_percent := cumulative_percent |}
      :: partFrequencyFrom pm total (S index) cum' rest
  end.

Definition partFrequency (t : Tables) : list PartFrequency :=
  partFrequencyFrom (partMap t) (totalPartsQuantity t) 0 0 (sortedParts t).

(** ** Year trends *)

(** The join every year-scoped loop starts with: inventory id -> set number
    (skipped when missing or empty) -> set record -> [parseInt(set.year)]
    (skipped when NaN).  Returns the set number and the year. *)
Definition resolveYear (t : Tables) (ip : InventoryPart) : option (string * Z) :=
  match map_get String.eqb (inventoryToSetMap t) (ip_inventory_id ip) with
  | None => None
  | Some setNum =>
      if negb (JS.truthy setNum) then None
      else
        match map_get String.eqb (setMap t) setNum with
        | None => None
        | Some set =>
            match JS.parseInt (s_year set) with
            | None => None
            | Some year => Some (setNum, year)
            end
        end
  end.

Record YearData := {
  yd_pieces : Z;
  yd_sets : list string;
  yd_colors : Map string Z;
  yd_parts : Map string Z
}.

(** [(m.get(k) || 0) + qty] stored back under [k]. *)
Definition bump (m : Map string Z) (k : string) (qty : Z) : Map string Z :=
  map_set String.eqb m k
    (match map_get String.eqb m k with Some v => v | None => 0 end + qty).

Definition yearAggStep (t : Tables) (agg : Map Z YearData) (ip : InventoryPart)
    : Map Z YearData :=
  let qty := qtyOf ip in
  match resolveYear t ip with
  | None => agg
  | Some (setNum, year) =>
      if year <? 1949 then agg
      else
        let yearData :=
          match map_get Z.eqb agg year with
          | Some d => d
          | None => {| yd_pieces := 0; yd_sets := []; yd_colors := []; yd_parts := [] |}
          end in
        map_set Z.eqb agg year
          {| yd_pieces := yd_pieces yearData + qty;
             yd_sets := set_add String.eqb (yd_sets yearData) setNum;
             yd_colors :=
               match map_get String.eqb (colorMap t) (ip_color_id ip) with
               | Some color => bump (yd_colors yearData) (c_id color) qty
               | None => yd_colors yearData
               end;
             yd_parts := bump (yd_parts yearData) (ip_part_num ip) qty |}
  end.

Definition yearAgg (t : Tables) : Map Z YearData :=
  fold_left (yearAggStep t) (inventoryParts t) [].

Inductive DataSource := inventory | sets_only.

Record YearTrend := {
  yt_year : Z;
  yt_total_pieces : Z;
  yt_total_sets : nat;
  yt_avg_pieces_per_set : JS.number;
  yt_unique_colors : option nat;
  yt_unique_parts : option nat;
  yt_top_color : option string;
  yt_top_color_hex : option string;
  yt_top_part : option string;
  yt_top_part_name : option string;
  yt_data_source : DataSource
}.

(** The arg-max scan: a later entry replaces the current one only when its
    quantity is strictly larger; it starts from [("", 0)]. *)
Definition topOf (m : Map string Z) : string * Z :=
  fold_left (fun top e => if snd top <? snd e then e else top) m (""%string, 0).

(** [Math.round(pieces / sets) || 0] *)
Definition avgPieces (pieces : Z) (setCount : nat) : JS.number :=
  JS.or0 (JS.round (JS.div pieces (Z.of_nat setCount))).

Definition inventoryTrend (t : Tables) (e : Z * YearData) : YearTrend :=
  let (year, data) := e in
  let topColorId := fst (topOf (yd_colors data)) in
  let topColor := map_get String.eqb (colorMap t) topColorId in
  let topPartNum := fst (topOf (yd_parts data)) in
  {| yt_year := year;
     yt_total_pieces := yd_pieces data;
     yt_total_sets := List.length (yd_sets data);
     yt_avg_pieces_per_set := avgPieces (yd_pieces data) (List.length (yd_sets data));
     yt_unique_colors := Some (List.length (yd_colors data));
     yt_unique_parts := Some (List.length (yd_parts data));
     yt_top_color :=
       Some (match topColor with
             | Some c => JS.strOr (c_name c) "Unknown"
             | None => "Unknown"%string
             end);
     yt_top_color_hex :=
       Some (match topColor with
             | Some c => ("#" ++ c_rgb c)%string
             | None => "#000000"%string
             end);
     yt_top_part := Some topPartNum;
     yt_top_part_name := Some (partName (partMap t) topPartNum);
     yt_data_source := inventory |}.

Definition inventoryYearTrends (t : Tables) : list YearTrend :=
  map (inventoryTrend t) (yearAgg t).

Definition inventoryYears (t : Tables) : list Z :=
  fold_left (set_add Z.eqb) (map yt_year (inventoryYearTrends t)) [].

Record SetsOnlyData := { so_sets : list string; so_totalPieces : Z }.

Definition setsOnlyStep (invYears : list Z) (agg : Map Z SetsOnlyData) (set : LegoSet)
    : Map Z SetsOnlyData :=
  match JS.parseInt (s_year set) with
  | None => agg
  | Some year =>
      if year <? 1949 then agg
      else if set_has Z.eqb invYears year then agg
      else
        let yearData :=
          match map_get Z.eqb agg year with
          | Some d => d
          | None => {| so_sets := []; so_totalPieces := 0 |}
          end in
        map_set Z.eqb agg year
          {| so_sets := set_add String.eqb (so_sets yearData) (s_set_num set);
             so_totalPieces := so_totalPieces yearData + JS.parseIntOr0 (s_num_parts set) |}
  end.

Definition setsOnlyYearAgg (t : Tables) : Map Z SetsOnlyData :=
  fold_left (setsOnlyStep (inventoryYears t)) (sets t) [].

Definition setsOnlyTrend (e : Z * SetsOnlyData) : YearTrend :=
  let (year, data) := e in
  {| yt_year := year;
     yt_total_pieces := so_totalPieces data;
     yt_total_sets := List.length (so_sets data);
     yt_avg_pieces_per_set := avgPieces (so_totalPieces data) (List.length (so_sets data));
     yt_unique_colors := None;
     yt_unique_parts := None;
     yt_top_color := None;
     yt_top_color_hex := None;
     yt_top_part := None;
     yt_top_part_name := None;
     yt_data_source := sets_only |}.

Definition setsOnlyYearTrends (t : Tables) : list YearTrend :=
  map setsOnlyTrend (setsOnlyYearAgg t).

(** [(a, b) => b.year - a.year]: most recent first. *)
Definition yearTrends (t : Tables) : list YearTrend :=
  sort (fun y x => yt_year x <? yt_year y)
       (inventoryYearTrends t ++ setsOnlyYearTrends t).

(** A trend counts at least one set, and its average is the rounded
    quotient, an integer. *)
Definition setsCounted (y : YearTrend) : Prop :=
  (1 <= yt_total_sets y)%nat /\
  yt_avg_pieces_per_set y
  = JS.round (JS.div (yt_total_pieces y) (Z.of_nat (yt_total_sets y))) /\
  exists k : Z, yt_avg_pieces_per_set y = JS.of_int k.

(** The shape of a sets-only row: no color or part detail. *)
Definition detailFree (y : YearTrend) : Prop :=
  yt_unique_colors y = None /\ yt_unique_parts y = None /\
  yt_top_color y = None /\ yt_top_color_hex y = None /\
  yt_top_part y = None /\ yt_top_part_name y = None /\
  yt_data_source y = sets_only.

(** ** Coverage thresholds *)

(** [T extends { name; percent; cumulative_percent }] *)
Class Covered (T : Type) := {
  nameOf : T -> string;
  percentOfItem : T -> JS.number;
  cumulativeOf : T -> JS.number
}.

#[export] Instance ColorStat_Covered : Covered ColorStat :=
  {| nameOf := cs_name; percentOfItem := cs_percent;
     cumulativeOf := cs_cumulative_percent |}.

#[export] Instance PartFrequency_Covered : Covered PartFrequency :=
  {| nameOf := pf_name; percentOfItem := pf_percent;
     cumulativeOf := pf_cumulative_percent |}.

Record ThresholdItem := {
  ti_name : string;
  ti_percent : JS.number;
  ti_cumulative_percent : JS.number
}.

Record CoverageThreshold := { ct_count : nat; ct_items : list ThresholdItem }.

Record PeriodCoverageData := {
  total_unique : nat;
  total_quantity : Z;
  thresholds : list (Z * CoverageThreshold)
}.

Section Thresholds.
Context {T : Type} `{Covered T}.

(** [item.cumulative_percent >= threshold] *)
Definition reaches (threshold : Z) (item : T) : bool :=
  JS.ge (cumulativeOf item) threshold.

(** The [for] loop from position [i] on; [None] when it runs off the end. *)
Fixpoint scanThreshold (rest : list T) (threshold : Z) (i : nat) : option nat :=
  match rest with
  | [] => None
  | item :: rest' =>
      if reaches threshold item then Some (i + 1)%nat
      else scanThreshold rest' threshold (S i)
  end.

Definition findThresholdIndex (items : list T) (threshold : Z) : nat :=
  match scanThreshold items threshold 0 with
  | Some count => count
  | None => List.length items
  end.

Definition reexpress (item : T) : ThresholdItem :=
  {| ti_name := nameOf item; ti_percent := percentOfItem item;
     ti_cumulative_percent := cumulativeOf item |}.

Definition getThresholdItems (items : list T) (threshold : Z) : CoverageThreshold :=
  let count := findThresholdIndex items threshold in
  {| ct_count := count;
     ct_items := map reexpress (firstn (Nat.min count 10) items) |}.

Definition buildCoverageData (items : list T) (totalQuantity : Z)
    : PeriodCoverageData :=
  {| total_unique := List.length items;
     total_quantity := totalQuantity;
     thresholds :=
       [ (50, getThresholdItems items 50);
         (80, getThresholdItems items 80);
         (90, getThresholdItems items 90);
         (95, getThresholdItems items 95);
         (99, getThresholdItems items 99) ] |}.
End Thresholds.

(** ** Coverage curves *)

Record CurvePoint := {
  cp_rank : nat;
  cp_name : string;
  cp_quantity : Z;
  cp_cumulative_percent : JS.number
}.

Record PeriodDataWithCurves := {
  pd_parts : PeriodCoverageData;
  pd_colors : PeriodCoverageData;
  pd_parts_curve : option (list CurvePoint);
  pd_colors_curve : option (list CurvePoint)
}.

(** An item of a period-scoped list. *)
Record PeriodItem := {
  pi_name : string;
  pi_percent : JS.number;
  pi_cumulative_percent : JS.number;
  pi_rank : nat;
  pi_quantity : Z
}.

#[export] Instance PeriodItem_Covered : Covered PeriodItem :=
  {| nameOf := pi_name; percentOfItem := pi_percent;
     cumulativeOf := pi_cumulative_percent |}.

Record PeriodPartAcc := { ppa_part_num : string; ppa_quantity : Z }.

Section Curves.
(** [logRankRound i maxPoints n] stands for
    [Math.round(Math.pow(10, (i / maxPoints) * Math.log10(n)))]: the three
    [Math] calls are floating-point library functions and stay abstract. *)
Variable logRankRound : nat -> nat -> nat -> Z.

Section Sampler.
Context {T : Type}.
Variable rankOf : T -> nat.

(** One turn of the sampling loop over [(sampled, seenRanks)]. *)
Definition sampleStep (data : list T) (d0 : T) (maxPoints : nat)
    (st : list T * list nat) (i : nat) : list T * list nat :=
  let (sampled, seenRanks) := st in
  let rank := Z.max 1 (logRankRound i maxPoints (List.length data)) in
  let idx := Z.to_nat (Z.min (rank - 1) (Z.of_nat (List.length data) - 1)) in
  let point := nth idx data d0 in
  if set_has Nat.eqb seenRanks (rankOf point) then st
  else (sampled ++ [point], set_add Nat.eqb seenRanks (rankOf point)).

Definition sampleCurvePoints (data : list T) (maxPoints : nat) : list T :=
  if (List.length data <=? maxPoints)%nat then data
  else
    match data with
    | [] => data
    | first :: _ =>
        let last := List.last data first in
        let (sampled, seenRanks) :=
          fold_left (sampleStep data first maxPoints) (seq 0 maxPoints) ([], []) in
        let sampled1 :=
          if set_has Nat.eqb seenRanks (rankOf first) then sampled
          else first :: sampled in
        let sampled2 :=
          if set_has Nat.eqb seenRanks (rankOf last) then sampled1
          else sampled1 ++ [last] in
        sort (fun y x => (rankOf y <? rankOf x)%nat) sampled2
    end.
End Sampler.

Definition defaultMaxPoints : nat := 500.

Definition curveOfPeriodItem (p : PeriodItem) : CurvePoint :=
  {| cp_rank := pi_rank p; cp_name := pi_name p; cp_quantity := pi_quantity p;
     cp_cumulative_percent := pi_cumulative_percent p |}.

(** ** Period-filtered coverage *)

Section Period.
Variable t : Tables.
(** [skipYear year]: the test on the resolved year that skips a row. *)
Variable skipYear : Z -> bool.

Definition periodStep (st : Map string PeriodPartAcc * Map string ColorAcc)
    (ip : InventoryPart) : Map string PeriodPartAcc * Map string ColorAcc :=
  let (periodPartAgg, periodColorAgg) := st in
  let qty := qtyOf ip in
  match resolveYear t ip with
  | None => st
  | Some (_, year) =>
      if skipYear year then st
      else
        let partAgg' :=
          match map_get String.eqb periodPartAgg (ip_part_num ip) with
          | Some existingPart =>
              map_set String.eqb periodPartAgg (ip_part_num ip)
                {| ppa_part_num := ppa_part_num existingPart;
                   ppa_quantity := ppa_quantity existingPart + qty |}
          | None =>
              map_set String.eqb periodPartAgg (ip_part_num ip)
                {| ppa_part_num := ip_part_num ip; ppa_quantity := qty |}
          end in
        (partAgg', colorAggStep (colorMap t) periodColorAgg ip)
  end.

Definition periodAgg : Map string PeriodPartAcc * Map string ColorAcc :=
  fold_left periodStep (inventoryParts t) ([], []).

(** [total > 0 ? parseFloat(((q / total) * 100).toFixed(4)) : 0] *)
Definition guardedPercent (q total : Z) : JS.number :=
  if 0 <? total then percentOf 4 q total else JS.Num 0.

Fixpoint periodItemsFrom {A : Type} (name : A -> string) (quantity : A -> Z)
    (total : Z) (index : nat) (cum : Z) (l : list A) : list PeriodItem :=
  match l with
  | [] => []
  | p :: rest =>
      let percent := guardedPercent (quantity p) total in
      let cum' := cum + quantity p in
      let cumulative_percent := guardedPercent cum' total in
      {| pi_name := name p; pi_percent := percent;
         pi_cumulative_percent := cumulative_percent;
         pi_rank := index + 1; pi_quantity := quantity p |}
      :: periodItemsFrom name quantity total (S index) cum' rest
  end.

Definition periodParts : list PeriodPartAcc :=
  sort (byQuantityDesc ppa_quantity) (map_values (fst periodAgg)).
Definition periodPartsTotal : Z := sumBy ppa_quantity periodParts.
Definition periodPartFrequency : list PeriodItem :=
  periodItemsFrom (fun p => partName (partMap t) (ppa_part_num p)) ppa_quantity
    periodPartsTotal 0 0 periodParts.

Definition periodColors : list ColorAcc :=
  sort (byQuantityDesc ca_quantity) (map_values (snd periodAgg)).
Definition periodColorsTotal : Z := sumBy ca_quantity periodColors.
Definition periodColorStats : list PeriodItem :=
  periodItemsFrom ca_name ca_quantity periodColorsTotal 0 0 periodColors.

Definition periodCoverage : PeriodDataWithCurves :=
  {| pd_parts := buildCoverageData periodPartFrequency periodPartsTotal;
     pd_colors := buildCoverageData periodColorStats periodColorsTotal;
     pd_parts_curve :=
       Some (sampleCurvePoints cp_rank (map curveOfPeriodItem periodPartFrequency)
               defaultMaxPoints);
     pd_colors_curve :=
       Some (sampleCurvePoints cp_rank (map curveOfPeriodItem periodColorStats)
               defaultMaxPoints) |}.
End Period.

(** [if (isNaN(year) || year < minYear) continue;] *)
Definition computePeriodCoverage (t : Tables) (minYear : Z) : PeriodDataWithCurves :=
  periodCoverage t (fun year => year <? minYear).
End Curves.

(** ** Decade colors *)

Record Decade := { decade : string; startYear : Z; endYear : Z }.

Definition decades : list Decade :=
  [ {| decade := "1950s"; startYear := 1950; endYear := 1959 |};
    {| decade := "1960s"; startYear := 1960; endYear := 1969 |};
    {| decade := "1970s"; startYear := 1970; endYear := 1979 |};
    {| decade := "1980s"; startYear := 1980; endYear := 1989 |};
    {| decade := "1990s"; startYear := 1990; endYear := 1999 |};
    {| decade := "2000s"; startYear := 2000; endYear := 2009 |};
    {| decade := "2010s"; startYear := 2010; endYear := 2019 |};
    {| decade := "2020s"; startYear := 2020; endYear := 2029 |} ].

Definition decadeOf (year : Z) : option Decade :=
  find (fun d => (startYear d <=? year) && (year <=? endYear d)) decades.

Definition decadeAggInit : Map string (Map string ColorAcc) :=
  fold_left (fun m d => map_set String.eqb m (decade d) []) decades [].

Definition decadeAggStep (t : Tables) (agg : Map string (Map string ColorAcc))
    (ip : InventoryPart) : Map string (Map string ColorAcc) :=
  match resolveYear t ip with
  | None => agg
  | Some (_, year) =>
      match decadeOf year with
      | None => agg
      | Some decadeInfo =>
          match map_get String.eqb agg (decade decadeInfo) with
          | None => agg
          | Some decadeColors =>
              map_set String.eqb agg (decade decadeInfo)
                (colorAggStep (colorMap t) decadeColors ip)
          end
      end
  end.

Definition decadeColorAgg (t : Tables) : Map string (Map string ColorAcc) :=
  fold_left (decadeAggStep t) (inventoryParts t) decadeAggInit.

Record DecadeColor := { dc_name : string; dc_color : string; dc_percent : JS.number }.
Record DecadeColors := { dcs_decade : string; dcs_colors : list DecadeColor }.

Definition decadeColorData (t : Tables) (d : Decade) : list ColorAcc :=
  match map_get String.eqb (decadeColorAgg t) (decade d) with
  | Some colorData => map_values colorData
  | None => []
  end.

Definition decadeEntry (t : Tables) (d : Decade) : DecadeColors :=
  let colorsList := decadeColorData t d in
  let total := sumBy ca_quantity colorsList in
  if total =? 0 then {| dcs_decade := decade d; dcs_colors := [] |}
  else
    let topColors :=
      map (fun c => {| dc_name := ca_name c; dc_color := ca_color c;
                       dc_percent := percentOf 2 (ca_quantity c) total |})
          (firstn 10 (sort (byQuantityDesc ca_quantity) colorsList)) in
    {| dcs_decade := decade d; dcs_colors := topColors |}.

Definition decadeColors (t : Tables) : list DecadeColors :=
  filter (fun d => (0 <? List.length (dcs_colors d))%nat) (map (decadeEntry t) decades).

(** ** The dashboard's custom-range aggregation ([CoverageAnalysis.tsx]) *)

Record CoverageStats := {
  st_parts : PeriodCoverageData;
  st_colors : PeriodCoverageData;
  st_by_period : option (Map string PeriodDataWithCurves)
}.

Record NameQty := { nq_name : string; nq_quantity : Z }.

(** [`year_${year}`] *)
Definition yearKey (year : Z) : string :=
  ("year_" ++ NilZero.string_of_int (Z.to_int year))%string.

(** The body of the loop over one curve: the per-name sum and the running
    total. *)
Definition addCurveItem (st : Map string NameQty * Z) (item : CurvePoint)
    : Map string NameQty * Z :=
  let (quantities, total) := st in
  (match map_get String.eqb quantities (cp_name item) with
   | Some existing =>
       map_set String.eqb quantities (cp_name item)
         {| nq_name := nq_name existing;
            nq_quantity := nq_quantity existing + cp_quantity item |}
   | None =>
       map_set String.eqb quantities (cp_name item)
         {| nq_name := cp_name item; nq_quantity := cp_quantity item |}
   end,
   total + cp_quantity item).

Definition addCurve (st : Map string NameQty * Z) (curve : option (list CurvePoint))
    : Map string NameQty * Z :=
  match curve with
  | Some items => fold_left addCurveItem items st
  | None => st
  end.

(** The years [startYear, startYear + 1, ..., endYear]. *)
Definition yearsBetween (startYear endYear : Z) : list Z :=
  map (fun k => startYear + Z.of_nat k) (seq 0 (Z.to_nat (endYear - startYear + 1))).

Definition collectYear (byPeriod : Map string PeriodDataWithCurves)
    (st : (Map string NameQty * Z) * (Map string NameQty * Z)) (year : Z)
    : (Map string NameQty * Z) * (Map string NameQty * Z) :=
  match map_get String.eqb byPeriod (yearKey year) with
  | None => st
  | Some yearData =>
      (addCurve (fst st) (pd_parts_curve yearData),
       addCurve (snd st) (pd_colors_curve yearData))
  end.

(** [(cumulative / total) * 100], not rounded. *)
Fixpoint rangeCurveFrom (total : Z) (index : nat) (cum : Z) (l : list NameQty)
    : list CurvePoint :=
  match l with
  | [] => []
  | item :: rest =>
      let cum' := cum + nq_quantity item in
      {| cp_rank := index + 1; cp_name := nq_name item;
         cp_quantity := nq_quantity item;
         cp_cumulative_percent := JS.times100 (JS.div cum' total) |}
      :: rangeCurveFrom total (S index) cum' rest
  end.

(** [curve.findIndex(p => p.cumulative_percent >= level)], from position [i]. *)
Fixpoint findIndexGe (curve : list CurvePoint) (level : Z) (i : nat) : option nat :=
  match curve with
  | [] => None
  | p :: rest =>
      if JS.ge (cp_cumulative_percent p) level then Some i
      else findIndexGe rest level (S i)
  end.

Definition rangeThreshold (curve : list CurvePoint) (total : Z) (level : Z)
    : CoverageThreshold :=
  let count :=
    match findIndexGe curve level 0 with
    | Some index => (index + 1)%nat
    | None => List.length curve
    end in
  {| ct_count := count;
     ct_items :=
       map (fun p => {| ti_name := cp_name p;
                        ti_percent := JS.times100 (JS.div (cp_quantity p) total);
                        ti_cumulative_percent := cp_cumulative_percent p |})
           (firstn (Nat.min 10 count) curve) |}.

Definition thresholdLevels : list Z := [50; 80; 90; 95; 99].

Definition rangeCoverage (sorted : list NameQty) (curve : list CurvePoint) (total : Z)
    : PeriodCoverageData :=
  {| total_unique := List.length sorted;
     total_quantity := total;
     thresholds := map (fun level => (level, rangeThreshold curve total level))
                       thresholdLevels |}.

Definition aggregateYearData (coverageStats : CoverageStats) (startYear endYear : Z)
    : PeriodDataWithCurves :=
  match st_by_period coverageStats with
  | None =>
      {| pd_parts := st_parts coverageStats; pd_colors := st_colors coverageStats;
         pd_parts_curve := None; pd_colors_curve := None |}
  | Some byPeriod =>
      let '((partsQuantities, totalPartsQuantity),
            (colorsQuantities, totalColorsQuantity)) :=
        fold_left (collectYear byPeriod) (yearsBetween startYear endYear)
                  (([], 0), ([], 0)) in
      let sortedParts := sort (byQuantityDesc nq_quantity) (map_values partsQuantities) in
      let sortedColors := sort (byQuantityDesc nq_quantity) (map_values colorsQuantities) in
      let partsCurve := rangeCurveFrom totalPartsQuantity 0 0 sortedParts in
      let colorsCurve := rangeCurveFrom totalColorsQuantity 0 0 sortedColors in
      {| pd_parts := rangeCoverage sortedParts partsCurve totalPartsQuantity;
         pd_colors := rangeCoverage sortedColors colorsCurve totalColorsQuantity;
         pd_parts_curve := Some partsCurve;
         pd_colors_curve := Some colorsCurve |}
  end.

(** ** Inputs used by the examples *)

Definition withRows (t : Tables) (rows : list InventoryPart) : Tables :=
  {| colors := colors t; parts := parts t; sets := sets t;
     inventories := inventories t; inventoryParts := rows |}.

(** [sum(item.percent for item in items)], the sum the percent invariant is
    stated about. *)
Definition sumNumbers (l : list JS.number) : JS.number :=
  fold_left JS.add l (JS.Num 0).

Definition mkColor (id name rgb : string) : Color :=
  {| c_id := id; c_name := name; c_rgb := rgb; c_is_trans := "f" |}.

Definition mkPart (part_num name : string) : Part :=
  {| p_part_num := part_num; p_name := name; p_part_cat_id := "11";
     p_part_material := "Plastic" |}.

Definition mkSet (set_num year num_parts : string) : LegoSet :=
  {| s_set_num := set_num; s_name := set_num; s_year := year; s_theme_id := "1";
     s_num_parts := num_parts |}.

Definition mkInventory (id set_num : string) : Inventory :=
  {| inv_id := id; inv_version := "1"; inv_set_num := set_num |}.

Definition mkRow (inventory_id part_num color_id quantity : string) : InventoryPart :=
  {| ip_inventory_id := inventory_id; ip_part_num := part_num;
     ip_color_id := color_id; ip_quantity := quantity; ip_is_spare := "f";
     ip_img_url := "" |}.

(** Red 300 and Blue 100 over the parts A 250 and B 150, with one set of 2015
    and two sets of 1990 that have no inventory. *)
Definition redBlue : Tables :=
  {| colors := [mkColor "4" "Red" "C91A09"; mkColor "1" "Blue" "0055BF"];
     parts := [mkPart "A" "Brick 2 x 4"];
     sets := [mkSet "S1" "2015" "400"; mkSet "S2" "1990" "20"; mkSet "S3" "1990" "31"];
     inventories := [mkInventory "1" "S1"];
     inventoryParts :=
       [mkRow "1" "A" "1" "100"; mkRow "1" "A" "4" "150"; mkRow "1" "B" "4" "150"] |}.

(** The summed quantity of the rows with part number [k]. *)
Definition partQuantity (k : string) (rows : list InventoryPart) : Z :=
  sumBy qtyOf (filter (fun ip => String.eqb (ip_part_num ip) k) rows).

(** [redBlue] with one more row, of 7 pieces of part B in a color id that the
    colors table does not have. *)
Definition strayColor : Tables :=
  withRows redBlue (inventoryParts redBlue ++ [mkRow "1" "B" "9999" "7"]).

(** [n] rows of one piece each, of the parts numbered 1 to [n]. *)
Definition onePieceEach (n : nat) : list InventoryPart :=
  map (fun k => mkRow "1" (NilZero.string_of_int (Z.to_int (Z.of_nat k))) "1" "1")
      (seq 1 n).

(** 700 parts of one piece each. *)
Definition manyParts : Tables := withRows redBlue (onePieceEach 700).

(** Half a unit in the last place of [d] decimals. *)
Definition halfUlp (d : nat) : Q := 1 # (2 * JS.pow10 d).

(** The exact percentage [q / total * 100]. *)
Definition exactPercent (q total : Z) : Q := (inject_Z q / inject_Z total * 100)%Q.

(** [items[-1]], when there is one. *)
Fixpoint lastOf {A : Type} (l : list A) : option A :=
  match l with
  | [] => None
  | [x] => Some x
  | _ :: rest => lastOf rest
  end.

(** The percent invariant of an aggregated list, as the code keeps it: the
    last cumulative percent is exactly 100, and the percents add up to 100 up
    to half a unit of the fourth decimal per item, so to within 0.01 for up
    to 200 items. *)
Definition percentsAddUp (percents : list JS.number) (lastCumulative : option JS.number)
    : Prop :=
  lastCumulative = Some (JS.Num 100) /\
  exists s,
    sumNumbers percents = JS.Num s /\
    (Qabs (s - 100) <= inject_Z (Z.of_nat (List.length percents)) * halfUlp 4)%Q /\
    ((List.length percents <= 200)%nat -> (Qabs (s - 100) <= 1 # 100)%Q).

(** The total quantity matched to decade [d] and the colors listed for it. *)
Definition decadeTotal (t : Tables) (d : Decade) : Z :=
  sumBy ca_quantity (decadeColorData t d).

Definition decadeListed (t : Tables) (d : Decade) : list ColorAcc :=
  firstn 10 (sort (byQuantityDesc ca_quantity) (decadeColorData t d)).

(** Six colors of one piece each in a set of 1995, three colors of one piece
    each in a set of 2015. *)
Definition twoDecades : Tables :=
  {| colors := [mkColor "0" "Black" "05131D"; mkColor "1" "Blue" "0055BF";
                mkColor "2" "Green" "237841"; mkColor "4" "Red" "C91A09";
                mkColor "14" "Yellow" "F2CD37"; mkColor "15" "White" "FFFFFF"];
     parts := [mkPart "3001" "Brick 2 x 4"];
     sets := [mkSet "6000-1" "1995" "6"; mkSet "7000-1" "2015" "3"];
     inventories := [mkInventory "10" "6000-1"; mkInventory "20" "7000-1"];
     inventoryParts :=
       [mkRow "10" "3001" "0" "1"; mkRow "10" "3001" "1" "1"; mkRow "10" "3001" "2" "1";
        mkRow "10" "3001" "4" "1"; mkRow "10" "3001" "14" "1"; mkRow "10" "3001" "15" "1";
        mkRow "20" "3001" "0" "1"; mkRow "20" "3001" "1" "1"; mkRow "20" "3001" "2" "1"] |}.

(** Every accumulated quantity of a color map is non-negative. *)
Definition nonNegative (m : Map string ColorAcc) : Prop :=
  Forall (fun e => 0 <= ca_quantity (snd e)) m.

(** What an emitted decade entry [e] holds: the colors listed for a decade
    [d] with a non-zero total, at most 10, each with the percent of the
    decade's total rounded to 2 decimals; the percents add up to the exact
    share of the listed colors up to 0.005 per listed color, so to within
    0.05 of 100 when the decade has at most 10 colors, and to at most 100.05
    when no row has a negative quantity. *)
Definition decadeShares (t : Tables) (e : DecadeColors) : Prop :=
  exists d,
    In d decades /\ dcs_decade e = decade d /\ decadeTotal t d <> 0 /\
    (List.length (dcs_colors e) <= 10)%nat /\
    dcs_colors e
    = map (fun c => {| dc_name := ca_name c; dc_color := ca_color c;
                       dc_percent := percentOf 2 (ca_quantity c) (decadeTotal t d) |})
          (decadeListed t d) /\
    exists s,
      sumNumbers (map dc_percent (dcs_colors e)) = JS.Num s /\
      (Qabs (s - exactPercent (sumBy ca_quantity (decadeListed t d)) (decadeTotal t d))
       <= inject_Z (Z.of_nat (List.length (dcs_colors e))) * halfUlp 2)%Q /\
      ((List.length (decadeColorData t d) <= 10)%nat -> (Qabs (s - 100) <= 5 # 100)%Q) /\
      ((forall ip, In ip (inventoryParts t) -> 0 <= qtyOf ip) ->
       (s <= 100 + (5 # 100))%Q).

(** One color and one row of quantity 0. *)
Definition zeroQuantity : Tables :=
  {| colors := [mkColor "4" "Red" "C91A09"];
     parts := [mkPart "3001" "Brick 2 x 4"];
     sets := [mkSet "6000-1" "2024" "0"];
     inventories := [mkInventory "10" "6000-1"];
     inventoryParts := [mkRow "10" "3001" "4" "0"] |}.

(** The state of the sampling loop: [seenRanks] holds exactly the ranks of
    the sampled points, which are pairwise different points of [data]. *)
Definition sampledInv {T : Type} (rankOf : T -> nat) (data : list T)
    (st : list T * list nat) : Prop :=
  (forall r, In r (snd st) <-> In r (map rankOf (fst st))) /\
  NoDup (map rankOf (fst st)) /\
  incl (fst st) data.

(** ** The two paths to a custom year range *)

(** The year test of a range: [true] skips the year. *)
Definition outside (startYear endYear : Z) (year : Z) : bool :=
  (year <? startYear) || (endYear <? year).

(** Modelled from the spec: the rescan of the raw inventory-part rows
    restricted to a custom range [startYear, endYear] (section 4.4).  The
    sources have [computePeriodCoverage(minYear)] only, with the lower bound;
    this is the same pass with the upper bound added to the year test. *)
Definition computeRangeCoverage (logRankRound : nat -> nat -> nat -> Z) (t : Tables)
    (startYear endYear : Z) : PeriodDataWithCurves :=
  periodCoverage logRankRound t (outside startYear endYear).

(** Modelled from the spec: the full per-item curves of one year (section
    4.4: "PeriodCoverageData plus the full per-item curve"; [aggregateYearData]
    reads a year's curve as having the "full item list"): every item of the
    rescan restricted to the year, not sampled. *)
Definition yearPartsCurve (t : Tables) (year : Z) : list CurvePoint :=
  map curveOfPeriodItem (periodPartFrequency t (outside year year)).

Definition yearColorsCurve (t : Tables) (year : Z) : list CurvePoint :=
  map curveOfPeriodItem (periodColorStats t (outside year year)).

(** Modelled from the spec: the pre-bucketed per-year data that the dashboard
    looks up under [year_<Y>]; nothing in the sources writes these keys.  The
    bucket of a year is the rescan restricted to that year, with its two
    curves in full. *)
Definition yearBucket (logRankRound : nat -> nat -> nat -> Z) (t : Tables) (year : Z)
    : PeriodDataWithCurves :=
  {| pd_parts := pd_parts (computeRangeCoverage logRankRound t year year);
     pd_colors := pd_colors (computeRangeCoverage logRankRound t year year);
     pd_parts_curve := Some (yearPartsCurve t year);
     pd_colors_curve := Some (yearColorsCurve t year) |}.

Definition yearBuckets (logRankRound : nat -> nat -> nat -> Z) (t : Tables)
    (years : list Z) : Map string PeriodDataWithCurves :=
  fold_left
    (fun m year => map_set String.eqb m (yearKey year) (yearBucket logRankRound t year))
    years [].

Definition statsWithYears (logRankRound : nat -> nat -> nat -> Z) (t : Tables)
    (years : list Z) : CoverageStats :=
  {| st_parts := buildCoverageData (partFrequency t) (totalPartsQuantity t);
     st_colors := buildCoverageData (colorStats t) (totalPieces t);
     st_by_period := Some (yearBuckets logRankRound t years) |}.

(** [data.thresholds[level].count] *)
Definition thresholdCount (p : PeriodCoverageData) (level : Z) : option nat :=
  option_map ct_count (map_get Z.eqb (thresholds p) level).

(** [data.thresholds[level].items[0].percent] *)
Definition firstPercent (p : PeriodCoverageData) (level : Z) : option JS.number :=
  match map_get Z.eqb (thresholds p) level with
  | Some th => option_map ti_percent (hd_error (ct_items th))
  | None => None
  end.

(** Three parts in one set of 2015; the largest one has 1,249,999 of the
    2,500,000 pieces, 49.99996 percent. *)
Definition thresholdEdge : Tables :=
  {| colors := [mkColor "4" "Red" "C91A09"];
     parts := [mkPart "3001" "Brick 2 x 4"; mkPart "3002" "Brick 2 x 3";
               mkPart "3003" "Brick 2 x 2"];
     sets := [mkSet "7000-1" "2015" "2500000"];
     inventories := [mkInventory "20" "7000-1"];
     inventoryParts :=
       [mkRow "20" "3001" "4" "1249999"; mkRow "20" "3002" "4" "625001";
        mkRow "20" "3003" "4" "625000"] |}.

(** A sampling stand-in for evaluating the examples; no example has a curve
    long enough to be sampled. *)
Definition noLogRank (i maxPoints n : nat) : Z := 1.

(** A row counts for a period when its year resolves and is not skipped. *)
Definition keptYear (t : Tables) (skipYear : Z -> bool) (ip : InventoryPart) : bool :=
  match resolveYear t ip with
  | Some (_, year) => negb (skipYear year)
  | None => false
  end.

Definition colorKnown (t : Tables) (ip : InventoryPart) : bool :=
  map_has String.eqb (colorMap t) (ip_color_id ip).

(** The summed quantity of a curve, when there is one. *)
Definition curveTotal (curve : option (list CurvePoint)) : Z :=
  match curve with
  | Some items => sumBy cp_quantity items
  | None => 0
  end.

(** What [partAgg] holds under each key once [rows] have been processed. *)
Definition partAggInv (agg : Map string PartAcc) (rows : list InventoryPart) : Prop :=
  forall k,
    match map_get String.eqb agg k with
    | Some acc =>
        pa_part_num acc = k /\ pa_quantity acc = partQuantity k rows /\
        exists ip, In ip rows /\ ip_part_num ip = k
    | None => forall ip, In ip rows -> ip_part_num ip <> k
    end.

(** Two parts of 2015 that the parts table does not have: both are named
    "Unknown". *)
Definition unnamedParts : Tables :=
  withRows redBlue [mkRow "1" "X1" "4" "3"; mkRow "1" "X2" "4" "2"].

(** ** Reading CSV text ([parseCSVLine], [parseCSV], the manual parse of
    [readGzippedCSV]) *)

(** The double quote character. *)
Definition dquote : ascii := ascii_of_nat 34.
Definition comma : ascii := ascii_of_nat 44.
Definition newline : ascii := ascii_of_nat 10.

(** [current += char] *)
Definition pushChar (current : string) (char : ascii) : string :=
  (current ++ String char EmptyString)%string.

(** The loop of [parseCSVLine] over the rest of the line, with the values
    pushed so far, the field being read and the quote flag.  A quote inside
    quotes that is followed by a quote adds one quote and skips a character;
    any other quote flips the flag; a comma outside quotes ends the field. *)
Fixpoint scanCSVLine (line : string) (values : list string) (current : string)
    (inQuotes : bool) : list string :=
  match line with
  | EmptyString => values ++ [current]
  | String char rest =>
      if Ascii.eqb char dquote then
        match rest with
        | String next rest' =>
            if inQuotes && Ascii.eqb next dquote
            then scanCSVLine rest' values (pushChar current dquote) inQuotes
            else scanCSVLine rest values current (negb inQuotes)
        | EmptyString => scanCSVLine rest values current (negb inQuotes)
        end
      else if Ascii.eqb char comma && negb inQuotes
      then scanCSVLine rest (values ++ [current]) EmptyString inQuotes
      else scanCSVLine rest values (pushChar current char) inQuotes
  end.

Definition parseCSVLine (line : string) : list string :=
  scanCSVLine line [] EmptyString false.

(** [s.split(sep)] for a one-character separator: at least one piece. *)
Fixpoint splitOn (sep : ascii) (s : string) : list string :=
  match s with
  | EmptyString => [EmptyString]
  | String c rest =>
      if Ascii.eqb c sep then EmptyString :: splitOn sep rest
      else
        match splitOn sep rest with
        | piece :: pieces => String c piece :: pieces
        | [] => [String c EmptyString]
        end
  end.

(** [s.trimEnd()] and [s.trim()], for the ASCII white space. *)
Fixpoint trimEnd (s : string) : string :=
  match s with
  | EmptyString => EmptyString
  | String c rest =>
      match trimEnd rest with
      | EmptyString => if JS.isWhite c then EmptyString else String c EmptyString
      | kept => String c kept
      end
  end.

Definition trim (s : string) : string := trimEnd (JS.trimStart s).

(** A record of the parsed table: the own properties of the object, column
    name to value. *)
Definition Row := Map string string.

(** [obj[key] = value] for a string [value] on a plain object.  The key
    [__proto__] reaches the setter inherited from [Object.prototype], which
    ignores a value that is not an object: no property is created. *)
Definition setProperty (obj : Row) (key value : string) : Row :=
  if String.eqb key "__proto__" then obj else map_set String.eqb obj key value.

(** [headers.forEach((h, i) => obj[h.trim()] = values[i]?.trim() || "")],
    from column [i] on. *)
Fixpoint fillRow (headers : list string) (i : nat) (values : list string) (obj : Row)
    : Row :=
  match headers with
  | [] => obj
  | h :: rest =>
      let value :=
        match nth_error values i with
        | Some v => JS.strOr (trim v) ""
        | None => EmptyString
        end in
      fillRow rest (S i) values (setProperty obj (trim h) value)
  end.

(** The table from the lines, by a given way to cut a line into fields. *)
Definition rowsOf (cut : string -> list string) (lines : list string) : list Row :=
  match lines with
  | [] => []
  | first :: data =>
      let headers := cut first in
      map (fun line => fillRow headers 0 (cut line) []) data
  end.

Definition parseCSV (text : string) : list Row :=
  rowsOf parseCSVLine (splitOn newline (trim text)).

(** The manual parse of [readGzippedCSV]: fields are cut at every comma. *)
Definition parseCSVPlain (text : string) : list Row :=
  rowsOf (splitOn comma) (splitOn newline (trim text)).

(** A field written between quotes, its own quotes doubled. *)
Fixpoint doubleQuotes (field : string) : string :=
  match field with
  | EmptyString => EmptyString
  | String c rest =>
      if Ascii.eqb c dquote then String dquote (String dquote (doubleQuotes rest))
      else String c (doubleQuotes rest)
  end.

Definition quoted (field : string) : string :=
  String dquote (doubleQuotes field ++ String dquote EmptyString).

(** [pieces.join(sep)] *)
Fixpoint joinWith (sep : ascii) (pieces : list string) : string :=
  match pieces with
  | [] => EmptyString
  | [piece] => piece
  | piece :: rest => (piece ++ String sep (joinWith sep rest))%string
  end.

(** Every character of [s] is an ASCII character.  On such a text the
    characters of the JavaScript string are the bytes, and [trim] removes what
    [String.prototype.trim] removes. *)
Fixpoint asciiOnly (s : string) : bool :=
  match s with
  | EmptyString => true
  | String c rest => (nat_of_ascii c <? 128)%nat && asciiOnly rest
  end.

(** [c] does not occur in [s]. *)
Fixpoint lacks (c : ascii) (s : string) : bool :=
  match s with
  | EmptyString => true
  | String x rest => negb (Ascii.eqb x c) && lacks c rest
  end.

(** A colors table of two data lines; the second one stops after the name. *)
Definition colorsCsv : string :=
  "id,name,rgb,is_trans
4, Red ,C91A09,f
1,Blue
".

(** One turn of the arg-max scan of [topOf]. *)
Definition topStep (top e : string * Z) : string * Z :=
  if snd top <? snd e then e else top.

(** [redBlue] with one more row, of 9 pieces, in an inventory that the
    inventories table does not have. *)
Definition strayInventory : Tables :=
  withRows redBlue (inventoryParts redBlue ++ [mkRow "77" "A" "4" "9"]).

(** ** Dashboard helpers ([CoverageAnalysis.tsx], [DateRangeFilter.tsx], the
    app component, the coverage curve and the historical trends chart) *)

(** [calculateParetoCoverage]: the cumulative percent of the point that ends
    the top fifth of the curve.  [Math.floor(data.length * 0.2)] is the length
    divided by 5, rounded down; for an index of 0 the point [data[-1]] is
    undefined and [?? 0] applies. *)
Definition calculateParetoCoverage (data : list CurvePoint) : JS.number :=
  match data with
  | [] => JS.Num 0
  | _ :: _ =>
      match (List.length data / 5)%nat with
      | O => JS.Num 0
      | S before =>
          match nth_error data before with
          | Some top20Point => cp_cumulative_percent top20Point
          | None => JS.Num 0
          end
      end
  end.

(** [data.find(d => d.rank === n)?.cumulative_percent ?? 0] *)
Definition findCoverageForTopN (data : list CurvePoint) (n : nat) : JS.number :=
  match find (fun d => Nat.eqb (cp_rank d) n) data with
  | Some point => cp_cumulative_percent point
  | None => JS.Num 0
  end.

(** [parseInt(s, 10)], as an exact integer: the result is the number the
    code gets as long as it is at most 2^53 in magnitude; beyond, the code
    has the nearest double, which is not modelled. *)
Definition parseInt10 (s : string) : option Z :=
  match JS.trimStart s with
  | String "-" rest => option_map Z.opp (JS.digits 10 rest None)
  | String "+" rest => JS.digits 10 rest None
  | t => JS.digits 10 t None
  end.

Definition isDigit (c : ascii) : bool :=
  let n := nat_of_ascii c in ((48 <=? n) && (n <=? 57))%nat.

(** The longest run of digits at the start of [s], and what follows it. *)
Fixpoint takeDigits (s : string) : string * string :=
  match s with
  | String c rest =>
      if isDigit c then let (ds, tail) := takeDigits rest in (String c ds, tail)
      else (EmptyString, s)
  | EmptyString => (EmptyString, EmptyString)
  end.

(** [s] without the prefix [p], when it starts with it. *)
Fixpoint dropPrefix (p s : string) : option string :=
  match p, s with
  | EmptyString, _ => Some s
  | String a p', String b s' => if Ascii.eqb a b then dropPrefix p' s' else None
  | String _ _, EmptyString => None
  end.

(** The groups of [period.match(/^custom_(\d+)_(\d+)$/)]: digits are not
    underscores, so the match, when there is one, is the only one. *)
Definition matchCustom (period : string) : option (string * string) :=
  match dropPrefix "custom_" period with
  | None => None
  | Some afterPrefix =>
      let (first, afterFirst) := takeDigits afterPrefix in
      match first, afterFirst with
      | String _ _, String "_" afterSep =>
          let (second, afterSecond) := takeDigits afterSep in
          match second, afterSecond with
          | String _ _, EmptyString => Some (first, second)
          | _, _ => None
          end
      | _, _ => None
      end
  end.

Definition parseCustomRange (period : string) : option (Z * Z) :=
  match matchCustom period with
  | Some (first, second) =>
      match parseInt10 first, parseInt10 second with
      | Some startY, Some endY => Some (startY, endY)
      | _, _ => None
      end
  | None => None
  end.

(** The decimal numeral of a natural number: the digits [YYYY] of the
    period keys [custom_YYYY_YYYY] that [parseCustomRange] is written for. *)
Definition decimal (n : N) : string := NilZero.string_of_uint (N.to_uint n).

Inductive TimePeriod := all_time | last_5_years | last_10_years.

Record YearRange := { yr_startYear : Z; yr_endYear : Z }.

Definition yearRangeToTimePeriod (yearRange : YearRange) (currentYear : Z) : TimePeriod :=
  let yearsBack := currentYear - yr_startYear yearRange in
  if yearsBack <=? 5 then last_5_years
  else if yearsBack <=? 10 then last_10_years
  else all_time.

(** *** The date range filter *)

Inductive PresetOption := last5 | last10 | allTime | custom.

Record FilterProps := { minYear : Z; maxYear : Z }.

(** The component state kept by [useState]. *)
Record FilterState := {
  activePreset : PresetOption;
  customStart : Z;
  customEnd : Z
}.

Definition sameRange (r : YearRange) (startY endY : Z) : bool :=
  (yr_startYear r =? startY) && (yr_endYear r =? endY).

Definition getInitialPreset (props : FilterProps) (currentYear : Z)
    (initialRange : option YearRange) : PresetOption :=
  match initialRange with
  | None => allTime
  | Some r =>
      if sameRange r (minYear props) (maxYear props) then allTime
      else if sameRange r (currentYear - 5) (maxYear props) then last5
      else if sameRange r (currentYear - 10) (maxYear props) then last10
      else custom
  end.

Definition initialFilterState (props : FilterProps) (currentYear : Z)
    (initialRange : option YearRange) : FilterState :=
  {| activePreset := getInitialPreset props currentYear initialRange;
     customStart := match initialRange with
                    | Some r => yr_startYear r
                    | None => minYear props
                    end;
     customEnd := match initialRange with
                  | Some r => yr_endYear r
                  | None => maxYear props
                  end |}.

(** Each handler gives the next state and the range passed to [onChange]. *)
Definition handlePresetClick (props : FilterProps) (currentYear : Z) (st : FilterState)
    (preset : PresetOption) : FilterState * YearRange :=
  ({| activePreset := preset; customStart := customStart st; customEnd := customEnd st |},
   match preset with
   | last5 => {| yr_startYear := currentYear - 5; yr_endYear := maxYear props |}
   | last10 => {| yr_startYear := currentYear - 10; yr_endYear := maxYear props |}
   | allTime => {| yr_startYear := minYear props; yr_endYear := maxYear props |}
   | custom => {| yr_startYear := customStart st; yr_endYear := customEnd st |}
   end).

Definition handleCustomStartChange (st : FilterState) (year : Z) : FilterState * YearRange :=
  let effectiveEnd := Z.max year (customEnd st) in
  ({| activePreset := custom; customStart := year; customEnd := effectiveEnd |},
   {| yr_startYear := year; yr_endYear := effectiveEnd |}).

Definition handleCustomEndChange (st : FilterState) (year : Z) : FilterState * YearRange :=
  let effectiveStart := Z.min (customStart st) year in
  ({| activePreset := custom; customStart := effectiveStart; customEnd := year |},
   {| yr_startYear := effectiveStart; yr_endYear := year |}).

Inductive FilterEvent :=
| ClickPreset (preset : PresetOption)
| ChangeStart (year : Z)
| ChangeEnd (year : Z).

Definition filterStep (props : FilterProps) (currentYear : Z) (st : FilterState)
    (ev : FilterEvent) : FilterState * YearRange :=
  match ev with
  | ClickPreset preset => handlePresetClick props currentYear st preset
  | ChangeStart year => handleCustomStartChange st year
  | ChangeEnd year => handleCustomEndChange st year
  end.

(** The states reached and the ranges reported over a run of events. *)
Fixpoint filterRun (props : FilterProps) (currentYear : Z) (st : FilterState)
    (events : list FilterEvent) : list (FilterState * YearRange) :=
  match events with
  | [] => []
  | ev :: rest =>
      let next := filterStep props currentYear st ev in
      next :: filterRun props currentYear (fst next) rest
  end.

(** The [for (let y = maxYear; y >= minYear; y--)] loop of the year options. *)
Definition yearOptions (props : FilterProps) : list Z :=
  map (fun k => maxYear props - Z.of_nat k)
      (seq 0 (Z.to_nat (maxYear props - minYear props + 1))).

(** *** The threshold markers of the coverage curve *)

Record ThresholdPoint := {
  tp_threshold : Z;
  tp_rank : nat;
  tp_name : string;
  tp_cumulative : JS.number
}.

(** The marker of one threshold: [null] when no point reaches it. *)
Definition thresholdPoint (data : list CurvePoint) (threshold : Z) : option ThresholdPoint :=
  match findIndexGe data threshold 0 with
  | None => None
  | Some crossingIndex =>
      match nth_error data crossingIndex with
      | Some point =>
          Some {| tp_threshold := threshold; tp_rank := cp_rank point;
                  tp_name := cp_name point;
                  tp_cumulative := cp_cumulative_percent point |}
      | None => None
      end
  end.

(** [thresholds.map(...).filter(Boolean)] *)
Fixpoint keepSome {A : Type} (l : list (option A)) : list A :=
  match l with
  | [] => []
  | Some x :: rest => x :: keepSome rest
  | None :: rest => keepSome rest
  end.

Definition thresholdPoints (data : list CurvePoint) (thresholds : list Z)
    : list ThresholdPoint :=
  match data with
  | [] => []
  | _ :: _ => keepSome (map (thresholdPoint data) thresholds)
  end.

(** *** The historical trends chart *)

(** [[...data].sort((a, b) => a.year - b.year)] *)
Definition trendsSortedData (data : list YearTrend) : list YearTrend :=
  sort (fun y x => yt_year y <? yt_year x) data.

(** [sortedData.filter((d) => d.unique_parts !== null)] *)
Definition dataWithUniqueParts (data : list YearTrend) : list YearTrend :=
  filter (fun d => match yt_unique_parts d with Some _ => true | None => false end)
         (trendsSortedData data).

(** The range lies within the years of the filter and is not inverted. *)
Definition rangeInBounds (props : FilterProps) (r : YearRange) : Prop :=
  minYear props <= yr_startYear r /\ yr_startYear r <= yr_endYear r /\
  yr_endYear r <= maxYear props.

(** A year picked in a dropdown is one of its options. *)
Definition pickedFromOptions (props : FilterProps) (ev : FilterEvent) : Prop :=
  match ev with
  | ClickPreset _ => True
  | ChangeStart year | ChangeEnd year => In year (yearOptions props)
  end.

(** The precomputed period that carries the name of a preset button. *)
Definition periodOfPreset (preset : PresetOption) : option TimePeriod :=
  match preset with
  | last5 => Some last_5_years
  | last10 => Some last_10_years
  | allTime => Some all_time
  | custom => None
  end.

(** What the coverage data and the curve of a custom range have in common:
    the curve lists every item once, by name, in descending order of
    quantity, ranked by position; its quantities sum to the total, and when
    the total is not zero its last cumulative percent is 100. *)
Definition rangeCurveOk (d : PeriodCoverageData) (curve : option (list CurvePoint)) : Prop :=
  exists points,
    curve = Some points /\
    total_unique d = List.length points /\
    total_quantity d = sumBy cp_quantity points /\
    map cp_rank points = seq 1 (List.length points) /\
    NoDup (map cp_name points) /\
    StronglySorted (fun a b => cp_quantity b <= cp_quantity a) points /\
    (total_quantity d <> 0 ->
     exists q, option_map cp_cumulative_percent (lastOf points) = Some (JS.Num q) /\
               q == 100).

(** The coverage data of a range in which no item was found. *)
Definition emptyCoverage : PeriodCoverageData :=
  {| total_unique := 0;
     total_quantity := 0;
     thresholds := map (fun level => (level, {| ct_count := 0%nat; ct_items := [] |}))
                       thresholdLevels |}.

(** What the loop over the curves keeps: the running total is the sum of the
    per-name quantities, and every entry is stored under its own name. *)
Definition namedSums (st : Map string NameQty * Z) : Prop :=
  snd st = sumBy nq_quantity (map_values (fst st)) /\
  NoDup (map_keys (fst st)) /\
  Forall (fun e => nq_name (snd e) = fst e) (fst st).

(** [x >= T] as the claims mean it, in the order of the numbers: NaN and
    -Infinity are at least nothing. *)
Definition atLeast (x : JS.number) (T : Z) : Prop :=
  match x with
  | JS.Num q => (inject_Z T <= q)%Q
  | JS.PInf => True
  | JS.NaN => False
  | JS.NInf => False
  end.

(** What a grouping loop keeps, for the statements about the two paths to a
    custom range.  The rows [done] have been processed; a row counts when
    [sel] holds, is filed under [key] and carries the name [rname] and the
    quantity [w]; an entry has the name [vname] and the quantity [vqty].
    Keys occur once; every entry was opened by a row that counts, whose name
    it has; every row that counts has its entry; and the quantities of the
    entries of a name add up to those of the rows of that name. *)
Definition grouped {R V : Type} (sel : R -> bool) (key rname : R -> string) (w : R -> Z)
    (vname : V -> string) (vqty : V -> Z) (m : Map string V) (done : list R) : Prop :=
  NoDup (map_keys m) /\
  (forall k v, In (k, v) m ->
     exists r, In r done /\ sel r = true /\ key r = k /\ vname v = rname r) /\
  (forall r, In r done -> sel r = true -> In (key r) (map_keys m)) /\
  (forall n, sumBy (fun v => if String.eqb (vname v) n then vqty v else 0) (map_values m)
             = sumBy (fun r => if sel r && String.eqb (rname r) n then w r else 0) done).

(** The key and the name under which the color of a row is counted, when
    the color id is known. *)
Definition rowColorKey (t : Tables) (ip : InventoryPart) : string :=
  match map_get String.eqb (colorMap t) (ip_color_id ip) with
  | Some color => colorKey color
  | None => EmptyString
  end.

Definition rowColorName (t : Tables) (ip : InventoryPart) : string :=
  match map_get String.eqb (colorMap t) (ip_color_id ip) with
  | Some color => c_name color
  | None => EmptyString
  end.

(** The name under which the part of a row is listed. *)
Definition rowPartName (t : Tables) (ip : InventoryPart) : string :=
  partName (partMap t) (ip_part_num ip).


(** No cumulative percent of the curve is lifted over the level by the
    rounding to four decimals. *)
Definition noLift (level : Z) (curve : list CurvePoint) : Prop :=
  forall p, In p curve ->
    JS.ge (JS.toFixed 4 (cp_cumulative_percent p)) level = true ->
    JS.ge (cp_cumulative_percent p) level = true.

(** The bucket of [year] in [byPeriod] holds the full per-item curves of the
    year. *)
Definition hasYearCurves (t : Tables) (byPeriod : Map string PeriodDataWithCurves)
    (year : Z) : Prop :=
  exists bucket,
    map_get String.eqb byPeriod (yearKey year) = Some bucket /\
    pd_parts_curve bucket = Some (yearPartsCurve t year) /\
    pd_colors_curve bucket = Some (yearColorsCurve t year).

(** Names identify the parts of a period: among the rows that count, two
    part numbers with the same name are the same part number. *)
Definition partNamesTellApart (t : Tables) (skipYear : Z -> bool) : Prop :=
  forall ip ip', In ip (inventoryParts t) -> In ip' (inventoryParts t) ->
    keptYear t skipYear ip = true -> keptYear t skipYear ip' = true ->
    rowPartName t ip = rowPartName t ip' -> ip_part_num ip = ip_part_num ip'.

(** Names identify the colors of a period: among the rows that count and
    have a known color, two colors have the same name exactly when they have
    the same key, the one under which the rescan files them. *)
Definition colorNamesTellApart (t : Tables) (skipYear : Z -> bool) : Prop :=
  forall ip ip', In ip (inventoryParts t) -> In ip' (inventoryParts t) ->
    keptYear t skipYear ip = true -> keptYear t skipYear ip' = true ->
    colorKnown t ip = true -> colorKnown t ip' = true ->
    (rowColorName t ip = rowColorName t ip' <-> rowColorKey t ip = rowColorKey t ip').

(** What the per-year path ([fast], with its curve) and the rescan ([rescan],
    built from the ranked list [ranked]) have in common: the total quantity
    and the number of unique items; the items, by name and quantity; the
    quantity at every rank; and, for a positive total, percents of the rescan
    that are those of the per-year path rounded to four decimals, so that at
    each threshold the count of the rescan is at most the other one, and is
    the same, with the same listed percents up to the rounding, when no
    cumulative percent is lifted over the threshold by the rounding. *)
Definition pathsAgree (fast : PeriodCoverageData) (fastCurve : option (list CurvePoint))
    (rescan : PeriodCoverageData) (ranked : list PeriodItem) : Prop :=
  total_quantity fast = total_quantity rescan /\
  total_unique fast = total_unique rescan /\
  exists curve,
    fastCurve = Some curve /\
    Permutation (map (fun p => (cp_name p, cp_quantity p)) curve)
                (map (fun i => (pi_name i, pi_quantity i)) ranked) /\
    map cp_quantity curve = map pi_quantity ranked /\
    (0 < total_quantity rescan ->
     map (fun p => JS.toFixed 4 (cp_cumulative_percent p)) curve
     = map pi_cumulative_percent ranked /\
     forall level, In level thresholdLevels ->
       exists foundR foundF,
         map_get Z.eqb (thresholds rescan) level = Some foundR /\
         map_get Z.eqb (thresholds fast) level = Some foundF /\
         (ct_count foundR <= ct_count foundF)%nat /\
         (noLift level curve ->
          ct_count foundR = ct_count foundF /\
          map ti_percent (ct_items foundR)
          = map (fun i => JS.toFixed 4 (ti_percent i)) (ct_items foundF) /\
          map ti_cumulative_percent (ct_items foundR)
          = map (fun i => JS.toFixed 4 (ti_cumulative_percent i)) (ct_items foundF))).


(** [data.thresholds[level].items[0].name] *)
Definition firstName (p : PeriodCoverageData) (level : Z) : option string :=
  match map_get Z.eqb (thresholds p) level with
  | Some th => option_map ti_name (hd_error (ct_items th))
  | None => None
  end.

(** Two sets, of 2015 and of 2016, with part A in both. *)
Definition twoYears : Tables :=
  {| colors := [mkColor "4" "Red" "C91A09"; mkColor "1" "Blue" "0055BF"];
     parts := [mkPart "A" "Brick 2 x 4"; mkPart "B" "Plate 1 x 2"; mkPart "C" "Tile 1 x 1"];
     sets := [mkSet "S1" "2015" "150"; mkSet "S2" "2016" "50"];
     inventories := [mkInventory "1" "S1"; mkInventory "2" "S2"];
     inventoryParts :=
       [mkRow "1" "A" "4" "100"; mkRow "1" "B" "1" "50";
        mkRow "2" "A" "1" "30"; mkRow "2" "C" "4" "20"] |}.

(** Five pieces of part B in the set of 2016 and, on a later line, five
    pieces of part A in the set of 2015. *)
Definition tiedYears : Tables :=
  withRows twoYears [mkRow "2" "B" "4" "5"; mkRow "1" "A" "4" "5"].


(** Two colors with one name, used in the sets of 2015 and of 2016. *)
Definition sameNameColors : Tables :=
  {| colors := [mkColor "4" "Red" "C91A09"; mkColor "5" "Red" "FF0000"];
     parts := parts twoYears;
     sets := sets twoYears;
     inventories := inventories twoYears;
     inventoryParts := [mkRow "1" "A" "4" "10"; mkRow "2" "A" "5" "10"] |}.

(** Two colors whose keys, [rgb-name], are both "a-b-c". *)
Definition dashedColors : Tables :=
  {| colors := [mkColor "1" "c" "a-b"; mkColor "2" "b-c" "a"];
     parts := parts twoYears;
     sets := sets twoYears;
     inventories := inventories twoYears;
     inventoryParts := [mkRow "1" "A" "1" "10"; mkRow "2" "A" "2" "10"] |}.

(** ** Facts about sums, maps and sorting *)

Section SumFacts.
Context {A : Type} (f : A -> Z).

Lemma fold_sum_shift (l : list A) (a : Z) :
  fold_left (fun sum x => sum + f x) l a = a + sumBy f l.
Proof.
  unfold sumBy. revert a.
  induction l as [|x l IH]; intros a; simpl.
  - lia.
  - rewrite (IH (a + f x)), (IH (f x)). lia.
Qed.

Lemma sumBy_nil : sumBy f [] = 0.
Proof. reflexivity. Qed.

Lemma sumBy_cons (x : A) (l : list A) : sumBy f (x :: l) = f x + sumBy f l.
Proof. unfold sumBy at 1. simpl. rewrite fold_sum_shift. lia. Qed.

Lemma sumBy_app (l1 l2 : list A) : sumBy f (l1 ++ l2) = sumBy f l1 + sumBy f l2.
Proof.
  induction l1 as [|x l1 IH]; cbn [app].
  - rewrite sumBy_nil. lia.
  - rewrite !sumBy_cons, IH. lia.
Qed.

Lemma sumBy_perm (l1 l2 : list A) : Permutation l1 l2 -> sumBy f l1 = sumBy f l2.
Proof.
  induction 1; rewrite ?sumBy_cons in *; lia.
Qed.
End SumFacts.

Section SortFacts.
Context {A : Type} (before : A -> A -> bool).

Lemma insert_perm (x : A) (l : list A) : Permutation (insert before x l) (x :: l).
Proof.
  induction l as [|y l IH]; simpl.
  - reflexivity.
  - destruct (before y x).
    + rewrite IH. apply perm_swap.
    + reflexivity.
Qed.

Lemma sort_perm (l : list A) : Permutation (sort before l) l.
Proof.
  induction l as [|x l IH]; simpl.
  - reflexivity.
  - rewrite insert_perm. now apply perm_skip.
Qed.

Lemma sort_length (l : list A) : List.length (sort before l) = List.length l.
Proof. apply Permutation_length, sort_perm. Qed.

Lemma sort_In (x : A) (l : list A) : In x (sort before l) <-> In x l.
Proof.
  split; apply Permutation_in; [ | symmetry ]; apply sort_perm.
Qed.
End SortFacts.

Section MapFacts.
Context {K V : Type} (eqb : K -> K -> bool).
Hypothesis eqb_eq : forall a b, eqb a b = true <-> a = b.

Lemma eqb_refl' (k : K) : eqb k k = true.
Proof. now apply eqb_eq. Qed.

Lemma eqb_false (a b : K) : a <> b -> eqb a b = false.
Proof.
  intros Hne. destruct (eqb a b) eqn:E; [ | reflexivity ].
  apply eqb_eq in E. contradiction.
Qed.

Lemma map_get_set_same (m : Map K V) (k : K) (v : V) :
  map_get eqb (map_set eqb m k v) k = Some v.
Proof.
  induction m as [|[k' v'] m IH]; simpl.
  - now rewrite eqb_refl'.
  - destruct (eqb k' k) eqn:E; simpl; rewrite E; [ reflexivity | exact IH ].
Qed.

Lemma map_get_set_other (m : Map K V) (k k' : K) (v : V) :
  k' <> k -> map_get eqb (map_set eqb m k v) k' = map_get eqb m k'.
Proof.
  intros Hne. induction m as [|[k0 v0] m IH]; simpl.
  - rewrite eqb_false; [ reflexivity | congruence ].
  - destruct (eqb k0 k) eqn:E; simpl.
    + apply eqb_eq in E. subst k0.
      rewrite eqb_false; [ reflexivity | congruence ].
    + destruct (eqb k0 k'); [ reflexivity | exact IH ].
Qed.

Lemma map_get_In (m : Map K V) (k : K) (v : V) :
  map_get eqb m k = Some v -> In (k, v) m.
Proof.
  induction m as [|[k0 v0] m IH]; simpl; [ discriminate | ].
  destruct (eqb k0 k) eqn:E.
  - apply eqb_eq in E. intros [= ->]. left. now subst.
  - intros Hg. right. now apply IH.
Qed.

Lemma map_get_None_keys (m : Map K V) (k : K) :
  map_get eqb m k = None <-> ~ In k (map_keys m).
Proof.
  induction m as [|[k0 v0] m IH]; simpl.
  - tauto.
  - destruct (eqb k0 k) eqn:E.
    + apply eqb_eq in E. subst. split; [ discriminate | tauto ].
    + rewrite IH. split.
      * intros Hn [Heq | Hin]; [ | tauto ].
        subst. rewrite eqb_refl' in E. discriminate.
      * tauto.
Qed.

Lemma map_keys_set (m : Map K V) (k : K) (v : V) :
  map_keys (map_set eqb m k v) =
  if map_has eqb m k then map_keys m else map_keys m ++ [k].
Proof.
  unfold map_has. induction m as [|[k0 v0] m IH]; simpl.
  - reflexivity.
  - destruct (eqb k0 k) eqn:E; simpl.
    + reflexivity.
    + rewrite IH. now destruct (map_get eqb m k).
Qed.

Lemma map_keys_set_NoDup (m : Map K V) (k : K) (v : V) :
  NoDup (map_keys m) -> NoDup (map_keys (map_set eqb m k v)).
Proof.
  intros Hnd. rewrite map_keys_set. unfold map_has.
  destruct (map_get eqb m k) eqn:E; [ exact Hnd | ].
  apply map_get_None_keys in E.
  apply NoDup_app; [ exact Hnd | repeat constructor; simpl; tauto | ].
  intros x Hx [Hk | []]. subst. contradiction.
Qed.

Lemma map_keys_set_In (m : Map K V) (k k' : K) (v : V) :
  In k' (map_keys (map_set eqb m k v)) <-> In k' (map_keys m) \/ k' = k.
Proof.
  rewrite map_keys_set. unfold map_has.
  destruct (map_get eqb m k) eqn:E.
  - apply map_get_In in E. apply (in_map fst) in E. simpl in E.
    split; [ tauto | ]. intros [Hin | ->]; assumption.
  - rewrite in_app_iff. simpl. intuition congruence.
Qed.

(** Replacing or adding a value moves the sum of the values accordingly. *)
Lemma sum_values_set (f : V -> Z) (m : Map K V) (k : K) (v : V) :
  sumBy f (map_values (map_set eqb m k v)) =
  sumBy f (map_values m) + f v
  - match map_get eqb m k with Some old => f old | None => 0 end.
Proof.
  unfold map_values. induction m as [|[k0 v0] m IH]; simpl.
  - rewrite sumBy_cons, sumBy_nil. lia.
  - destruct (eqb k0 k) eqn:E; simpl; rewrite !sumBy_cons.
    + lia.
    + rewrite IH. lia.
Qed.

End MapFacts.

Section SetFacts.
Context {K : Type} (eqb : K -> K -> bool).
Hypothesis eqb_eq : forall a b, eqb a b = true <-> a = b.

Lemma set_has_In (s : list K) (k : K) : set_has eqb s k = true <-> In k s.
Proof.
  unfold set_has. rewrite existsb_exists. split.
  - intros (x & Hin & He). apply eqb_eq in He. now subst.
  - intros Hin. exists k. split; [ exact Hin | now apply eqb_eq ].
Qed.

Lemma set_add_In (s : list K) (k x : K) :
  In x (set_add eqb s k) <-> In x s \/ x = k.
Proof.
  unfold set_add. destruct (set_has eqb s k) eqn:E.
  - apply set_has_In in E. split; [ tauto | ]. intros [H | ->]; assumption.
  - rewrite in_app_iff. simpl. intuition congruence.
Qed.

Lemma set_add_nonempty (s : list K) (k : K) : set_add eqb s k <> [].
Proof.
  unfold set_add. destruct (set_has eqb s k) eqn:E.
  - intros ->. discriminate.
  - destruct s; discriminate.
Qed.

Lemma fold_set_add_In (l s : list K) (x : K) :
  In x (fold_left (set_add eqb) l s) <-> In x s \/ In x l.
Proof.
  revert s. induction l as [|k l IH]; intros s; simpl.
  - tauto.
  - rewrite IH, set_add_In. intuition.
Qed.
End SetFacts.

(** ** Threshold search *)

Section ThresholdFacts.
Context {T : Type} `{Covered T}.

(** A hit of the scan started at position [i] is the first crossing. *)
Lemma scanThreshold_Some (rest : list T) (threshold : Z) (i count : nat) :
  scanThreshold rest threshold i = Some count ->
  exists k item,
    count = (i + k + 1)%nat /\ nth_error rest k = Some item /\
    reaches threshold item = true /\
    forall j item', (j < k)%nat -> nth_error rest j = Some item' ->
                    reaches threshold item' = false.
Proof.
  revert i. induction rest as [|x rest IH]; intros i; simpl; [ discriminate | ].
  destruct (reaches threshold x) eqn:E.
  - intros [= <-]. exists 0%nat, x.
    split; [ lia | split; [ reflexivity | split; [ exact E | ] ] ].
    intros j item' Hj. lia.
  - intros Hs. destruct (IH _ Hs) as (k & item & -> & Hnth & Hreach & Hbefore).
    exists (S k), item.
    split; [ lia | split; [ exact Hnth | split; [ exact Hreach | ] ] ].
    intros [|j] item' Hj; simpl.
    + intros [= <-]. exact E.
    + apply Hbefore. lia.
Qed.

Lemma scanThreshold_None (rest : list T) (threshold : Z) (i : nat) :
  scanThreshold rest threshold i = None ->
  forall item, In item rest -> reaches threshold item = false.
Proof.
  revert i. induction rest as [|x rest IH]; intros i; simpl; [ tauto | ].
  destruct (reaches threshold x) eqn:E; [ discriminate | ].
  intros Hs item [<- | Hin]; [ exact E | ]. eapply IH; eauto.
Qed.

Lemma findThresholdIndex_le (items : list T) (threshold : Z) :
  (findThresholdIndex items threshold <= List.length items)%nat.
Proof.
  unfold findThresholdIndex.
  destruct (scanThreshold items threshold 0) as [count|] eqn:E; [ | lia ].
  apply scanThreshold_Some in E. destruct E as (k & item & -> & Hnth & _).
  assert (k < List.length items)%nat by (apply nth_error_Some; congruence).
  lia.
Qed.

Lemma reaches_atLeast (threshold : Z) (item : T) :
  reaches threshold item = true <-> atLeast (cumulativeOf item) threshold.
Proof.
  unfold reaches, JS.ge, atLeast.
  destruct (cumulativeOf item) as [| | |q];
    [ split; [ discriminate | tauto ] | tauto | split; [ discriminate | tauto ] | ].
  apply Qle_bool_iff.
Qed.

Lemma reaches_not_atLeast (threshold : Z) (item : T) :
  reaches threshold item = false <-> ~ atLeast (cumulativeOf item) threshold.
Proof.
  rewrite <- reaches_atLeast. destruct (reaches threshold item); split; congruence.
Qed.

(** C2. The count of the threshold search is the smallest 1-based count [C]
    with [items[C-1].cumulative_percent >= threshold]: the item at [C-1] is
    at least the threshold and no item before it is; when no item is at least
    the threshold, the count is the length of the sequence.  The items list
    of the result has [min(C, 10)] entries, which are the first items of the
    sequence re-expressed as [{name, percent, cumulative_percent}]. *)
Theorem threshold_search_first_crossing (items : list T) (threshold : Z) :
  let found := getThresholdItems items threshold in
  ((exists item,
       (1 <= ct_count found)%nat /\
       nth_error items (ct_count found - 1) = Some item /\
       atLeast (cumulativeOf item) threshold /\
       forall j earlier, (j < ct_count found - 1)%nat -> nth_error items j = Some earlier ->
                         ~ atLeast (cumulativeOf earlier) threshold)
   \/ (ct_count found = List.length items /\
       forall item, In item items -> ~ atLeast (cumulativeOf item) threshold))
  /\ List.length (ct_items found) = Nat.min (ct_count found) 10
  /\ (forall i item, (i < Nat.min (ct_count found) 10)%nat -> nth_error items i = Some item ->
        nth_error (ct_items found) i
        = Some {| ti_name := nameOf item; ti_percent := percentOfItem item;
                  ti_cumulative_percent := cumulativeOf item |}).
Proof.
  cbv zeta. cbn [getThresholdItems ct_count ct_items].
  set (C := findThresholdIndex items threshold).
  split; [ | split ].
  - subst C. unfold findThresholdIndex.
    destruct (scanThreshold items threshold 0) as [count|] eqn:E.
    + left. apply scanThreshold_Some in E.
      destruct E as (k & item & -> & Hnth & Hreach & Hbefore).
      exists item. replace (0 + k + 1 - 1)%nat with k by lia.
      split; [ lia | split; [ exact Hnth | split ] ].
      * now apply reaches_atLeast.
      * intros j earlier Hj Hearlier. apply reaches_not_atLeast. eauto.
    + right. split; [ reflexivity | ].
      intros item Hin. apply reaches_not_atLeast. eapply scanThreshold_None; eauto.
  - rewrite length_map, length_firstn.
    pose proof (findThresholdIndex_le items threshold). fold C in H0. lia.
  - intros i item Hi Hnth.
    rewrite nth_error_map, nth_error_firstn.
    destruct (Nat.ltb_spec i (Nat.min C 10)); [ | lia ].
    now rewrite Hnth.
Qed.
End ThresholdFacts.

(** In [twoDecades] the six colors have cumulative percents 22.2222,
    44.4444, 66.6667, 77.7778, 88.8889 and 100: the third one is the first to
    be at least 50, so the count for 50 is 3, and three items are listed. *)
Lemma threshold_search_witness :
  ct_count (getThresholdItems (colorStats twoDecades) 50) = 3%nat /\
  List.length (colorStats twoDecades) = 6%nat /\
  List.length (ct_items (getThresholdItems (colorStats twoDecades) 50)) = 3%nat.
Proof.
  destruct (threshold_search_first_crossing (colorStats twoDecades) 50)
    as (Hcount & Hlength & _).
  assert (exists third, nth_error (colorStats twoDecades) 2 = Some third /\
                        atLeast (cumulativeOf third) 50) as (third & Hthird & Hat3).
  { eexists. split; [ vm_compute; reflexivity | vm_compute; discriminate ]. }
  assert (ct_count (getThresholdItems (colorStats twoDecades) 50) = 3%nat) as Hthree.
  { destruct Hcount as [(item & Hpos & Hnth & Hat & Hbefore) | [_ Hnone]].
    - destruct (ct_count (getThresholdItems (colorStats twoDecades) 50))
        as [|[|[|[|count]]]].
      + lia.
      + vm_compute in Hnth. injection Hnth as <-. vm_compute in Hat. now elim Hat.
      + vm_compute in Hnth. injection Hnth as <-. vm_compute in Hat. now elim Hat.
      + reflexivity.
      + elim (Hbefore 2%nat third ltac:(lia) Hthird). exact Hat3.
    - elim (Hnone third); [ | exact Hat3 ]. eapply nth_error_In. exact Hthird. }
  rewrite Hthree in Hlength.
  split; [ exact Hthree | split; [ reflexivity | exact Hlength ] ].
Defined.

(** ** Year trends: buckets, years and the two groups *)

Lemma fold_left_inv {A B : Type} (P : A -> Prop) (f : A -> B -> A) (l : list B) (a : A) :
  P a -> (forall a b, P a -> P (f a b)) -> P (fold_left f l a).
Proof.
  intros Ha Hstep. revert a Ha.
  induction l as [|b l IH]; intros a Ha; simpl; [ exact Ha | ].
  apply IH, Hstep, Ha.
Qed.

Lemma Forall_map_set {K V : Type} (eqb : K -> K -> bool) (Q : V -> Prop)
    (m : Map K V) (k : K) (v : V) :
  Forall (fun e => Q (snd e)) m -> Q v ->
  Forall (fun e => Q (snd e)) (map_set eqb m k v).
Proof.
  intros Hm Hv. induction m as [|[k0 v0] m IH]; simpl.
  - repeat constructor. exact Hv.
  - inversion Hm; subst. destruct (eqb k0 k).
    + constructor; [ exact Hv | assumption ].
    + constructor; [ assumption | now apply IH ].
Qed.

Lemma Zeqb_eq (a b : Z) : (a =? b) = true <-> a = b.
Proof. apply Z.eqb_eq. Qed.

(** A bucket of [yearAgg] is created by a row that adds its set number. *)
Lemma yearAgg_sets_nonempty (t : Tables) :
  Forall (fun e => yd_sets (snd e) <> []) (yearAgg t).
Proof.
  unfold yearAgg. apply fold_left_inv; [ constructor | ].
  intros agg ip Hagg. unfold yearAggStep.
  destruct (resolveYear t ip) as [[setNum year]|]; [ | exact Hagg ].
  destruct (year <? 1949); [ exact Hagg | ].
  apply Forall_map_set with (Q := fun d => yd_sets d <> []); [ exact Hagg | ].
  simpl. apply set_add_nonempty.
Qed.

Lemma setsOnlyYearAgg_sets_nonempty (t : Tables) :
  Forall (fun e => so_sets (snd e) <> []) (setsOnlyYearAgg t).
Proof.
  unfold setsOnlyYearAgg. apply fold_left_inv; [ constructor | ].
  intros agg set Hagg. unfold setsOnlyStep.
  destruct (JS.parseInt (s_year set)) as [year|]; [ | exact Hagg ].
  destruct (year <? 1949); [ exact Hagg | ].
  destruct (set_has Z.eqb (inventoryYears t) year); [ exact Hagg | ].
  apply Forall_map_set with (Q := fun d => so_sets d <> []); [ exact Hagg | ].
  simpl. apply set_add_nonempty.
Qed.

(** With at least one set the average is a plain rounded quotient: the
    [|| 0] never replaces a NaN. *)
Lemma avgPieces_positive (pieces : Z) (n : nat) :
  (1 <= n)%nat ->
  avgPieces pieces n = JS.round (JS.div pieces (Z.of_nat n)) /\
  exists k : Z, avgPieces pieces n = JS.of_int k.
Proof.
  intros Hn. unfold avgPieces, JS.div.
  destruct (Z.eqb_spec (Z.of_nat n) 0) as [E|E]; [ lia | ].
  cbn [JS.round JS.or0].
  set (k := Qfloor (inject_Z pieces / inject_Z (Z.of_nat n) + (1 # 2))).
  destruct (Qeq_bool (inject_Z k) 0) eqn:Ez.
  - apply Qeq_bool_iff in Ez. unfold Qeq in Ez. simpl in Ez.
    assert (k = 0) as -> by lia.
    split; [ reflexivity | exists 0; reflexivity ].
  - split; [ reflexivity | exists k; reflexivity ].
Qed.

Lemma length_pos {A : Type} (l : list A) : l <> [] -> (1 <= List.length l)%nat.
Proof. destruct l; [ congruence | simpl; lia ]. Qed.

Lemma inventoryYearTrends_setsCounted (t : Tables) :
  Forall setsCounted (inventoryYearTrends t).
Proof.
  unfold inventoryYearTrends. apply Forall_map.
  eapply Forall_impl; [ | apply yearAgg_sets_nonempty ].
  intros [year data] Hne. simpl in Hne. apply length_pos in Hne.
  unfold setsCounted. simpl. split; [ exact Hne | ].
  now apply avgPieces_positive.
Qed.

Lemma setsOnlyYearTrends_setsCounted (t : Tables) :
  Forall setsCounted (setsOnlyYearTrends t).
Proof.
  unfold setsOnlyYearTrends. apply Forall_map.
  eapply Forall_impl; [ | apply setsOnlyYearAgg_sets_nonempty ].
  intros [year data] Hne. simpl in Hne. apply length_pos in Hne.
  unfold setsCounted. simpl. split; [ exact Hne | ].
  now apply avgPieces_positive.
Qed.

Lemma yearTrends_perm (t : Tables) :
  Permutation (yearTrends t) (inventoryYearTrends t ++ setsOnlyYearTrends t).
Proof. apply sort_perm. Qed.

(** C10. In both year-trend paths every emitted YearTrend counts at least one
    set, so the divisor of avg_pieces_per_set is never zero and the average is
    the rounded quotient itself (an integer, never the NaN the [|| 0] guards
    against). *)
Theorem year_trend_sets_positive (t : Tables) :
  Forall setsCounted (inventoryYearTrends t) /\
  Forall setsCounted (setsOnlyYearTrends t) /\
  Forall setsCounted (yearTrends t).
Proof.
  split; [ apply inventoryYearTrends_setsCounted | ].
  split; [ apply setsOnlyYearTrends_setsCounted | ].
  rewrite (Forall_forall setsCounted (yearTrends t)). intros y Hy.
  apply (Permutation_in _ (yearTrends_perm t)) in Hy.
  apply in_app_or in Hy. destruct Hy as [Hy | Hy].
  - exact (proj1 (Forall_forall _ _) (inventoryYearTrends_setsCounted t) y Hy).
  - exact (proj1 (Forall_forall _ _) (setsOnlyYearTrends_setsCounted t) y Hy).
Qed.

(** The sample snapshot has one year in each group. *)
Example year_trend_sets_positive_sample :
  map (fun y => (yt_year y, yt_total_sets y, yt_avg_pieces_per_set y, yt_data_source y))
      (yearTrends redBlue)
  = [ (2015, 1%nat, JS.Num 400, inventory); (1990, 2%nat, JS.Num 26, sets_only) ].
Proof. vm_compute. reflexivity. Qed.

Lemma inventoryYearTrends_years (t : Tables) :
  map yt_year (inventoryYearTrends t) = map_keys (yearAgg t).
Proof.
  unfold inventoryYearTrends, map_keys. rewrite map_map.
  apply map_ext. now intros [year data].
Qed.

Lemma setsOnlyYearTrends_years (t : Tables) :
  map yt_year (setsOnlyYearTrends t) = map_keys (setsOnlyYearAgg t).
Proof.
  unfold setsOnlyYearTrends, map_keys. rewrite map_map.
  apply map_ext. now intros [year data].
Qed.

Lemma yearAgg_keys_NoDup (t : Tables) : NoDup (map_keys (yearAgg t)).
Proof.
  unfold yearAgg. apply fold_left_inv; [ constructor | ].
  intros agg ip Hagg. unfold yearAggStep.
  destruct (resolveYear t ip) as [[setNum year]|]; [ | exact Hagg ].
  destruct (year <? 1949); [ exact Hagg | ].
  now apply (map_keys_set_NoDup Z.eqb Zeqb_eq).
Qed.

Lemma yearAggStep_keys (t : Tables) (agg : Map Z YearData) (ip : InventoryPart) (y : Z) :
  In y (map_keys (yearAggStep t agg ip)) <->
  In y (map_keys agg) \/
  (exists setNum, resolveYear t ip = Some (setNum, y)) /\ 1949 <= y.
Proof.
  unfold yearAggStep.
  destruct (resolveYear t ip) as [[setNum year]|].
  - destruct (Z.ltb_spec year 1949).
    + split; [ tauto | ]. intros [Hin | [[s [= _ ->]] Hy]]; [ exact Hin | lia ].
    + rewrite (map_keys_set_In Z.eqb Zeqb_eq). split.
      * intros [Hin | ->]; [ tauto | ]. right. split; [ now exists setNum | lia ].
      * intros [Hin | [[s [= _ ->]] Hy]]; tauto.
  - split; [ tauto | ]. intros [Hin | [[s [=]] _]]. exact Hin.
Qed.

(** The inventory-joined years are exactly the years at or after 1949 that
    some row resolves to. *)
Lemma yearAgg_keys (t : Tables) (y : Z) :
  In y (map_keys (yearAgg t)) <->
  exists ip setNum,
    In ip (inventoryParts t) /\ resolveYear t ip = Some (setNum, y) /\ 1949 <= y.
Proof.
  unfold yearAgg.
  assert (G : forall rows agg,
             In y (map_keys (fold_left (yearAggStep t) rows agg)) <->
             In y (map_keys agg) \/
             exists ip setNum,
               In ip rows /\ resolveYear t ip = Some (setNum, y) /\ 1949 <= y).
  { induction rows as [|ip rows IH]; intros agg; simpl.
    - split; [ tauto | ]. intros [Hin | (ip & s & [] & _)]. exact Hin.
    - rewrite IH, yearAggStep_keys. split.
      + intros [[Hin | [[s Hs] Hy]] | (ip' & s & Hin & Hs & Hy)].
        * now left.
        * right. exists ip, s. auto.
        * right. exists ip', s. auto.
      + intros [Hin | (ip' & s & [<- | Hin] & Hs & Hy)].
        * now left; left.
        * left. right. split; [ now exists s | exact Hy ].
        * right. exists ip', s. auto. }
  rewrite G. simpl. split; [ intros [[] | Hex]; exact Hex | now right ].
Qed.

Lemma inventoryYears_In (t : Tables) (y : Z) :
  In y (inventoryYears t) <-> In y (map yt_year (inventoryYearTrends t)).
Proof.
  unfold inventoryYears. rewrite (fold_set_add_In Z.eqb Zeqb_eq). simpl. tauto.
Qed.

Lemma setsOnlyStep_keys (invYears : list Z) (agg : Map Z SetsOnlyData) (set : LegoSet)
    (y : Z) :
  In y (map_keys (setsOnlyStep invYears agg set)) <->
  In y (map_keys agg) \/
  JS.parseInt (s_year set) = Some y /\ 1949 <= y /\ ~ In y invYears.
Proof.
  unfold setsOnlyStep.
  destruct (JS.parseInt (s_year set)) as [year|].
  - destruct (Z.ltb_spec year 1949).
    + split; [ tauto | ]. intros [Hin | ([= ->] & Hy & _)]; [ exact Hin | lia ].
    + destruct (set_has Z.eqb invYears year) eqn:E.
      * apply (set_has_In Z.eqb Zeqb_eq) in E.
        split; [ tauto | ]. intros [Hin | ([= ->] & _ & Hn)]; tauto.
      * assert (~ In year invYears) as Hn.
        { intros Hin. apply (set_has_In Z.eqb Zeqb_eq) in Hin. congruence. }
        rewrite (map_keys_set_In Z.eqb Zeqb_eq). split.
        -- intros [Hin | ->]; [ tauto | ]. right. auto.
        -- intros [Hin | ([= ->] & _)]; tauto.
  - split; [ tauto | ]. intros [Hin | ([=] & _)]. exact Hin.
Qed.

(** The sets-only years are the years at or after 1949 of the sets table
    that the inventory join did not produce. *)
Lemma setsOnlyYearAgg_keys (t : Tables) (y : Z) :
  In y (map_keys (setsOnlyYearAgg t)) <->
  exists set,
    In set (sets t) /\ JS.parseInt (s_year set) = Some y /\ 1949 <= y /\
    ~ In y (inventoryYears t).
Proof.
  unfold setsOnlyYearAgg. generalize (inventoryYears t) as invYears. intros invYears.
  assert (G : forall l agg,
             In y (map_keys (fold_left (setsOnlyStep invYears) l agg)) <->
             In y (map_keys agg) \/
             exists set, In set l /\ JS.parseInt (s_year set) = Some y /\
                         1949 <= y /\ ~ In y invYears).
  { induction l as [|set l IH]; intros agg; simpl.
    - split; [ tauto | ]. intros [Hin | (set & [] & _)]. exact Hin.
    - rewrite IH, setsOnlyStep_keys. split.
      + intros [[Hin | Hs] | (set' & Hin & Hs)].
        * now left.
        * right. exists set. auto.
        * right. exists set'. auto.
      + intros [Hin | (set' & [<- | Hin] & Hs)].
        * now left; left.
        * left. now right.
        * right. exists set'. auto. }
  rewrite G. simpl. split; [ intros [[] | Hex]; exact Hex | now right ].
Qed.

Lemma setsOnlyYearAgg_keys_NoDup (t : Tables) : NoDup (map_keys (setsOnlyYearAgg t)).
Proof.
  unfold setsOnlyYearAgg. apply fold_left_inv; [ constructor | ].
  intros agg set Hagg. unfold setsOnlyStep.
  destruct (JS.parseInt (s_year set)) as [year|]; [ | exact Hagg ].
  destruct (year <? 1949); [ exact Hagg | ].
  destruct (set_has Z.eqb (inventoryYears t) year); [ exact Hagg | ].
  now apply (map_keys_set_NoDup Z.eqb Zeqb_eq).
Qed.

(** C4. Over the inventory-joined and the sets-only group together every
    year occurs once (so in one group only, never both); the two groups cover
    every year from 1949 on that a row resolves to or a set of the sets table
    carries; a sets-only row has null detail fields and data_source
    [sets_only]; the emitted array holds these two groups. *)
Theorem year_trend_split (t : Tables) :
  NoDup (map yt_year (inventoryYearTrends t ++ setsOnlyYearTrends t)) /\
  (forall ip setNum y,
      In ip (inventoryParts t) -> resolveYear t ip = Some (setNum, y) -> 1949 <= y ->
      In y (map yt_year (inventoryYearTrends t))) /\
  (forall set y,
      In set (sets t) -> JS.parseInt (s_year set) = Some y -> 1949 <= y ->
      In y (map yt_year (inventoryYearTrends t ++ setsOnlyYearTrends t))) /\
  Forall detailFree (setsOnlyYearTrends t) /\
  Forall (fun y => yt_data_source y = inventory) (inventoryYearTrends t) /\
  Permutation (yearTrends t) (inventoryYearTrends t ++ setsOnlyYearTrends t).
Proof.
  split; [ | split; [ | split; [ | split; [ | split ] ] ] ].
  - rewrite map_app. apply NoDup_app.
    + rewrite inventoryYearTrends_years. apply yearAgg_keys_NoDup.
    + rewrite setsOnlyYearTrends_years. apply setsOnlyYearAgg_keys_NoDup.
    + intros y Hinv Hso. rewrite setsOnlyYearTrends_years in Hso.
      apply setsOnlyYearAgg_keys in Hso. destruct Hso as (set & _ & _ & _ & Hn).
      apply Hn, inventoryYears_In, Hinv.
  - intros ip setNum y Hin Hres Hy.
    rewrite inventoryYearTrends_years. apply yearAgg_keys. eauto.
  - intros set y Hin Hparse Hy. rewrite map_app, in_app_iff.
    destruct (in_dec Z.eq_dec y (inventoryYears t)) as [Hi | Hn].
    + left. now apply inventoryYears_In.
    + right. rewrite setsOnlyYearTrends_years. apply setsOnlyYearAgg_keys.
      exists set. auto.
  - unfold setsOnlyYearTrends. apply Forall_map, Forall_forall.
    intros [year data] _. repeat split.
  - unfold inventoryYearTrends. apply Forall_map, Forall_forall.
    now intros [year data] _.
  - apply yearTrends_perm.
Qed.

Lemma year_trend_split_witness :
  In 2015 (map yt_year (inventoryYearTrends redBlue)) /\
  In 1990 (map yt_year (inventoryYearTrends redBlue ++ setsOnlyYearTrends redBlue)).
Proof.
  destruct (year_trend_split redBlue) as (_ & Hrows & Hsets & _).
  split.
  - apply (Hrows (mkRow "1" "A" "1" "100") "S1"%string 2015).
    + simpl. tauto.
    + vm_compute. reflexivity.
    + lia.
  - apply (Hsets (mkSet "S2" "1990" "20") 1990).
    + simpl. tauto.
    + vm_compute. reflexivity.
    + lia.
Defined.

(** ** Part frequency: what each row contributes *)

Lemma Seqb_eq (a b : string) : String.eqb a b = true <-> a = b.
Proof. apply String.eqb_eq. Qed.

Lemma partQuantity_snoc (k : string) (rows : list InventoryPart) (x : InventoryPart) :
  partQuantity k (rows ++ [x]) =
  partQuantity k rows + (if String.eqb (ip_part_num x) k then qtyOf x else 0).
Proof.
  unfold partQuantity. rewrite filter_app, sumBy_app. simpl.
  destruct (String.eqb (ip_part_num x) k).
  - rewrite sumBy_cons, sumBy_nil. lia.
  - rewrite sumBy_nil. lia.
Qed.

Lemma partQuantity_none (k : string) (rows : list InventoryPart) :
  (forall ip, In ip rows -> ip_part_num ip <> k) -> partQuantity k rows = 0.
Proof.
  intros Hno. unfold partQuantity.
  induction rows as [|x rows IH]; simpl; [ reflexivity | ].
  destruct (String.eqb_spec (ip_part_num x) k) as [E|E].
  - exfalso. apply (Hno x); simpl; auto.
  - apply IH. intros ip Hin. apply Hno. now right.
Qed.

Lemma partAggStep_inv (agg : Map string PartAcc) (rows : list InventoryPart)
    (x : InventoryPart) :
  partAggInv agg rows -> partAggInv (partAggStep agg x) (rows ++ [x]).
Proof.
  intros Hinv k. pose proof (Hinv k) as Hk. pose proof (Hinv (ip_part_num x)) as Hx.
  unfold partAggStep. rewrite partQuantity_snoc.
  destruct (String.eqb_spec (ip_part_num x) k) as [E|E].
  - subst k.
    destruct (map_get String.eqb agg (ip_part_num x)) as [existing|] eqn:G;
      rewrite (map_get_set_same String.eqb Seqb_eq); simpl.
    + destruct Hx as (Hnum & Hq & _). split; [ exact Hnum | split; [ lia | ] ].
      exists x. rewrite in_app_iff. simpl. auto.
    + split; [ reflexivity | split ].
      * rewrite partQuantity_none; [ lia | exact Hx ].
      * exists x. rewrite in_app_iff. simpl. auto.
  - assert (map_get String.eqb
              (match map_get String.eqb agg (ip_part_num x) with
               | Some existing =>
                   map_set String.eqb agg (ip_part_num x)
                     {| pa_part_num := pa_part_num existing;
                        pa_quantity := pa_quantity existing + qtyOf x;
                        pa_img_url :=
                          if JS.truthy (ip_img_url x)
                             && negb (JS.truthy (pa_img_url existing))
                          then ip_img_url x else pa_img_url existing |}
               | None =>
                   map_set String.eqb agg (ip_part_num x)
                     {| pa_part_num := ip_part_num x; pa_quantity := qtyOf x;
                        pa_img_url := JS.strOr (ip_img_url x) "" |}
               end) k = map_get String.eqb agg k) as ->.
    { destruct (map_get String.eqb agg (ip_part_num x));
        apply (map_get_set_other String.eqb Seqb_eq); congruence. }
    destruct (map_get String.eqb agg k) as [acc|].
    + destruct Hk as (Hnum & Hq & ip & Hin & Hip).
      split; [ exact Hnum | split; [ lia | ] ].
      exists ip. rewrite in_app_iff. auto.
    + intros ip Hin. apply in_app_or in Hin. destruct Hin as [Hin | [<- | []]].
      * now apply Hk.
      * exact E.
Qed.

Lemma partAgg_inv (rows : list InventoryPart) :
  partAggInv (fold_left partAggStep rows []) rows.
Proof.
  induction rows as [|x rows IH] using rev_ind.
  - intros k. simpl. tauto.
  - rewrite fold_left_app. simpl. now apply partAggStep_inv.
Qed.

Lemma partAgg_total (rows : list InventoryPart) :
  sumBy pa_quantity (map_values (fold_left partAggStep rows [])) = sumBy qtyOf rows.
Proof.
  induction rows as [|x rows IH] using rev_ind; [ reflexivity | ].
  rewrite fold_left_app, sumBy_app, sumBy_cons, sumBy_nil. simpl.
  unfold partAggStep at 1.
  destruct (map_get String.eqb (fold_left partAggStep rows []) (ip_part_num x))
    as [existing|] eqn:G; rewrite sum_values_set, G, IH; simpl; lia.
Qed.

Lemma totalPartsQuantity_rows (t : Tables) :
  totalPartsQuantity t = sumBy qtyOf (inventoryParts t).
Proof.
  unfold totalPartsQuantity, sortedParts.
  rewrite (sumBy_perm _ _ _ (sort_perm _ _)). apply partAgg_total.
Qed.

(** Every accumulator becomes one entry, with its number, quantity and the
    name looked up in the part map. *)
Lemma partFrequencyFrom_In (pm : Map string Part) (total : Z) (l : list PartAcc)
    (p : PartAcc) (index : nat) (cum : Z) :
  In p l ->
  exists e, In e (partFrequencyFrom pm total index cum l) /\
            pf_part_num e = pa_part_num p /\ pf_quantity e = pa_quantity p /\
            pf_name e = partName pm (pa_part_num p).
Proof.
  revert index cum. induction l as [|x l IH]; intros index cum; simpl; [ tauto | ].
  intros [-> | Hin].
  - eexists. split; [ left; reflexivity | ]. simpl. auto.
  - destruct (IH (S index) (cum + pa_quantity x) Hin) as (e & He & Hrest).
    exists e. auto.
Qed.

Lemma partFrequency_entry (t : Tables) (ip : InventoryPart) :
  In ip (inventoryParts t) ->
  exists e, In e (partFrequency t) /\
            pf_part_num e = ip_part_num ip /\
            pf_quantity e = partQuantity (ip_part_num ip) (inventoryParts t) /\
            pf_name e = partName (partMap t) (ip_part_num ip).
Proof.
  intros Hin. pose proof (partAgg_inv (inventoryParts t) (ip_part_num ip)) as Hk.
  fold (partAgg t) in Hk.
  destruct (map_get String.eqb (partAgg t) (ip_part_num ip)) as [acc|] eqn:G.
  - destruct Hk as (Hnum & Hq & _).
    apply (map_get_In String.eqb Seqb_eq) in G.
    apply (in_map snd) in G. simpl in G.
    assert (In acc (sortedParts t)) as Hs by (apply sort_In; exact G).
    destruct (partFrequencyFrom_In (partMap t) (totalPartsQuantity t) _ _ 0%nat 0 Hs)
      as (e & He & Hn & Hqe & Hname).
    exists e. rewrite Hn, Hqe, Hname, Hnum, Hq. auto.
  - exfalso. exact (Hk ip Hin eq_refl).
Qed.

(** C6, as the code has it. A row whose part number is not in the part map
    is not skipped: part-frequency has an entry for that part number, named
    "Unknown", whose quantity is the sum over all rows with that number. *)
Theorem unknown_part_is_kept (t : Tables) (ip : InventoryPart) :
  In ip (inventoryParts t) ->
  map_get String.eqb (partMap t) (ip_part_num ip) = None ->
  exists e, In e (partFrequency t) /\
            pf_part_num e = ip_part_num ip /\
            pf_name e = "Unknown"%string /\
            pf_quantity e = partQuantity (ip_part_num ip) (inventoryParts t).
Proof.
  intros Hin Hnone.
  destruct (partFrequency_entry t ip Hin) as (e & He & Hn & Hq & Hname).
  exists e. unfold partName in Hname. rewrite Hnone in Hname. auto.
Qed.

Lemma unknown_part_is_kept_witness :
  exists e, In e (partFrequency strayColor) /\
            pf_part_num e = "B"%string /\
            pf_name e = "Unknown"%string /\
            pf_quantity e = 157.
Proof.
  apply (unknown_part_is_kept strayColor (mkRow "1" "B" "9999" "7")).
  - vm_compute. tauto.
  - vm_compute. reflexivity.
Defined.

(** C6 as stated fails: part B of [strayColor] is not in the parts table, yet
    part-frequency lists it. *)
Lemma unknown_part_not_skipped :
  ~ (forall (t : Tables) (ip : InventoryPart),
        In ip (inventoryParts t) ->
        map_get String.eqb (partMap t) (ip_part_num ip) = None ->
        forall e, In e (partFrequency t) -> pf_part_num e <> ip_part_num ip).
Proof.
  intros Hskip.
  assert (In (mkRow "1" "B" "9999" "7") (inventoryParts strayColor)) as Hin
    by (vm_compute; tauto).
  destruct (partFrequency_entry strayColor _ Hin) as (e & He & Hn & _).
  apply (Hskip strayColor _ Hin) with (e := e); [ | exact He | exact Hn ].
  vm_compute. reflexivity.
Qed.

(** ** A row with an unknown color id *)

Lemma colorAgg_skips_unknown (cm : Map string Color) (l1 l2 : list InventoryPart)
    (ip : InventoryPart) (agg : Map string ColorAcc) :
  map_get String.eqb cm (ip_color_id ip) = None ->
  fold_left (colorAggStep cm) (l1 ++ ip :: l2) agg
  = fold_left (colorAggStep cm) (l1 ++ l2) agg.
Proof.
  intros Hnone. rewrite !fold_left_app. simpl.
  unfold colorAggStep at 2. now rewrite Hnone.
Qed.

Lemma partQuantity_middle (k : string) (l1 l2 : list InventoryPart) (ip : InventoryPart) :
  partQuantity k (l1 ++ ip :: l2) =
  (if String.eqb (ip_part_num ip) k then qtyOf ip else 0) + partQuantity k (l1 ++ l2).
Proof.
  unfold partQuantity. rewrite !filter_app, !sumBy_app. simpl.
  destruct (String.eqb (ip_part_num ip) k).
  - rewrite sumBy_cons. lia.
  - lia.
Qed.

(** C7. A row whose color id is not in the color map leaves color-stats as
    if the row were absent, while part-frequency counts it: the entry of its
    part number and the grand total of parts both include its quantity. *)
Theorem unknown_color_row (t : Tables) (l1 l2 : list InventoryPart) (ip : InventoryPart) :
  inventoryParts t = l1 ++ ip :: l2 ->
  map_get String.eqb (colorMap t) (ip_color_id ip) = None ->
  colorStats t = colorStats (withRows t (l1 ++ l2)) /\
  totalPieces t = totalPieces (withRows t (l1 ++ l2)) /\
  (exists e, In e (partFrequency t) /\
             pf_part_num e = ip_part_num ip /\
             pf_quantity e = qtyOf ip + partQuantity (ip_part_num ip) (l1 ++ l2)) /\
  totalPartsQuantity t = qtyOf ip + totalPartsQuantity (withRows t (l1 ++ l2)).
Proof.
  intros Hrows Hnone.
  assert (colorAgg t = colorAgg (withRows t (l1 ++ l2))) as Hagg.
  { unfold colorAgg. rewrite Hrows.
    change (colorMap (withRows t (l1 ++ l2))) with (colorMap t).
    change (inventoryParts (withRows t (l1 ++ l2))) with (l1 ++ l2).
    now apply colorAgg_skips_unknown. }
  split; [ | split; [ | split ] ].
  - unfold colorStats, totalPieces, sortedColors. now rewrite Hagg.
  - unfold totalPieces. now rewrite Hagg.
  - assert (In ip (inventoryParts t)) as Hin.
    { rewrite Hrows, in_app_iff. simpl. auto. }
    destruct (partFrequency_entry t ip Hin) as (e & He & Hn & Hq & _).
    exists e. split; [ exact He | split; [ exact Hn | ] ].
    rewrite Hq, Hrows, partQuantity_middle, String.eqb_refl. reflexivity.
  - rewrite !totalPartsQuantity_rows, Hrows.
    change (inventoryParts (withRows t (l1 ++ l2))) with (l1 ++ l2).
    rewrite !sumBy_app, sumBy_cons. lia.
Qed.

Lemma unknown_color_row_witness :
  colorStats strayColor = colorStats redBlue /\
  totalPieces strayColor = 400 /\
  (exists e, In e (partFrequency strayColor) /\
             pf_part_num e = "B"%string /\ pf_quantity e = 7 + 150) /\
  totalPartsQuantity strayColor = 7 + 400.
Proof.
  apply (unknown_color_row strayColor (inventoryParts redBlue) []
           (mkRow "1" "B" "9999" "7")).
  - reflexivity.
  - vm_compute. reflexivity.
Defined.

(** ** Rounding to a fixed number of decimals *)

Lemma pow10_pos (d : nat) : (0 < inject_Z (Zpos (JS.pow10 d)))%Q.
Proof. unfold Qlt. simpl. lia. Qed.

Lemma half_up_close (y : Q) (n : Z) :
  (inject_Z n <= y + (1 # 2))%Q -> (y + (1 # 2) < inject_Z (n + 1))%Q ->
  (Qabs (inject_Z n - y) <= 1 # 2)%Q.
Proof.
  intros Hlo Hhi. rewrite inject_Z_plus in Hhi.
  change (inject_Z 1) with 1%Q in Hhi.
  generalize dependent (inject_Z n). intros z Hlo Hhi.
  apply Qabs_case; intros _; lra.
Qed.

Lemma nearest_close (d : nat) (x : Q) :
  (Qabs ((JS.nearest d x # JS.pow10 d) - x) <= halfUlp d)%Q.
Proof.
  unfold JS.nearest, halfUlp.
  set (p := JS.pow10 d).
  pose proof (pow10_pos d) as Hp. fold p in Hp.
  assert (~ inject_Z (Zpos p) == 0)%Q as Hnz by lra.
  set (y := (x * inject_Z (Zpos p))%Q).
  pose proof (half_up_close y (Qfloor (y + (1 # 2))) (Qfloor_le _) (Qlt_floor _)) as Hc.
  set (n := Qfloor (y + (1 # 2))) in *.
  assert ((n # p) - x == (inject_Z n - y) / inject_Z (Zpos p))%Q as ->.
  { rewrite Qmake_Qdiv. unfold y. field. exact Hnz. }
  assert ((1 # 2 * p) == (1 # 2) / inject_Z (Zpos p))%Q as ->.
  { rewrite (Qmake_Qdiv 1 (2 * p)). change (Zpos (2 * p)) with (2 * Zpos p)%Z.
    rewrite inject_Z_mult. field. exact Hnz. }
  unfold Qdiv. rewrite Qabs_Qmult.
  rewrite (Qabs_pos (/ inject_Z (Zpos p))).
  - apply Qmult_le_compat_r; [ exact Hc | ].
    apply Qlt_le_weak, Qinv_lt_0_compat, Hp.
  - apply Qlt_le_weak, Qinv_lt_0_compat, Hp.
Qed.

Lemma toFixed_close (d : nat) (q : Q) :
  exists r, JS.toFixed d (JS.Num q) = JS.Num r /\ (Qabs (r - q) <= halfUlp d)%Q.
Proof.
  unfold JS.toFixed. destruct (Qle_bool 0 q).
  - eexists. split; [ reflexivity | ].
    rewrite Qred_correct. apply nearest_close.
  - eexists. split; [ reflexivity | ].
    rewrite Qred_correct.
    assert ((- JS.nearest d (- q) # JS.pow10 d) - q
            == - ((JS.nearest d (- q) # JS.pow10 d) - (- q)))%Q as ->.
    { change (- JS.nearest d (- q) # JS.pow10 d)%Q
        with (- (JS.nearest d (- q) # JS.pow10 d))%Q. ring. }
    rewrite Qabs_opp. apply nearest_close.
Qed.

Lemma percentOf_close (d : nat) (q total : Z) :
  total <> 0 ->
  exists r, percentOf d q total = JS.Num r /\
            (Qabs (r - exactPercent q total) <= halfUlp d)%Q.
Proof.
  intros Hnz. unfold percentOf, JS.div.
  destruct (Z.eqb_spec total 0) as [E|_]; [ contradiction | ].
  cbn [JS.times100]. apply toFixed_close.
Qed.

Lemma percentOf_whole (total : Z) : total <> 0 -> percentOf 4 total total = JS.Num 100.
Proof.
  intros Hnz. unfold percentOf, JS.div.
  destruct (Z.eqb_spec total 0) as [E|_]; [ contradiction | ].
  cbn [JS.times100].
  assert (inject_Z total / inject_Z total * 100 == 100)%Q as Hq.
  { field. intros E. apply Hnz. unfold Qeq in E. simpl in E. lia. }
  unfold JS.toFixed.
  assert (Qle_bool 0 (inject_Z total / inject_Z total * 100) = true) as ->.
  { apply Qle_bool_iff. rewrite Hq. discriminate. }
  unfold JS.nearest. rewrite Hq. reflexivity.
Qed.

Lemma inject_Z_nonzero (z : Z) : z <> 0 -> ~ (inject_Z z == 0)%Q.
Proof. intros Hnz E. apply Hnz. unfold Qeq in E. simpl in E. lia. Qed.

Lemma exactPercent_add (a b total : Z) :
  total <> 0 ->
  (exactPercent (a + b) total == exactPercent a total + exactPercent b total)%Q.
Proof.
  intros Hnz. unfold exactPercent. rewrite inject_Z_plus. field.
  now apply inject_Z_nonzero.
Qed.

Lemma exactPercent_zero (total : Z) : (exactPercent 0 total == 0)%Q.
Proof. unfold exactPercent, Qdiv. change (inject_Z 0) with 0%Q. ring. Qed.

Lemma exactPercent_whole (total : Z) : total <> 0 -> (exactPercent total total == 100)%Q.
Proof. intros Hnz. unfold exactPercent. field. now apply inject_Z_nonzero. Qed.

(** The rounded percents of a list add up to the exact percentage of the
    summed quantity, up to half a unit in the last place per item. *)
Lemma percent_sum_close {A : Type} (quantity : A -> Z) (d : nat) (total : Z)
    (l : list A) (a : Q) :
  total <> 0 ->
  exists s,
    fold_left JS.add (map (fun c => percentOf d (quantity c) total) l) (JS.Num a)
    = JS.Num s /\
    (Qabs (s - (a + exactPercent (sumBy quantity l) total))
     <= inject_Z (Z.of_nat (List.length l)) * halfUlp d)%Q.
Proof.
  intros Hnz. revert a. induction l as [|c l IH]; intros a.
  - exists a. split; [ reflexivity | ].
    rewrite sumBy_nil, exactPercent_zero. simpl List.length.
    change (inject_Z (Z.of_nat 0)) with 0%Q.
    apply Qabs_Qle_condition. split; lra.
  - destruct (percentOf_close d (quantity c) total Hnz) as (r & Hr & Hclose).
    destruct (IH (a + r)%Q) as (s & Hs & Hsum).
    exists s. split.
    + cbn [map fold_left]. rewrite Hr. exact Hs.
    + rewrite sumBy_cons, exactPercent_add by exact Hnz.
      simpl List.length. rewrite Nat2Z.inj_succ. unfold Z.succ.
      rewrite inject_Z_plus. change (inject_Z 1) with 1%Q.
      apply Qabs_Qle_condition in Hclose, Hsum. apply Qabs_Qle_condition.
      generalize dependent (exactPercent (quantity c) total).
      generalize dependent (exactPercent (sumBy quantity l) total).
      generalize dependent (inject_Z (Z.of_nat (List.length l))).
      generalize dependent (halfUlp d). intros. split; lra.
Qed.

(** ** The percent invariant of color stats and part frequency *)

Lemma colorStatsFrom_percents (total : Z) (l : list ColorAcc) (index : nat) (cum : Z) :
  map cs_percent (colorStatsFrom total index cum l)
  = map (fun c => percentOf 4 (ca_quantity c) total) l.
Proof.
  revert index cum. induction l as [|c l IH]; intros index cum; simpl.
  - reflexivity.
  - now rewrite IH.
Qed.

Lemma colorStatsFrom_last (total : Z) (l : list ColorAcc) (index : nat) (cum : Z) :
  l <> [] ->
  option_map cs_cumulative_percent (lastOf (colorStatsFrom total index cum l))
  = Some (percentOf 4 (cum + sumBy ca_quantity l) total).
Proof.
  revert index cum. induction l as [|c l IH]; intros index cum Hne; [ congruence | ].
  destruct l as [|c' l].
  - simpl. rewrite sumBy_cons, sumBy_nil. do 2 f_equal. lia.
  - rewrite sumBy_cons.
    replace (cum + (ca_quantity c + sumBy ca_quantity (c' :: l)))
      with ((cum + ca_quantity c) + sumBy ca_quantity (c' :: l)) by lia.
    rewrite <- (IH (S index) (cum + ca_quantity c)) by discriminate.
    reflexivity.
Qed.

Lemma partFrequencyFrom_percents (pm : Map string Part) (total : Z) (l : list PartAcc)
    (index : nat) (cum : Z) :
  map pf_percent (partFrequencyFrom pm total index cum l)
  = map (fun p => percentOf 4 (pa_quantity p) total) l.
Proof.
  revert index cum. induction l as [|p l IH]; intros index cum; simpl.
  - reflexivity.
  - now rewrite IH.
Qed.

Lemma partFrequencyFrom_last (pm : Map string Part) (total : Z) (l : list PartAcc)
    (index : nat) (cum : Z) :
  l <> [] ->
  option_map pf_cumulative_percent (lastOf (partFrequencyFrom pm total index cum l))
  = Some (percentOf 4 (cum + sumBy pa_quantity l) total).
Proof.
  revert index cum. induction l as [|p l IH]; intros index cum Hne; [ congruence | ].
  destruct l as [|p' l].
  - simpl. rewrite sumBy_cons, sumBy_nil. do 2 f_equal. lia.
  - rewrite sumBy_cons.
    replace (cum + (pa_quantity p + sumBy pa_quantity (p' :: l)))
      with ((cum + pa_quantity p) + sumBy pa_quantity (p' :: l)) by lia.
    rewrite <- (IH (S index) (cum + pa_quantity p)) by discriminate.
    reflexivity.
Qed.

Lemma halfUlp_200 (n : nat) :
  (n <= 200)%nat -> (inject_Z (Z.of_nat n) * halfUlp 4 <= 1 # 100)%Q.
Proof.
  intros Hn. unfold halfUlp. change (2 * JS.pow10 4)%positive with 20000%positive.
  unfold Qle, Qmult, inject_Z. cbn [Qnum Qden]. lia.
Qed.

(** The invariant for any list of quantities that adds up to a non-zero
    [total]. *)
Lemma percents_add_up {A : Type} (quantity : A -> Z) (total : Z) (l : list A) :
  total <> 0 -> sumBy quantity l = total ->
  percentsAddUp (map (fun c => percentOf 4 (quantity c) total) l)
                (Some (percentOf 4 (0 + sumBy quantity l) total)).
Proof.
  intros Hnz Hsum. split.
  - rewrite Hsum. simpl. now rewrite percentOf_whole.
  - destruct (percent_sum_close quantity 4 total l 0 Hnz) as (s & Hs & Hclose).
    exists s. split; [ exact Hs | ].
    rewrite Hsum, exactPercent_whole in Hclose by exact Hnz.
    rewrite length_map.
    assert (Qabs (s - 100) <= inject_Z (Z.of_nat (List.length l)) * halfUlp 4)%Q as Hb.
    { assert (s - 100 == s - (0 + 100))%Q as -> by ring. exact Hclose. }
    split; [ exact Hb | ].
    intros Hn. eapply Qle_trans; [ exact Hb | now apply halfUlp_200 ].
Qed.

Lemma sumBy_nonzero_nonempty {A : Type} (f : A -> Z) (l : list A) :
  sumBy f l <> 0 -> l <> [].
Proof. intros Hs ->. now apply Hs. Qed.

(** C1, as the code has it. When the grand total is positive, the last
    cumulative_percent of color stats and of part frequency is exactly 100,
    and the percent values add up to 100 within 0.00005 per item: within 0.01
    for lists of at most 200 items. *)
Theorem percent_totals (t : Tables) :
  (0 < totalPieces t ->
   percentsAddUp (map cs_percent (colorStats t))
                 (option_map cs_cumulative_percent (lastOf (colorStats t)))) /\
  (0 < totalPartsQuantity t ->
   percentsAddUp (map pf_percent (partFrequency t))
                 (option_map pf_cumulative_percent (lastOf (partFrequency t)))).
Proof.
  split; intros Hpos.
  - assert (sumBy ca_quantity (sortedColors t) = totalPieces t) as Hsum.
    { unfold sortedColors, totalPieces. apply sumBy_perm, sort_perm. }
    unfold colorStats.
    rewrite colorStatsFrom_percents, colorStatsFrom_last.
    + apply percents_add_up; [ lia | exact Hsum ].
    + apply (sumBy_nonzero_nonempty ca_quantity). lia.
  - unfold partFrequency.
    rewrite partFrequencyFrom_percents, partFrequencyFrom_last.
    + apply percents_add_up; [ lia | reflexivity ].
    + apply (sumBy_nonzero_nonempty pa_quantity). unfold totalPartsQuantity in Hpos. lia.
Qed.

Lemma percent_totals_witness :
  percentsAddUp (map cs_percent (colorStats redBlue))
                (option_map cs_cumulative_percent (lastOf (colorStats redBlue))) /\
  percentsAddUp (map pf_percent (partFrequency redBlue))
                (option_map pf_cumulative_percent (lastOf (partFrequency redBlue))).
Proof.
  destruct (percent_totals redBlue) as [Hcolors Hparts].
  split; [ apply Hcolors | apply Hparts ]; reflexivity.
Defined.

(** C1 as stated fails: 700 parts of one piece each have a percent of 0.1429
    each, and these add up to 100.03. *)
Lemma percent_sum_off :
  0 < totalPartsQuantity manyParts /\
  partFrequency manyParts <> [] /\
  exists s,
    sumNumbers (map pf_percent (partFrequency manyParts)) = JS.Num s /\
    (s == 10003 # 100)%Q /\
    ~ (Qabs (s - 100) <= 1 # 100)%Q.
Proof.
  split; [ vm_compute; reflexivity | ].
  split; [ vm_compute; discriminate | ].
  eexists. split; [ vm_compute; reflexivity | ].
  split; [ vm_compute; reflexivity | ].
  vm_compute. intros Hle. now apply Hle.
Qed.

(** ** Decade colors *)

Lemma fold_left_inv_In {A B : Type} (P : A -> Prop) (f : A -> B -> A) (l : list B) (a : A) :
  P a -> (forall a b, In b l -> P a -> P (f a b)) -> P (fold_left f l a).
Proof.
  revert a. induction l as [|b l IH]; intros a Ha Hstep; simpl; [ exact Ha | ].
  apply IH.
  - apply Hstep; [ now left | exact Ha ].
  - intros a' b' Hin. apply Hstep. now right.
Qed.

Lemma colorAggStep_nonNegative (cm : Map string Color) (agg : Map string ColorAcc)
    (ip : InventoryPart) :
  0 <= qtyOf ip -> nonNegative agg -> nonNegative (colorAggStep cm agg ip).
Proof.
  intros Hq Hagg. unfold colorAggStep.
  destruct (map_get String.eqb cm (ip_color_id ip)) as [color|]; [ | exact Hagg ].
  destruct (map_get String.eqb agg (colorKey color)) as [existing|] eqn:G.
  - apply (Forall_map_set String.eqb (fun c => 0 <= ca_quantity c)); [ exact Hagg | ].
    simpl. apply (map_get_In String.eqb Seqb_eq) in G.
    pose proof (proj1 (Forall_forall _ _) Hagg _ G) as Hex. simpl in Hex. lia.
  - apply (Forall_map_set String.eqb (fun c => 0 <= ca_quantity c)); [ exact Hagg | ].
    exact Hq.
Qed.

Lemma decadeColorData_nonNegative (t : Tables) (d : Decade) :
  (forall ip, In ip (inventoryParts t) -> 0 <= qtyOf ip) ->
  Forall (fun c => 0 <= ca_quantity c) (decadeColorData t d).
Proof.
  intros Hrows.
  assert (Forall (fun e => nonNegative (snd e)) (decadeColorAgg t)) as Hall.
  { unfold decadeColorAgg. apply fold_left_inv_In.
    - unfold decadeAggInit. simpl. repeat constructor.
    - intros agg ip Hin Hagg. unfold decadeAggStep.
      destruct (resolveYear t ip) as [[setNum year]|]; [ | exact Hagg ].
      destruct (decadeOf year) as [decadeInfo|]; [ | exact Hagg ].
      destruct (map_get String.eqb agg (decade decadeInfo)) as [inner|] eqn:G;
        [ | exact Hagg ].
      apply (Forall_map_set String.eqb nonNegative); [ exact Hagg | ].
      apply colorAggStep_nonNegative; [ now apply Hrows | ].
      apply (map_get_In String.eqb Seqb_eq) in G.
      exact (proj1 (Forall_forall _ _) Hagg _ G). }
  unfold decadeColorData.
  destruct (map_get String.eqb (decadeColorAgg t) (decade d)) as [inner|] eqn:G;
    [ | constructor ].
  apply (map_get_In String.eqb Seqb_eq) in G.
  pose proof (proj1 (Forall_forall _ _) Hall _ G) as Hin. simpl in Hin.
  unfold map_values. apply Forall_map. exact Hin.
Qed.

Lemma firstn_sum_le {A : Type} (f : A -> Z) (n : nat) (l : list A) :
  Forall (fun x => 0 <= f x) l -> 0 <= sumBy f (firstn n l) <= sumBy f l.
Proof.
  intros Hl. revert n. induction Hl as [|x l Hx _ IH]; intros n.
  - rewrite firstn_nil, sumBy_nil. lia.
  - destruct n as [|n]; cbn [firstn]; rewrite ?sumBy_cons, ?sumBy_nil.
    + specialize (IH 0%nat). cbn [firstn] in IH. rewrite sumBy_nil in IH. lia.
    + specialize (IH n). lia.
Qed.

Lemma exactPercent_le_100 (a total : Z) :
  0 <= a <= total -> 0 < total -> (exactPercent a total <= 100)%Q.
Proof.
  intros Ha Ht. unfold exactPercent.
  assert (0 < inject_Z total)%Q as Hp by (unfold Qlt; simpl; lia).
  assert (inject_Z a / inject_Z total <= 1)%Q as Hle.
  { apply Qle_shift_div_r; [ exact Hp | ].
    rewrite Qmult_1_l. rewrite <- Zle_Qle. lia. }
  generalize dependent (inject_Z a / inject_Z total)%Q. intros. lra.
Qed.

Lemma decadeEntry_colors (t : Tables) (d : Decade) :
  dcs_decade (decadeEntry t d) = decade d /\
  dcs_colors (decadeEntry t d) =
    if decadeTotal t d =? 0 then []
    else map (fun c => {| dc_name := ca_name c; dc_color := ca_color c;
                          dc_percent := percentOf 2 (ca_quantity c) (decadeTotal t d) |})
             (decadeListed t d).
Proof.
  unfold decadeEntry. fold (decadeTotal t d).
  destruct (decadeTotal t d =? 0); split; reflexivity.
Qed.

Lemma decadeListed_nonempty (t : Tables) (d : Decade) :
  decadeTotal t d <> 0 -> decadeListed t d <> [].
Proof.
  intros Hnz. unfold decadeListed.
  apply sumBy_nonzero_nonempty in Hnz.
  assert (List.length (sort (byQuantityDesc ca_quantity) (decadeColorData t d)) <> 0%nat) as Hl.
  { rewrite sort_length. destruct (decadeColorData t d); [ congruence | discriminate ]. }
  destruct (sort (byQuantityDesc ca_quantity) (decadeColorData t d)); [ now simpl in Hl | ].
  discriminate.
Qed.

(** Which decades are emitted: those with a non-zero total, in order. *)
Lemma decadeColors_emitted (t : Tables) :
  map dcs_decade (decadeColors t)
  = map decade (filter (fun d => negb (decadeTotal t d =? 0)) decades).
Proof.
  unfold decadeColors. induction decades as [|d l IH]; [ reflexivity | ].
  cbn [map filter].
  destruct (decadeEntry_colors t d) as [Hd Hc]. rewrite Hc.
  destruct (Z.eqb_spec (decadeTotal t d) 0) as [E|E]; cbn [negb].
  - simpl. exact IH.
  - pose proof (decadeListed_nonempty t d E) as Hne.
    destruct (decadeListed t d) as [|c rest]; [ congruence | ].
    cbn [map List.length Nat.ltb Nat.leb]. cbn [map]. rewrite Hd. f_equal. exact IH.
Qed.

Lemma halfUlp_10 (n : nat) :
  (n <= 10)%nat -> (inject_Z (Z.of_nat n) * halfUlp 2 <= 5 # 100)%Q.
Proof.
  intros Hn. unfold halfUlp. change (2 * JS.pow10 2)%positive with 200%positive.
  unfold Qle, Qmult, inject_Z. cbn [Qnum Qden]. lia.
Qed.

(** C9, as the code has it. The decade-colors output lists exactly the
    decades whose total matched quantity is not 0, in order; each emitted
    decade lists at most 10 colors, each with its percent of the decade's
    total rounded to 2 decimals; the listed percents add up to the exact share
    of the listed colors within 0.005 per color: within 0.05 of 100 when the
    decade has at most 10 colors, and at most 100.05 when no quantity is
    negative. *)
Theorem decade_colors_shares (t : Tables) :
  map dcs_decade (decadeColors t)
  = map decade (filter (fun d => negb (decadeTotal t d =? 0)) decades) /\
  forall e, In e (decadeColors t) -> decadeShares t e.
Proof.
  split; [ apply decadeColors_emitted | ].
  intros e He. unfold decadeColors in He.
  apply filter_In in He. destruct He as [He Hlen].
  apply in_map_iff in He. destruct He as (d & <- & Hd).
  destruct (decadeEntry_colors t d) as [Hname Hcolors].
  exists d. split; [ exact Hd | split; [ exact Hname | ] ].
  rewrite Hcolors in Hlen |- *.
  destruct (Z.eqb_spec (decadeTotal t d) 0) as [E|E]; [ discriminate | ].
  split; [ exact E | ].
  assert (List.length (decadeListed t d) <= 10)%nat as Hten.
  { unfold decadeListed. rewrite length_firstn. lia. }
  split; [ now rewrite length_map | split; [ reflexivity | ] ].
  destruct (percent_sum_close ca_quantity 2 (decadeTotal t d) (decadeListed t d) 0 E)
    as (s & Hs & Hclose).
  assert (Qabs (s - exactPercent (sumBy ca_quantity (decadeListed t d)) (decadeTotal t d))
          <= inject_Z (Z.of_nat (List.length (decadeListed t d))) * halfUlp 2)%Q as Hb.
  { assert (forall x, s - x == s - (0 + x))%Q as Hx by (intros; ring).
    rewrite Hx. exact Hclose. }
  pose proof (halfUlp_10 _ Hten) as Hk.
  assert (sumBy ca_quantity (sort (byQuantityDesc ca_quantity) (decadeColorData t d))
          = decadeTotal t d) as Hall.
  { apply sumBy_perm, sort_perm. }
  exists s. split; [ | split; [ | split ] ].
  - unfold sumNumbers. rewrite map_map. exact Hs.
  - rewrite length_map. exact Hb.
  - intros Hfew.
    assert (decadeListed t d = sort (byQuantityDesc ca_quantity) (decadeColorData t d))
      as Hlisted.
    { unfold decadeListed. apply firstn_all2. now rewrite sort_length. }
    rewrite Hlisted, Hall, exactPercent_whole in Hb by exact E.
    rewrite <- Hlisted in Hb.
    eapply Qle_trans; [ exact Hb | exact Hk ].
  - intros Hrows.
    pose proof (decadeColorData_nonNegative t d Hrows) as Hnn.
    assert (Forall (fun c => 0 <= ca_quantity c)
                   (sort (byQuantityDesc ca_quantity) (decadeColorData t d))) as Hsorted.
    { apply Forall_forall. intros c Hc. apply sort_In in Hc.
      exact (proj1 (Forall_forall _ _) Hnn c Hc). }
    pose proof (firstn_sum_le ca_quantity 10 _ Hsorted) as Hsum.
    fold (decadeListed t d) in Hsum. rewrite Hall in Hsum.
    assert (exactPercent (sumBy ca_quantity (decadeListed t d)) (decadeTotal t d) <= 100)%Q
      as Hexact by (apply exactPercent_le_100; lia).
    apply Qabs_Qle_condition in Hb.
    generalize dependent (exactPercent (sumBy ca_quantity (decadeListed t d)) (decadeTotal t d)).
    generalize dependent (inject_Z (Z.of_nat (List.length (decadeListed t d))) * halfUlp 2)%Q.
    intros. lra.
Qed.

Lemma decade_colors_shares_witness :
  decadeShares twoDecades
    {| dcs_decade := "1990s";
       dcs_colors :=
         [ {| dc_name := "Black"; dc_color := "#05131D"; dc_percent := JS.Num (1667 # 100) |};
           {| dc_name := "Blue"; dc_color := "#0055BF"; dc_percent := JS.Num (1667 # 100) |};
           {| dc_name := "Green"; dc_color := "#237841"; dc_percent := JS.Num (1667 # 100) |};
           {| dc_name := "Red"; dc_color := "#C91A09"; dc_percent := JS.Num (1667 # 100) |};
           {| dc_name := "Yellow"; dc_color := "#F2CD37"; dc_percent := JS.Num (1667 # 100) |};
           {| dc_name := "White"; dc_color := "#FFFFFF"; dc_percent := JS.Num (1667 # 100) |} ] |}.
Proof.
  apply (proj2 (decade_colors_shares twoDecades)).
  vm_compute. tauto.
Defined.

(** C9 as stated fails: six colors of equal quantity are listed at 16.67
    percent each, 100.02 in all; three colors of equal quantity at 33.33
    each, 99.99 in all although the decade has only three colors. *)
Lemma decade_percents_off :
  exists e1 e2 s1 s2,
    decadeColors twoDecades = [e1; e2] /\
    List.length (dcs_colors e1) = 6%nat /\
    sumNumbers (map dc_percent (dcs_colors e1)) = JS.Num s1 /\
    (s1 == 10002 # 100)%Q /\ ~ (s1 <= 100)%Q /\
    List.length (dcs_colors e2) = 3%nat /\
    List.length (decadeColorData twoDecades
                   {| decade := "2010s"; startYear := 2010; endYear := 2019 |}) = 3%nat /\
    sumNumbers (map dc_percent (dcs_colors e2)) = JS.Num s2 /\
    (s2 == 9999 # 100)%Q /\ (s2 < 100)%Q.
Proof.
  do 4 eexists.
  split; [ vm_compute; reflexivity | ].
  split; [ reflexivity | ].
  split; [ vm_compute; reflexivity | ].
  split; [ vm_compute; reflexivity | ].
  split; [ vm_compute; intros Hle; now apply Hle | ].
  split; [ reflexivity | ].
  split; [ vm_compute; reflexivity | ].
  split; [ vm_compute; reflexivity | ].
  split; vm_compute; reflexivity.
Qed.

(** ** A grand total of zero *)

(** In the period path a total that is not positive gives 0 for every
    percent and cumulative percent. *)
Lemma periodItemsFrom_zero {A : Type} (name : A -> string) (quantity : A -> Z)
    (total : Z) (l : list A) (index : nat) (cum : Z) :
  total <= 0 ->
  Forall (fun p => pi_percent p = JS.Num 0 /\ pi_cumulative_percent p = JS.Num 0)
         (periodItemsFrom name quantity total index cum l).
Proof.
  intros Hz. revert index cum. induction l as [|x l IH]; intros index cum; simpl.
  - constructor.
  - constructor; [ | apply IH ].
    unfold guardedPercent. destruct (Z.ltb_spec 0 total); [ lia | ]. now split.
Qed.

Lemma periodCoverage_zero_total (t : Tables) (skipYear : Z -> bool) :
  (periodPartsTotal t skipYear <= 0 ->
   Forall (fun p => pi_percent p = JS.Num 0 /\ pi_cumulative_percent p = JS.Num 0)
          (periodPartFrequency t skipYear)) /\
  (periodColorsTotal t skipYear <= 0 ->
   Forall (fun p => pi_percent p = JS.Num 0 /\ pi_cumulative_percent p = JS.Num 0)
          (periodColorStats t skipYear)).
Proof.
  split; intros Hz; now apply periodItemsFrom_zero.
Qed.

(** Without rows every aggregate is empty. *)
Lemma empty_input_empty_aggregates (t : Tables) :
  inventoryParts t = [] ->
  colorStats t = [] /\ partFrequency t = [] /\ inventoryYearTrends t = [] /\
  decadeColors t = [].
Proof.
  intros Hrows.
  unfold colorStats, partFrequency, inventoryYearTrends, decadeColors.
  unfold sortedColors, sortedParts, totalPieces, totalPartsQuantity, sortedParts.
  unfold decadeEntry, decadeColorData, decadeColorAgg.
  unfold colorAgg, partAgg, yearAgg. rewrite Hrows. repeat split.
Qed.

(** C5 at the input [zeroQuantity]: the grand totals are 0 and the lists are
    not empty; color stats and part frequency carry NaN for percent and
    cumulative_percent, while the period path gives 0 for the same rows. *)
Theorem zero_total_gives_NaN :
  totalPieces zeroQuantity = 0 /\
  totalPartsQuantity zeroQuantity = 0 /\
  colorStats zeroQuantity
  = [ {| cs_name := "Red"; cs_color := "#C91A09"; cs_quantity := 0;
         cs_percent := JS.NaN; cs_rank := 1; cs_cumulative_percent := JS.NaN |} ] /\
  partFrequency zeroQuantity
  = [ {| pf_part_num := "3001"; pf_name := "Brick 2 x 4"; pf_quantity := 0;
         pf_image := ""; pf_rank := 1; pf_percent := JS.NaN;
         pf_cumulative_percent := JS.NaN |} ] /\
  periodColorStats zeroQuantity (fun year => year <? 2020)
  = [ {| pi_name := "Red"; pi_percent := JS.Num 0; pi_cumulative_percent := JS.Num 0;
         pi_rank := 1; pi_quantity := 0 |} ].
Proof. repeat split. Qed.

(** ** The curve sampler *)

Section SortedFacts.
Context {A : Type} (key : A -> nat).

Let before (y x : A) : bool := (key y <? key x)%nat.
Let ascending (a b : A) : Prop := (key a <= key b)%nat.

Lemma insert_ascending (x : A) (l : list A) :
  StronglySorted ascending l -> StronglySorted ascending (insert before x l).
Proof.
  induction 1 as [|y l Hl IH Hy]; simpl.
  - repeat constructor.
  - unfold before at 1. destruct (Nat.ltb_spec (key y) (key x)) as [Hlt|Hge].
    + constructor; [ exact IH | ].
      apply Forall_forall. intros z Hz.
      apply (Permutation_in _ (insert_perm before x l)) in Hz.
      destruct Hz as [<- | Hz].
      * unfold ascending. lia.
      * exact (proj1 (Forall_forall _ _) Hy z Hz).
    + constructor; [ constructor; assumption | ].
      constructor; [ exact Hge | ].
      eapply Forall_impl; [ | exact Hy ].
      unfold ascending. intros z Hz. lia.
Qed.

Lemma sort_ascending (l : list A) : StronglySorted ascending (sort before l).
Proof.
  induction l as [|x l IH]; simpl; [ constructor | now apply insert_ascending ].
Qed.

Lemma ascending_strict (l : list A) :
  StronglySorted ascending l -> NoDup (map key l) ->
  StronglySorted (fun a b => (key a < key b)%nat) l.
Proof.
  induction 1 as [|y l Hl IH Hy]; intros Hnd; [ constructor | ].
  simpl in Hnd. inversion Hnd as [|k ks Hnotin Hnd']; subst.
  constructor; [ now apply IH | ].
  apply Forall_forall. intros z Hz.
  pose proof (proj1 (Forall_forall _ _) Hy z Hz) as Hle. unfold ascending in Hle.
  assert (key z <> key y).
  { intros E. apply Hnotin. rewrite <- E. now apply in_map. }
  lia.
Qed.
End SortedFacts.

Lemma Neqb_eq (a b : nat) : Nat.eqb a b = true <-> a = b.
Proof. apply Nat.eqb_eq. Qed.

Lemma NoDup_map_injective {A B : Type} (f : A -> B) (l : list A) (x y : A) :
  NoDup (map f l) -> In x l -> In y l -> f x = f y -> x = y.
Proof.
  induction l as [|a l IH]; simpl; [ tauto | ].
  intros Hnd Hx Hy Hf. inversion Hnd as [|b bs Hnotin Hnd']; subst.
  destruct Hx as [-> | Hx], Hy as [-> | Hy]; auto.
  - exfalso. apply Hnotin. rewrite Hf. now apply in_map.
  - exfalso. apply Hnotin. rewrite <- Hf. now apply in_map.
Qed.

Lemma last_In {A : Type} (l : list A) (d : A) : l <> [] -> In (List.last l d) l.
Proof.
  induction l as [|a l IH]; [ congruence | ]. intros _.
  destruct l as [|b l]; [ now left | ].
  right. apply IH. discriminate.
Qed.

Section SamplerFacts.
Context {T : Type}.
Variable logRankRound : nat -> nat -> nat -> Z.
Variable rankOf : T -> nat.

Lemma sampleStep_inv (data : list T) (d0 : T) (maxPoints : nat)
    (st : list T * list nat) (i : nat) :
  data <> [] -> sampledInv rankOf data st ->
  sampledInv rankOf data (sampleStep logRankRound rankOf data d0 maxPoints st i).
Proof.
  intros Hne (Hseen & Hnd & Hincl). destruct st as [sampled seenRanks].
  simpl in Hseen, Hnd, Hincl. unfold sampleStep.
  set (rank := Z.max 1 (logRankRound i maxPoints (List.length data))).
  set (idx := Z.to_nat (Z.min (rank - 1) (Z.of_nat (List.length data) - 1))).
  set (point := nth idx data d0).
  assert (In point data) as Hpoint.
  { apply nth_In. destruct data as [|a data]; [ congruence | ].
    unfold idx. simpl List.length. lia. }
  destruct (set_has Nat.eqb seenRanks (rankOf point)) eqn:E.
  - split; [ exact Hseen | split; [ exact Hnd | exact Hincl ] ].
  - assert (~ In (rankOf point) (map rankOf sampled)) as Hnew.
    { intros Hin. apply Hseen in Hin. apply (set_has_In Nat.eqb Neqb_eq) in Hin.
      congruence. }
    split; [ | split ]; simpl.
    + intros r. rewrite (set_add_In Nat.eqb Neqb_eq), map_app, in_app_iff, Hseen.
      simpl. intuition congruence.
    + rewrite map_app. apply NoDup_app; [ exact Hnd | repeat constructor; simpl; tauto | ].
      intros r Hr [<- | []]. contradiction.
    + intros x Hx. apply in_app_or in Hx. destruct Hx as [Hx | [<- | []]].
      * now apply Hincl.
      * exact Hpoint.
Qed.

Lemma sampleStep_length (data : list T) (d0 : T) (maxPoints : nat)
    (st : list T * list nat) (i : nat) :
  (List.length (fst (sampleStep logRankRound rankOf data d0 maxPoints st i))
   <= S (List.length (fst st)))%nat.
Proof.
  destruct st as [sampled seenRanks]. unfold sampleStep.
  destruct (set_has Nat.eqb seenRanks _); simpl.
  - lia.
  - rewrite length_app. simpl. lia.
Qed.

Lemma sampleLoop_length (data : list T) (d0 : T) (maxPoints : nat)
    (l : list nat) (st : list T * list nat) :
  (List.length (fst (fold_left (sampleStep logRankRound rankOf data d0 maxPoints) l st))
   <= List.length (fst st) + List.length l)%nat.
Proof.
  revert st. induction l as [|i l IH]; intros st; simpl; [ lia | ].
  specialize (IH (sampleStep logRankRound rankOf data d0 maxPoints st i)).
  pose proof (sampleStep_length data d0 maxPoints st i). lia.
Qed.

Lemma sampleCurvePoints_span (data : list T) (maxPoints : nat) :
  ((List.length data <= maxPoints)%nat ->
   sampleCurvePoints logRankRound rankOf data maxPoints = data) /\
  ((maxPoints < List.length data)%nat -> (2 <= List.length data)%nat ->
   NoDup (map rankOf data) ->
   forall first, hd_error data = Some first ->
     let out := sampleCurvePoints logRankRound rankOf data maxPoints in
     In first out /\ In (List.last data first) out /\
     NoDup (map rankOf out) /\
     (List.length out <= maxPoints + 2)%nat /\
     StronglySorted (fun a b => (rankOf a < rankOf b)%nat) out /\
     incl out data).
Proof.
  split.
  - intros Hle. unfold sampleCurvePoints.
    destruct (Nat.leb_spec (List.length data) maxPoints); [ reflexivity | lia ].
  - intros Hlt Htwo Hnd first Hfirst.
    destruct data as [|d0 rest]; [ discriminate | ].
    simpl in Hfirst. injection Hfirst as ->.
    cbv zeta. unfold sampleCurvePoints.
    destruct (Nat.leb_spec (List.length (first :: rest)) maxPoints); [ lia | ].
    set (data := first :: rest) in *.
    set (lastPoint := List.last data first).
    pose proof (fold_left_inv (sampledInv rankOf data)
                  (sampleStep logRankRound rankOf data first maxPoints)
                  (seq 0 maxPoints) ([], [])) as Hinv.
    pose proof (sampleLoop_length data first maxPoints (seq 0 maxPoints) ([], []))
      as Hlen.
    destruct (fold_left (sampleStep logRankRound rankOf data first maxPoints)
                (seq 0 maxPoints) ([], [])) as [sampled seenRanks].
    simpl in Hlen. rewrite length_seq in Hlen.
    destruct Hinv as (Hseen & Hnds & Hincl).
    { split; [ simpl; tauto | split; [ constructor | intros x [] ] ]. }
    { intros st i. apply sampleStep_inv. discriminate. }
    simpl in Hseen, Hnds, Hincl.
    assert (In first data) as Hfirst_in by now left.
    assert (In lastPoint data) as Hlast_in by (apply last_In; discriminate).
    assert (rankOf lastPoint <> rankOf first) as Hdiff.
    { unfold lastPoint, data. destruct rest as [|b rest']; [ simpl in Htwo; lia | ].
      change (List.last (first :: b :: rest') first)
        with (List.last (b :: rest') first).
      assert (In (List.last (b :: rest') first) (b :: rest')) as Hin
        by (apply last_In; discriminate).
      unfold data in Hnd. simpl in Hnd. inversion Hnd as [|k ks Hnotin _]; subst.
      intros E. apply Hnotin. rewrite <- E.
      now apply (in_map rankOf) in Hin. }
    set (sampled1 := if set_has Nat.eqb seenRanks (rankOf first)
                     then sampled else first :: sampled).
    set (sampled2 := if set_has Nat.eqb seenRanks (rankOf lastPoint)
                     then sampled1 else sampled1 ++ [lastPoint]).
    assert (In first sampled1 /\ NoDup (map rankOf sampled1) /\ incl sampled1 data /\
            (List.length sampled1 <= S (List.length sampled))%nat /\
            (forall x, In x sampled -> In x sampled1) /\
            (forall x, In x sampled1 -> x = first \/ In x sampled)) as H1.
    { unfold sampled1. destruct (set_has Nat.eqb seenRanks (rankOf first)) eqn:E.
      - apply (set_has_In Nat.eqb Neqb_eq), Hseen, in_map_iff in E.
        destruct E as (x & Hx & Hin).
        assert (x = first) as ->.
        { apply (NoDup_map_injective rankOf data); auto. }
        repeat split; auto.
      - assert (~ In (rankOf first) (map rankOf sampled)) as Hnew.
        { intros Hin. apply Hseen, (set_has_In Nat.eqb Neqb_eq) in Hin. congruence. }
        repeat split; simpl; auto.
        + constructor; assumption.
        + intros x [<- | Hx]; auto.
        + intros x [<- | Hx]; auto. }
    destruct H1 as (Hin1 & Hnd1 & Hincl1 & Hlen1 & Hsub1 & Hsup1).
    assert (In first sampled2 /\ In lastPoint sampled2 /\ NoDup (map rankOf sampled2) /\
            incl sampled2 data /\ (List.length sampled2 <= S (List.length sampled1))%nat)
      as H2.
    { unfold sampled2. destruct (set_has Nat.eqb seenRanks (rankOf lastPoint)) eqn:E.
      - apply (set_has_In Nat.eqb Neqb_eq), Hseen, in_map_iff in E.
        destruct E as (x & Hx & Hin).
        assert (x = lastPoint) as ->.
        { apply (NoDup_map_injective rankOf data); auto. }
        repeat split; auto.
      - assert (~ In (rankOf lastPoint) (map rankOf sampled)) as Hnew.
        { intros Hin. apply Hseen, (set_has_In Nat.eqb Neqb_eq) in Hin. congruence. }
        split; [ apply in_or_app; now left | ].
        split; [ apply in_or_app; right; now left | ].
        split; [ | split ].
        + rewrite map_app. apply NoDup_app; [ exact Hnd1 | repeat constructor; simpl; tauto | ].
          intros r Hr [<- | []]. apply in_map_iff in Hr. destruct Hr as (x & Hx & Hin).
          destruct (Hsup1 x Hin) as [-> | Hs].
          * now apply Hdiff.
          * apply Hnew. rewrite <- Hx. now apply in_map.
        + intros x Hx. apply in_app_or in Hx. destruct Hx as [Hx | [<- | []]]; auto.
        + rewrite length_app. simpl. lia. }
    destruct H2 as (Hin2 & Hlast2 & Hnd2 & Hincl2 & Hlen2).
    set (byRank := fun y x : T => (rankOf y <? rankOf x)%nat).
    pose proof (sort_perm byRank sampled2) as Hperm.
    assert (NoDup (map rankOf (sort byRank sampled2))) as Hnd_out.
    { eapply Permutation_NoDup; [ | exact Hnd2 ].
      apply Permutation_map. symmetry. exact Hperm. }
    split; [ apply sort_In; exact Hin2 | ].
    split; [ apply sort_In; exact Hlast2 | ].
    split; [ exact Hnd_out | ].
    split; [ rewrite sort_length; lia | ].
    split.
    + apply ascending_strict; [ apply sort_ascending | exact Hnd_out ].
    + intros x Hx. apply sort_In in Hx. now apply Hincl2.
Qed.

(** X25. The contract of the sampler away from the one-point corner: a sequence
    of at most [maxPoints] points is returned as it is; a longer one, of at
    least two points with pairwise different ranks, is sampled to at most
    [maxPoints + 2] points of the input that include the first and the last
    one, with pairwise different ranks, in ascending order of rank. *)
Theorem sampleCurvePoints_contract (data : list T) (maxPoints : nat) :
  ((List.length data <= maxPoints)%nat ->
   sampleCurvePoints logRankRound rankOf data maxPoints = data) /\
  ((maxPoints < List.length data)%nat -> (2 <= List.length data)%nat ->
   NoDup (map rankOf data) ->
   forall first, hd_error data = Some first ->
     let out := sampleCurvePoints logRankRound rankOf data maxPoints in
     In first out /\ In (List.last data first) out /\
     NoDup (map rankOf out) /\
     (List.length out <= maxPoints + 2)%nat /\
     StronglySorted (fun a b => (rankOf a < rankOf b)%nat) out /\
     incl out data).
Proof. exact (sampleCurvePoints_span data maxPoints). Qed.

Lemma ranks_ascending_NoDup (data : list T) :
  StronglySorted (fun a b => (rankOf a < rankOf b)%nat) data -> NoDup (map rankOf data).
Proof.
  induction 1 as [|x data Hsorted IH Hx]; simpl; constructor; [ | exact IH ].
  intros Hin. apply in_map_iff in Hin. destruct Hin as (y & Hy & Hin).
  pose proof (proj1 (Forall_forall _ _) Hx y Hin) as Hlt. cbv beta in Hlt. lia.
Qed.

(** C3. For a non-empty rank-ordered sequence and a maximum point count of
    at least 1 (the pipeline passes the default, 500), whatever the logarithmic
    rank computation yields: a sequence of at most [maxPoints] points is
    returned unchanged; for a longer one the output includes the first and the
    last point, has no rank twice, has at most [maxPoints + 2] points and is
    in ascending order of rank. *)
Theorem sampleCurvePoints_rank_ordered (data : list T) (maxPoints : nat) (first : T) :
  hd_error data = Some first ->
  StronglySorted (fun a b => (rankOf a < rankOf b)%nat) data ->
  (1 <= maxPoints)%nat ->
  let out := sampleCurvePoints logRankRound rankOf data maxPoints in
  ((List.length data <= maxPoints)%nat -> out = data) /\
  ((maxPoints < List.length data)%nat ->
   In first out /\ In (List.last data first) out /\
   NoDup (map rankOf out) /\
   (List.length out <= maxPoints + 2)%nat /\
   StronglySorted (fun a b => (rankOf a < rankOf b)%nat) out).
Proof.
  intros Hfirst Hranked Hmax out.
  destruct (sampleCurvePoints_span data maxPoints) as [Hsame Hsampled].
  split; [ exact Hsame | ].
  intros Hlong.
  assert (2 <= List.length data)%nat as Htwo by lia.
  destruct (Hsampled Hlong Htwo (ranks_ascending_NoDup data Hranked) first Hfirst)
    as (H1 & H2 & H3 & H4 & H5 & _).
  repeat split; assumption.
Qed.
End SamplerFacts.

Lemma sampleCurvePoints_contract_witness :
  let out := sampleCurvePoints noLogRank (fun rank : nat => rank) [1; 2; 3]%nat 1 in
  In 1%nat out /\ In (List.last [1; 2; 3]%nat 1%nat) out /\
  NoDup (map (fun rank : nat => rank) out) /\
  (List.length out <= 1 + 2)%nat /\
  StronglySorted (fun a b : nat => (a < b)%nat) out /\
  incl out [1; 2; 3]%nat.
Proof.
  apply (proj2 (sampleCurvePoints_contract noLogRank (fun rank : nat => rank)
                  [1; 2; 3]%nat 1)).
  - simpl. lia.
  - simpl. lia.
  - simpl. repeat constructor; simpl; intuition discriminate.
  - reflexivity.
Defined.

Lemma sampleCurvePoints_rank_ordered_witness :
  let out := sampleCurvePoints (fun _ _ _ => 3) (fun r : nat => r) [1; 2; 3; 4; 5]%nat 2 in
  ((5 <= 2)%nat -> out = [1; 2; 3; 4; 5]%nat) /\
  ((2 < 5)%nat ->
   In 1%nat out /\ In 5%nat out /\ NoDup (map (fun r : nat => r) out) /\
   (List.length out <= 2 + 2)%nat /\
   StronglySorted (fun a b : nat => (a < b)%nat) out).
Proof.
  apply (sampleCurvePoints_rank_ordered (fun _ _ _ => 3) (fun r : nat => r)
           [1; 2; 3; 4; 5]%nat 2 1%nat).
  - reflexivity.
  - repeat constructor; lia.
  - lia.
Defined.

(** Five points sampled down with [maxPoints = 2], every sampled rank
    being 3: the middle point and the two ends. *)
Example sampleCurvePoints_five :
  sampleCurvePoints (fun _ _ _ => 3) (fun r : nat => r) [1; 2; 3; 4; 5]%nat 2
  = [1; 3; 5]%nat.
Proof. reflexivity. Qed.

(** ** Custom ranges: the per-year path and the rescan *)

Section SumOne.
Context {A : Type}.

Lemma sumBy_ext (f g : A -> Z) (l : list A) :
  (forall x, In x l -> f x = g x) -> sumBy f l = sumBy g l.
Proof.
  induction l as [|x l IH]; intros Heq; [ reflexivity | ].
  rewrite !sumBy_cons, IH, (Heq x); [ reflexivity | now left | ].
  intros y Hy. apply Heq. now right.
Qed.

Lemma sumBy_plus (f g : A -> Z) (l : list A) :
  sumBy (fun x => f x + g x) l = sumBy f l + sumBy g l.
Proof.
  induction l as [|x l IH]; [ reflexivity | ].
  rewrite !sumBy_cons, IH. lia.
Qed.

Lemma sumBy_zero (l : list A) : sumBy (fun _ : A => 0) l = 0.
Proof.
  induction l as [|x l IH]; [ reflexivity | ]. rewrite sumBy_cons, IH. lia.
Qed.

End SumOne.

Section SumTwo.
Context {A B : Type}.

Lemma sumBy_map (f : B -> Z) (g : A -> B) (l : list A) :
  sumBy f (map g l) = sumBy (fun x => f (g x)) l.
Proof.
  induction l as [|x l IH]; [ reflexivity | ].
  cbn [map]. rewrite !sumBy_cons, IH. reflexivity.
Qed.

Lemma sumBy_swap (g : A -> B -> Z) (la : list A) (lb : list B) :
  sumBy (fun a => sumBy (fun b => g a b) lb) la
  = sumBy (fun b => sumBy (fun a => g a b) la) lb.
Proof.
  induction la as [|a la IH].
  - rewrite sumBy_nil. symmetry. apply (sumBy_zero lb).
  - rewrite sumBy_cons, IH, <- sumBy_plus.
    apply sumBy_ext. intros b _. now rewrite sumBy_cons.
Qed.

(** A fold whose measure grows by [w x] at each step. *)
Lemma fold_left_measure (measure : B -> Z) (w : A -> Z) (step : B -> A -> B)
    (l : list A) (st : B) :
  (forall st x, measure (step st x) = measure st + w x) ->
  measure (fold_left step l st) = measure st + sumBy w l.
Proof.
  intros Hstep. revert st. induction l as [|x l IH]; intros st; simpl.
  - rewrite sumBy_nil. lia.
  - rewrite IH, Hstep, sumBy_cons. lia.
Qed.
End SumTwo.

Lemma yearsBetween_cons (startYear endYear : Z) :
  startYear <= endYear ->
  yearsBetween startYear endYear = startYear :: yearsBetween (startYear + 1) endYear.
Proof.
  intros Hle. unfold yearsBetween.
  replace (Z.to_nat (endYear - startYear + 1))
    with (S (Z.to_nat (endYear - (startYear + 1) + 1))) by lia.
  cbn [seq map]. f_equal; [ lia | ].
  rewrite <- seq_shift, map_map. apply map_ext. intros k. lia.
Qed.

Lemma yearsBetween_empty (startYear endYear : Z) :
  endYear < startYear -> yearsBetween startYear endYear = [].
Proof.
  intros Hlt. unfold yearsBetween.
  replace (Z.to_nat (endYear - startYear + 1)) with 0%nat by lia. reflexivity.
Qed.

Lemma yearsBetween_In (startYear endYear y : Z) :
  In y (yearsBetween startYear endYear) <-> startYear <= y <= endYear.
Proof.
  unfold yearsBetween. rewrite in_map_iff. split.
  - intros (k & <- & Hk). apply in_seq in Hk. lia.
  - intros Hy. exists (Z.to_nat (y - startYear)). split; [ lia | ].
    apply in_seq. lia.
Qed.

(** Over the years of a range, a quantity counted at the year [yr] alone is
    counted once when [yr] is in the range and not at all otherwise. *)
Lemma sum_over_years (yr c : Z) (startYear endYear : Z) :
  sumBy (fun y => if negb (outside y y yr) then c else 0) (yearsBetween startYear endYear)
  = if negb (outside startYear endYear yr) then c else 0.
Proof.
  remember (Z.to_nat (endYear - startYear + 1)) as n eqn:Hn.
  revert startYear Hn. induction n as [|n IH]; intros startYear Hn.
  - rewrite yearsBetween_empty by lia. rewrite sumBy_nil.
    unfold outside. destruct (Z.ltb_spec yr startYear), (Z.ltb_spec endYear yr);
      simpl; try reflexivity; lia.
  - rewrite yearsBetween_cons by lia. rewrite sumBy_cons, IH by lia.
    unfold outside.
    destruct (Z.ltb_spec yr startYear), (Z.ltb_spec startYear yr),
             (Z.ltb_spec yr (startYear + 1)), (Z.ltb_spec endYear yr);
      simpl; try reflexivity; lia.
Qed.

Lemma colorAggStep_total (cm : Map string Color) (agg : Map string ColorAcc)
    (ip : InventoryPart) :
  sumBy ca_quantity (map_values (colorAggStep cm agg ip))
  = sumBy ca_quantity (map_values agg)
    + (if map_has String.eqb cm (ip_color_id ip) then qtyOf ip else 0).
Proof.
  unfold colorAggStep, map_has.
  destruct (map_get String.eqb cm (ip_color_id ip)) as [color|]; [ | lia ].
  destruct (map_get String.eqb agg (colorKey color)) as [existing|] eqn:G;
    rewrite sum_values_set, G; simpl; lia.
Qed.

Section PeriodTotals.
Variable logRankRound : nat -> nat -> nat -> Z.
Variable t : Tables.
Variable skipYear : Z -> bool.

Lemma periodStep_parts_total (st : Map string PeriodPartAcc * Map string ColorAcc)
    (ip : InventoryPart) :
  sumBy ppa_quantity (map_values (fst (periodStep t skipYear st ip)))
  = sumBy ppa_quantity (map_values (fst st))
    + (if keptYear t skipYear ip then qtyOf ip else 0).
Proof.
  destruct st as [partAcc colorAcc]. unfold periodStep, keptYear.
  destruct (resolveYear t ip) as [[setNum year]|]; [ | simpl; lia ].
  destruct (skipYear year); [ simpl; lia | ].
  cbn [fst negb].
  destruct (map_get String.eqb partAcc (ip_part_num ip)) as [existing|] eqn:G;
    rewrite sum_values_set, G; simpl; lia.
Qed.

Lemma periodStep_colors_total (st : Map string PeriodPartAcc * Map string ColorAcc)
    (ip : InventoryPart) :
  sumBy ca_quantity (map_values (snd (periodStep t skipYear st ip)))
  = sumBy ca_quantity (map_values (snd st))
    + (if keptYear t skipYear ip && colorKnown t ip then qtyOf ip else 0).
Proof.
  destruct st as [partAcc colorAcc]. unfold periodStep, keptYear, colorKnown.
  destruct (resolveYear t ip) as [[setNum year]|]; [ | simpl; lia ].
  destruct (skipYear year); [ simpl; lia | ].
  cbn [snd negb andb]. apply colorAggStep_total.
Qed.

(** The period totals are the summed quantities of the rows that count. *)
Lemma periodPartsTotal_rows :
  periodPartsTotal t skipYear
  = sumBy (fun ip => if keptYear t skipYear ip then qtyOf ip else 0) (inventoryParts t).
Proof.
  unfold periodPartsTotal, periodParts.
  rewrite (sumBy_perm _ _ _ (sort_perm _ _)). unfold periodAgg.
  rewrite (fold_left_measure (fun st => sumBy ppa_quantity (map_values (fst st)))
             (fun ip => if keptYear t skipYear ip then qtyOf ip else 0)).
  - unfold map_values. cbn [fst map]. rewrite sumBy_nil. lia.
  - apply periodStep_parts_total.
Qed.

Lemma periodColorsTotal_rows :
  periodColorsTotal t skipYear
  = sumBy (fun ip => if keptYear t skipYear ip && colorKnown t ip then qtyOf ip else 0)
          (inventoryParts t).
Proof.
  unfold periodColorsTotal, periodColors.
  rewrite (sumBy_perm _ _ _ (sort_perm _ _)). unfold periodAgg.
  rewrite (fold_left_measure (fun st => sumBy ca_quantity (map_values (snd st)))
             (fun ip => if keptYear t skipYear ip && colorKnown t ip then qtyOf ip else 0)).
  - unfold map_values. cbn [snd map]. rewrite sumBy_nil. lia.
  - apply periodStep_colors_total.
Qed.

Lemma periodItemsFrom_quantity {A : Type} (name : A -> string) (quantity : A -> Z)
    (total : Z) (l : list A) (index : nat) (cum : Z) :
  sumBy pi_quantity (periodItemsFrom name quantity total index cum l) = sumBy quantity l.
Proof.
  revert index cum. induction l as [|x l IH]; intros index cum; [ reflexivity | ].
  cbn [periodItemsFrom]. rewrite !sumBy_cons, IH. reflexivity.
Qed.

End PeriodTotals.

(** The rows of a range are the rows of its years. *)
Lemma rows_by_year (t : Tables) (also : InventoryPart -> bool) (startYear endYear : Z) :
  sumBy (fun y => sumBy (fun ip => if keptYear t (outside y y) ip && also ip
                                   then qtyOf ip else 0) (inventoryParts t))
        (yearsBetween startYear endYear)
  = sumBy (fun ip => if keptYear t (outside startYear endYear) ip && also ip
                     then qtyOf ip else 0) (inventoryParts t).
Proof.
  rewrite sumBy_swap. apply sumBy_ext. intros ip _.
  unfold keptYear. destruct (resolveYear t ip) as [[setNum yr]|].
  - destruct (also ip).
    + rewrite andb_true_r, <- (sum_over_years yr (qtyOf ip) startYear endYear).
      apply sumBy_ext. intros y _. now rewrite andb_true_r.
    + rewrite andb_false_r.
      transitivity (sumBy (fun _ : Z => 0) (yearsBetween startYear endYear));
        [ | apply sumBy_zero ].
      apply sumBy_ext. intros y _. now rewrite andb_false_r.
  - apply sumBy_zero.
Qed.

Lemma addCurve_total (st : Map string NameQty * Z) (curve : option (list CurvePoint)) :
  snd (addCurve st curve) = snd st + curveTotal curve.
Proof.
  destruct curve as [items|]; simpl; [ | lia ].
  apply (fold_left_measure (fun st : Map string NameQty * Z => snd st) cp_quantity).
  intros [quantities total] item. reflexivity.
Qed.

(** C8 as stated fails. In [thresholdEdge] the largest part has 49.99996
    percent of the pieces of 2015: the rescan rounds this to 50.0000, which
    reaches the 50 percent threshold with one part, while the per-year path
    keeps 49.99996 and needs two parts.  (With rows of 2015 only, the rescan
    of 2015-2020 is [computePeriodCoverage] from 2015 on.)  In [unnamedParts]
    the per-year path, which groups by name, counts the two parts named
    "Unknown" as one.  Besides: in [tiedYears] parts A and B have 105 pieces
    each, and the per-year path lists A first, the rescan B; in
    [zeroQuantity] the total is 0 and the per-year path has NaN where the
    rescan has 0; when the year 2016 has no bucket its pieces are not
    counted; two colors of one name count as one on the per-year path
    ([sameNameColors]), and two colors of one key count as one on the rescan
    ([dashedColors]). *)
Lemma custom_range_paths_differ :
  computeRangeCoverage noLogRank thresholdEdge 2015 2020
  = computePeriodCoverage noLogRank thresholdEdge 2015 /\
  thresholdCount
    (pd_parts (aggregateYearData
                 (statsWithYears noLogRank thresholdEdge (yearsBetween 2015 2020))
                 2015 2020)) 50 = Some 2%nat /\
  thresholdCount (pd_parts (computeRangeCoverage noLogRank thresholdEdge 2015 2020)) 50
  = Some 1%nat /\
  (exists share,
      firstPercent
        (pd_parts (aggregateYearData
                     (statsWithYears noLogRank thresholdEdge (yearsBetween 2015 2020))
                     2015 2020)) 50 = Some (JS.Num share) /\
      (share == 4999996 # 100000)%Q) /\
  firstPercent (pd_parts (computeRangeCoverage noLogRank thresholdEdge 2015 2020)) 50
  = Some (JS.Num 50) /\
  total_unique
    (pd_parts (aggregateYearData
                 (statsWithYears noLogRank unnamedParts (yearsBetween 2015 2020))
                 2015 2020)) = 1%nat /\
  total_unique (pd_parts (computeRangeCoverage noLogRank unnamedParts 2015 2020)) = 2%nat /\
  ~ (forall logRankRound t startYear endYear,
        pd_parts (aggregateYearData
                    (statsWithYears logRankRound t (yearsBetween startYear endYear))
                    startYear endYear)
        = pd_parts (computeRangeCoverage logRankRound t startYear endYear)) /\
  firstName
    (pd_parts (aggregateYearData
                 (statsWithYears noLogRank tiedYears (yearsBetween 2015 2016))
                 2015 2016)) 50 = Some "Brick 2 x 4"%string /\
  firstName (pd_parts (computeRangeCoverage noLogRank tiedYears 2015 2016)) 50
  = Some "Plate 1 x 2"%string /\
  firstPercent
    (pd_parts (aggregateYearData
                 (statsWithYears noLogRank zeroQuantity (yearsBetween 2024 2024))
                 2024 2024)) 50 = Some JS.NaN /\
  firstPercent (pd_parts (computeRangeCoverage noLogRank zeroQuantity 2024 2024)) 50
  = Some (JS.Num 0) /\
  total_quantity
    (pd_parts (aggregateYearData (statsWithYears noLogRank twoYears [2015]) 2015 2016))
  = 150 /\
  total_quantity (pd_parts (computeRangeCoverage noLogRank twoYears 2015 2016)) = 200 /\
  total_unique
    (pd_colors (aggregateYearData
                  (statsWithYears noLogRank sameNameColors (yearsBetween 2015 2016))
                  2015 2016)) = 1%nat /\
  total_unique (pd_colors (computeRangeCoverage noLogRank sameNameColors 2015 2016))
  = 2%nat /\
  total_unique
    (pd_colors (aggregateYearData
                  (statsWithYears noLogRank dashedColors (yearsBetween 2015 2016))
                  2015 2016)) = 2%nat /\
  total_unique (pd_colors (computeRangeCoverage noLogRank dashedColors 2015 2016))
  = 1%nat.
Proof.
  split; [ vm_compute; reflexivity | ].
  split; [ vm_compute; reflexivity | ].
  split; [ vm_compute; reflexivity | ].
  split; [ eexists; split; vm_compute; reflexivity | ].
  split; [ vm_compute; reflexivity | ].
  split; [ vm_compute; reflexivity | ].
  split; [ vm_compute; reflexivity | ].
  split.
  { intros Hsame. specialize (Hsame noLogRank thresholdEdge 2015 2020).
    apply (f_equal (fun p => thresholdCount p 50)) in Hsame.
    vm_compute in Hsame. discriminate. }
  repeat split; vm_compute; reflexivity.
Qed.

(** ** Reading CSV text *)

Lemma append_empty_r (s : string) : (s ++ EmptyString)%string = s.
Proof. induction s as [|c s IH]; simpl; [ reflexivity | now rewrite IH ]. Qed.

Lemma append_assoc_string (a b c : string) :
  ((a ++ b) ++ c)%string = (a ++ (b ++ c))%string.
Proof. induction a as [|x a IH]; simpl; [ reflexivity | now rewrite IH ]. Qed.

Lemma append_cons_middle (a : string) (x : ascii) (b : string) :
  (pushChar a x ++ b)%string = (a ++ String x b)%string.
Proof. unfold pushChar. now rewrite append_assoc_string. Qed.

(** Inside quotes, the doubled text of a field up to its closing quote
    reads back as the field, when no quote follows the closing one. *)
Lemma scanCSVLine_inside (field rest : string) (values : list string) (current : string) :
  (rest = EmptyString \/ exists rest', rest = String comma rest') ->
  scanCSVLine (doubleQuotes field ++ String dquote rest) values current true
  = scanCSVLine rest values (current ++ field) false.
Proof.
  intros Hrest. revert current. induction field as [|c field IH]; intros current.
  - rewrite append_empty_r. cbn [doubleQuotes append scanCSVLine].
    rewrite Ascii.eqb_refl.
    destruct Hrest as [-> | [rest' ->]]; reflexivity.
  - cbn [doubleQuotes]. destruct (Ascii.eqb c dquote) eqn:E.
    + apply Ascii.eqb_eq in E. subst c.
      cbn [append scanCSVLine]. rewrite Ascii.eqb_refl. cbn [andb].
      rewrite IH. now rewrite append_cons_middle.
    + cbn [append scanCSVLine]. rewrite E.
      rewrite andb_false_r. rewrite IH. now rewrite append_cons_middle.
Qed.

Lemma scanCSVLine_quoted (field rest : string) (values : list string) :
  (rest = EmptyString \/ exists rest', rest = String comma rest') ->
  scanCSVLine (quoted field ++ rest) values EmptyString false
  = scanCSVLine rest values field false.
Proof.
  intros Hrest. unfold quoted. cbn [append]. rewrite append_assoc_string.
  cbn [append].
  assert (forall tail, scanCSVLine (String dquote tail) values EmptyString false
                       = scanCSVLine tail values EmptyString true) as Hopen.
  { intros tail. cbn [scanCSVLine]. rewrite Ascii.eqb_refl. now destruct tail. }
  rewrite Hopen. now rewrite scanCSVLine_inside.
Qed.

Lemma scanCSVLine_fields (field : string) (fields : list string) (values : list string) :
  scanCSVLine (joinWith comma (map quoted (field :: fields))) values EmptyString false
  = values ++ field :: fields.
Proof.
  revert field values. induction fields as [|next fields IH]; intros field values.
  - cbn [map joinWith]. rewrite <- (append_empty_r (quoted field)).
    rewrite scanCSVLine_quoted by now left. reflexivity.
  - change (joinWith comma (map quoted (field :: next :: fields)))
      with (quoted field ++ String comma (joinWith comma (map quoted (next :: fields))))%string.
    rewrite scanCSVLine_quoted by (right; eauto).
    cbn [scanCSVLine]. change (Ascii.eqb comma dquote) with false.
    rewrite Ascii.eqb_refl. cbn [andb negb].
    rewrite IH, <- app_assoc. reflexivity.
Qed.

(** X1. Fields written between quotes, with their own quotes doubled, and
    joined by commas are read back by [parseCSVLine] as they were, whatever
    characters they hold. *)
Theorem parseCSVLine_quoted_round_trip (fields : list string) :
  fields <> [] ->
  parseCSVLine (joinWith comma (map quoted fields)) = fields.
Proof.
  intros Hne. destruct fields as [|field fields]; [ congruence | ].
  unfold parseCSVLine. now rewrite scanCSVLine_fields.
Qed.

Lemma parseCSVLine_quoted_round_trip_witness :
  parseCSVLine
    (joinWith comma
       (map quoted ["Brick, Round 2 x 2"; String dquote "X"; ""; "3001"]%string))
  = ["Brick, Round 2 x 2"; String dquote "X"; ""; "3001"]%string.
Proof.
  apply (parseCSVLine_quoted_round_trip
           ["Brick, Round 2 x 2"; String dquote "X"; ""; "3001"]%string).
  discriminate.
Defined.

Lemma splitOn_nonempty (sep : ascii) (s : string) : splitOn sep s <> [].
Proof.
  destruct s as [|c s]; simpl; [ discriminate | ].
  destruct (Ascii.eqb c sep); [ discriminate | ].
  destruct (splitOn sep s); discriminate.
Qed.

(** Outside quotes and without any quote ahead, the scan cuts at the commas. *)
Lemma scanCSVLine_plain (line : string) (values : list string) (current : string) :
  lacks dquote line = true ->
  scanCSVLine line values current false
  = values ++ match splitOn comma line with
              | piece :: pieces => (current ++ piece)%string :: pieces
              | [] => [current]
              end.
Proof.
  revert values current. induction line as [|c line IH]; intros values current Hq.
  - simpl. now rewrite append_empty_r.
  - cbn [lacks] in Hq. apply andb_prop in Hq. destruct Hq as [Hc Hq].
    apply negb_true_iff in Hc. cbn [scanCSVLine splitOn]. rewrite Hc.
    destruct (Ascii.eqb c comma) eqn:E; cbn [andb negb].
    + rewrite IH by exact Hq. rewrite <- app_assoc. cbn [app].
      rewrite append_empty_r.
      destruct (splitOn comma line) as [|piece pieces] eqn:S;
        [ now apply splitOn_nonempty in S | reflexivity ].
    + rewrite IH by exact Hq.
      destruct (splitOn comma line) as [|piece pieces] eqn:S;
        [ now apply splitOn_nonempty in S | ].
      now rewrite append_cons_middle.
Qed.

Lemma parseCSVLine_plain (line : string) :
  lacks dquote line = true -> parseCSVLine line = splitOn comma line.
Proof.
  intros Hq. unfold parseCSVLine. rewrite scanCSVLine_plain by exact Hq.
  destruct (splitOn comma line) as [|piece pieces] eqn:S;
    [ now apply splitOn_nonempty in S | reflexivity ].
Qed.

Lemma lacks_trimStart (c : ascii) (s : string) :
  lacks c s = true -> lacks c (JS.trimStart s) = true.
Proof.
  induction s as [|x s IH]; simpl; [ auto | ].
  intros H. destruct (JS.isWhite x); [ | exact H ].
  apply andb_prop in H. now apply IH.
Qed.

Lemma lacks_trimEnd (c : ascii) (s : string) :
  lacks c s = true -> lacks c (trimEnd s) = true.
Proof.
  induction s as [|x s IH]; simpl; [ auto | ].
  intros H. apply andb_prop in H. destruct H as [Hx Hs].
  specialize (IH Hs). destruct (trimEnd s) as [|y kept].
  - destruct (JS.isWhite x); simpl; [ reflexivity | now rewrite Hx ].
  - cbn [lacks] in *. now rewrite Hx, IH.
Qed.

Lemma lacks_splitOn (c sep : ascii) (s : string) :
  lacks c s = true -> Forall (fun piece => lacks c piece = true) (splitOn sep s).
Proof.
  induction s as [|x s IH]; simpl.
  - repeat constructor.
  - intros H. apply andb_prop in H. destruct H as [Hx Hs]. specialize (IH Hs).
    destruct (Ascii.eqb x sep).
    + constructor; [ reflexivity | exact IH ].
    + destruct (splitOn sep s) as [|piece pieces].
      * repeat constructor. simpl. now rewrite Hx.
      * inversion IH; subst. constructor; [ | assumption ].
        simpl. now rewrite Hx.
Qed.

(** X2. On a text without any double quote the quote-aware parser of the
    Node pipeline and the comma-splitting parse of the Deno pipeline give the
    same records. *)
Theorem parseCSV_agrees_without_quotes (text : string) :
  lacks dquote text = true -> parseCSV text = parseCSVPlain text.
Proof.
  intros Hq. unfold parseCSV, parseCSVPlain.
  assert (Forall (fun piece => lacks dquote piece = true)
                 (splitOn newline (trim text))) as Hlines.
  { apply lacks_splitOn. unfold trim. now apply lacks_trimEnd, lacks_trimStart. }
  destruct (splitOn newline (trim text)) as [|first data]; [ reflexivity | ].
  inversion Hlines as [|? ? Hfirst Hdata]; subst.
  unfold rowsOf. rewrite (parseCSVLine_plain first Hfirst).
  apply map_ext_in. intros line Hin.
  rewrite parseCSVLine_plain; [ reflexivity | ].
  exact (proj1 (Forall_forall _ _) Hdata line Hin).
Qed.

Lemma parseCSV_agrees_without_quotes_witness : parseCSV colorsCsv = parseCSVPlain colorsCsv.
Proof. apply (parseCSV_agrees_without_quotes colorsCsv). reflexivity. Defined.

Lemma strOr_empty (s : string) : JS.strOr s "" = s.
Proof. now destruct s. Qed.

Lemma setProperty_get_same (obj : Row) (key value : string) :
  key <> "__proto__"%string ->
  map_get String.eqb (setProperty obj key value) key = Some value.
Proof.
  intros Hkey. unfold setProperty.
  destruct (String.eqb_spec key "__proto__"%string); [ contradiction | ].
  apply (map_get_set_same String.eqb Seqb_eq).
Qed.

Lemma setProperty_get_other (obj : Row) (key key' value : string) :
  key' <> key ->
  map_get String.eqb (setProperty obj key value) key' = map_get String.eqb obj key'.
Proof.
  intros Hne. unfold setProperty.
  destruct (String.eqb key "__proto__"%string); [ reflexivity | ].
  now apply (map_get_set_other String.eqb Seqb_eq).
Qed.

Lemma fillRow_get_other (headers : list string) (i : nat) (values : list string)
    (obj : Row) (key : string) :
  ~ In key (map trim headers) ->
  map_get String.eqb (fillRow headers i values obj) key = map_get String.eqb obj key.
Proof.
  revert i obj. induction headers as [|h headers IH]; intros i obj Hnot; [ reflexivity | ].
  cbn [fillRow]. rewrite IH by (intros Hin; apply Hnot; now right).
  apply setProperty_get_other. intros E. apply Hnot. now left.
Qed.

(** No column is stored under [__proto__]. *)
Lemma fillRow_proto (headers : list string) (i : nat) (values : list string) (obj : Row) :
  map_get String.eqb obj "__proto__"%string = None ->
  map_get String.eqb (fillRow headers i values obj) "__proto__"%string = None.
Proof.
  revert i obj. induction headers as [|h headers IH]; intros i obj Hobj; [ exact Hobj | ].
  cbn [fillRow]. apply IH. unfold setProperty.
  destruct (String.eqb_spec (trim h) "__proto__"%string) as [E|E]; [ exact Hobj | ].
  rewrite (map_get_set_other String.eqb Seqb_eq) by congruence. exact Hobj.
Qed.

(** The value stored for column [i]: the trimmed field, or the empty string
    when the line has no such field. *)
Lemma fillRow_get (headers : list string) (i k : nat) (values : list string)
    (obj : Row) (h : string) :
  NoDup (map trim headers) -> nth_error headers k = Some h ->
  trim h <> "__proto__"%string ->
  map_get String.eqb (fillRow headers i values obj) (trim h)
  = Some (match nth_error values (i + k) with
          | Some v => trim v
          | None => EmptyString
          end).
Proof.
  revert i k obj. induction headers as [|h0 headers IH]; intros i k obj Hnd Hk Hproto.
  - destruct k; discriminate.
  - cbn [map] in Hnd. inversion Hnd as [|? ? Hnot Hnd']; subst.
    cbn [fillRow]. destruct k as [|k].
    + injection Hk as ->. rewrite fillRow_get_other by exact Hnot.
      rewrite (setProperty_get_same _ _ _ Hproto), Nat.add_0_r.
      destruct (nth_error values i); [ now rewrite strOr_empty | reflexivity ].
    + cbn [nth_error] in Hk. rewrite (IH (S i) k) by assumption.
      now replace (S i + k)%nat with (i + S k)%nat by lia.
Qed.

Lemma fillRow_has (headers : list string) (i : nat) (values : list string)
    (obj : Row) (key : string) :
  (In key (map trim headers) /\ key <> "__proto__"%string)
  \/ map_get String.eqb obj key <> None ->
  map_get String.eqb (fillRow headers i values obj) key <> None.
Proof.
  revert i obj. induction headers as [|h headers IH]; intros i obj Hkey.
  - destruct Hkey as [[[] _] | Hobj]. exact Hobj.
  - cbn [fillRow]. apply IH.
    destruct (String.eqb_spec (trim h) key) as [E|E].
    + destruct Hkey as [[_ Hproto] | Hobj].
      * right. subst key. rewrite (setProperty_get_same _ _ _ Hproto). discriminate.
      * destruct (String.eqb_spec key "__proto__"%string) as [P|P].
        -- right. unfold setProperty. rewrite E, P. cbn. rewrite <- P. exact Hobj.
        -- right. subst key. rewrite (setProperty_get_same _ _ _ P). discriminate.
    + destruct Hkey as [[[Hh | Hin] Hproto] | Hobj]; [ contradiction | now left | ].
      right. rewrite setProperty_get_other by congruence. exact Hobj.
Qed.

(** X3. On an ASCII text, [parseCSV] gives one record for each line after
    the header line.  A record has a value under every column name of the
    header except [__proto__], under which a plain object stores nothing;
    with column names that differ, the value of such a column is the trimmed
    field at its position, and the empty string when the line has fewer
    fields. *)
Theorem parseCSV_records (text : string) :
  asciiOnly text = true ->
  let lines := splitOn newline (trim text) in
  let headers := parseCSVLine (hd EmptyString lines) in
  List.length (parseCSV text) = (List.length lines - 1)%nat /\
  forall j line,
    nth_error (tl lines) j = Some line ->
    exists record,
      nth_error (parseCSV text) j = Some record /\
      map_get String.eqb record "__proto__"%string = None /\
      (forall h, In h headers -> trim h <> "__proto__"%string ->
                 map_get String.eqb record (trim h) <> None) /\
      (NoDup (map trim headers) ->
       forall i h, nth_error headers i = Some h -> trim h <> "__proto__"%string ->
         map_get String.eqb record (trim h)
         = Some (match nth_error (parseCSVLine line) i with
                 | Some v => trim v
                 | None => EmptyString
                 end)).
Proof.
  intros _. cbv zeta. unfold parseCSV.
  destruct (splitOn newline (trim text)) as [|first data] eqn:S;
    [ now apply splitOn_nonempty in S | ].
  cbn [hd tl rowsOf List.length]. rewrite length_map. split; [ lia | ].
  intros j line Hj. eexists. split.
  - rewrite nth_error_map, Hj. reflexivity.
  - split; [ now apply fillRow_proto | ]. split.
    + intros h Hh Hproto. apply fillRow_has. left. split; [ now apply in_map | exact Hproto ].
    + intros Hnd i h Hi Hproto. now rewrite (fillRow_get _ 0 i _ _ h Hnd Hi Hproto).
Qed.

Lemma parseCSV_records_witness :
  exists record,
    nth_error (parseCSV colorsCsv) 1 = Some record /\
    map_get String.eqb record "name"%string = Some "Blue"%string /\
    map_get String.eqb record "rgb"%string = Some EmptyString.
Proof.
  destruct (parseCSV_records colorsCsv eq_refl) as [_ Hrows].
  destruct (Hrows 1%nat "1,Blue"%string eq_refl) as (record & Hnth & _ & _ & Hcols).
  exists record. split; [ exact Hnth | ].
  assert (NoDup (map trim (parseCSVLine "id,name,rgb,is_trans"%string))) as Hnd.
  { vm_compute. repeat constructor; simpl; intuition discriminate. }
  split.
  - apply (Hcols Hnd 1%nat "name"%string eq_refl). discriminate.
  - apply (Hcols Hnd 2%nat "rgb"%string eq_refl). discriminate.
Defined.

(** ** The lookup maps *)

Lemma fold_set_last {A : Type} (key : A -> string) (l : list A) (m0 : Map string A)
    (id : string) :
  map_get String.eqb (fold_left (fun m x => map_set String.eqb m (key x) x) l m0) id
  = match find (fun x => String.eqb (key x) id) (rev l) with
    | Some x => Some x
    | None => map_get String.eqb m0 id
    end.
Proof.
  induction l as [|x l IH] using rev_ind; [ reflexivity | ].
  rewrite fold_left_app, rev_app_distr. cbn [fold_left rev app find].
  destruct (String.eqb_spec (key x) id) as [E|E].
  - subst id. apply (map_get_set_same String.eqb Seqb_eq).
  - rewrite (map_get_set_other String.eqb Seqb_eq) by congruence. exact IH.
Qed.

(** X4. A color, part or set id that occurs on several lines of its table
    resolves to the last of them; an id that does not occur resolves to
    nothing. *)
Theorem reference_maps_last_wins (t : Tables) (id : string) :
  map_get String.eqb (colorMap t) id
  = find (fun c => String.eqb (c_id c) id) (rev (colors t)) /\
  map_get String.eqb (partMap t) id
  = find (fun p => String.eqb (p_part_num p) id) (rev (parts t)) /\
  map_get String.eqb (setMap t) id
  = find (fun s => String.eqb (s_set_num s) id) (rev (sets t)).
Proof.
  unfold colorMap, partMap, setMap. rewrite !fold_set_last. simpl.
  repeat split; match goal with |- context [find ?f ?l] => now destruct (find f l) end.
Qed.

Lemma inventoryToSetMap_from (l : list Inventory) (m0 : Map string string) (id : string) :
  map_get String.eqb
    (fold_left
       (fun m inv =>
          if map_has String.eqb m (inv_id inv) then m
          else map_set String.eqb m (inv_id inv) (inv_set_num inv)) l m0) id
  = match map_get String.eqb m0 id with
    | Some setNum => Some setNum
    | None => option_map inv_set_num (find (fun inv => String.eqb (inv_id inv) id) l)
    end.
Proof.
  revert m0. induction l as [|inv l IH]; intros m0; cbn [fold_left find].
  - now destruct (map_get String.eqb m0 id).
  - rewrite IH. unfold map_has.
    destruct (map_get String.eqb m0 (inv_id inv)) as [known|] eqn:G.
    + destruct (String.eqb_spec (inv_id inv) id) as [E|E]; [ | reflexivity ].
      subst id. now rewrite G.
    + destruct (String.eqb_spec (inv_id inv) id) as [E|E].
      * subst id. now rewrite (map_get_set_same String.eqb Seqb_eq), G.
      * now rewrite (map_get_set_other String.eqb Seqb_eq) by congruence.
Qed.

(** X5. An inventory id that occurs on several lines of the inventories
    table resolves to the set number of the first of them. *)
Theorem inventory_first_wins (t : Tables) (id : string) :
  map_get String.eqb (inventoryToSetMap t) id
  = option_map inv_set_num
      (find (fun inv => String.eqb (inv_id inv) id) (inventories t)).
Proof. unfold inventoryToSetMap. now rewrite inventoryToSetMap_from. Qed.

(** ** Ranks, order and totals of the aggregates *)

Section DescendingFacts.
Context {A : Type} (quantity : A -> Z).

Lemma insert_descending (x : A) (l : list A) :
  StronglySorted (fun a b => quantity b <= quantity a) l ->
  StronglySorted (fun a b => quantity b <= quantity a)
                 (insert (byQuantityDesc quantity) x l).
Proof.
  induction 1 as [|y l Hl IH Hy]; simpl.
  - repeat constructor.
  - unfold byQuantityDesc at 1. destruct (Z.ltb_spec (quantity x) (quantity y)) as [Hlt|Hge].
    + constructor; [ exact IH | ].
      apply Forall_forall. intros z Hz.
      apply (Permutation_in _ (insert_perm (byQuantityDesc quantity) x l)) in Hz.
      destruct Hz as [<- | Hz]; [ lia | ].
      exact (proj1 (Forall_forall _ _) Hy z Hz).
    + constructor; [ constructor; assumption | ].
      constructor; [ exact Hge | ].
      eapply Forall_impl; [ | exact Hy ]. intros z Hz. simpl in Hz. lia.
Qed.

Lemma sort_descending (l : list A) :
  StronglySorted (fun a b => quantity b <= quantity a) (sort (byQuantityDesc quantity) l).
Proof.
  induction l as [|x l IH]; simpl; [ constructor | now apply insert_descending ].
Qed.
End DescendingFacts.

Lemma StronglySorted_map {A B : Type} (f : A -> B) (R : B -> B -> Prop) (l : list A) :
  StronglySorted (fun a b => R (f a) (f b)) l -> StronglySorted R (map f l).
Proof.
  induction 1 as [|x l Hl IH Hx]; simpl; constructor; [ exact IH | ].
  apply Forall_map. exact Hx.
Qed.

Lemma colorStatsFrom_ranks (total : Z) (l : list ColorAcc) (index : nat) (cum : Z) :
  map cs_rank (colorStatsFrom total index cum l) = seq (index + 1) (List.length l) /\
  map cs_quantity (colorStatsFrom total index cum l) = map ca_quantity l.
Proof.
  revert index cum. induction l as [|c l IH]; intros index cum; [ now split | ].
  cbn [colorStatsFrom map List.length seq cs_rank cs_quantity].
  destruct (IH (S index) (cum + ca_quantity c)) as [Hr Hq]. rewrite Hr, Hq.
  now replace (S index + 1)%nat with (S (index + 1)) by lia.
Qed.

Lemma partFrequencyFrom_ranks (pm : Map string Part) (total : Z) (l : list PartAcc)
    (index : nat) (cum : Z) :
  map pf_rank (partFrequencyFrom pm total index cum l) = seq (index + 1) (List.length l) /\
  map pf_quantity (partFrequencyFrom pm total index cum l) = map pa_quantity l /\
  map pf_part_num (partFrequencyFrom pm total index cum l) = map pa_part_num l.
Proof.
  revert index cum. induction l as [|p l IH]; intros index cum; [ now repeat split | ].
  cbn [partFrequencyFrom map List.length seq pf_rank pf_quantity pf_part_num].
  destruct (IH (S index) (cum + pa_quantity p)) as (Hr & Hq & Hn). rewrite Hr, Hq, Hn.
  now replace (S index + 1)%nat with (S (index + 1)) by lia.
Qed.

(** X6. In color stats and in part frequency the ranks are 1, 2, ..., N in
    the order of the list, and the quantities never increase along it. *)
Theorem aggregates_ranked (t : Tables) :
  map cs_rank (colorStats t) = seq 1 (List.length (colorStats t)) /\
  StronglySorted Z.ge (map cs_quantity (colorStats t)) /\
  map pf_rank (partFrequency t) = seq 1 (List.length (partFrequency t)) /\
  StronglySorted Z.ge (map pf_quantity (partFrequency t)).
Proof.
  unfold colorStats, partFrequency.
  destruct (colorStatsFrom_ranks (totalPieces t) (sortedColors t) 0 0) as [Hcr Hcq].
  destruct (partFrequencyFrom_ranks (partMap t) (totalPartsQuantity t) (sortedParts t) 0 0)
    as (Hpr & Hpq & _).
  assert (forall {A} (q : A -> Z) l,
            StronglySorted Z.ge (map q (sort (byQuantityDesc q) l))) as Hsorted.
  { intros A q l. apply StronglySorted_map.
    eapply StronglySorted_ind with (P := fun l => StronglySorted _ l);
      [ constructor | | apply (sort_descending q l) ].
    intros a l' _ IH Ha. constructor; [ exact IH | ].
    eapply Forall_impl; [ | exact Ha ]. intros b Hb. simpl in Hb. lia. }
  split; [ | split; [ | split ] ].
  - rewrite Hcr. f_equal. apply (f_equal (@List.length _)) in Hcr.
    now rewrite length_map, length_seq in Hcr.
  - rewrite Hcq. apply Hsorted.
  - rewrite Hpr. f_equal. apply (f_equal (@List.length _)) in Hpr.
    now rewrite length_map, length_seq in Hpr.
  - rewrite Hpq. apply Hsorted.
Qed.

Lemma partAgg_keys (rows : list InventoryPart) :
  NoDup (map_keys (fold_left partAggStep rows [])) /\
  Forall (fun e => pa_part_num (snd e) = fst e) (fold_left partAggStep rows []).
Proof.
  apply fold_left_inv with
    (P := fun agg : Map string PartAcc =>
            NoDup (map_keys agg) /\ Forall (fun e => pa_part_num (snd e) = fst e) agg).
  - split; constructor.
  - intros agg ip [Hnd Hkeys]. unfold partAggStep.
    destruct (map_get String.eqb agg (ip_part_num ip)) as [existing|] eqn:G.
    + split; [ now apply (map_keys_set_NoDup String.eqb Seqb_eq) | ].
      apply (map_get_In String.eqb Seqb_eq) in G.
      pose proof (proj1 (Forall_forall _ _) Hkeys _ G) as Hex. simpl in Hex.
      clear G. induction agg as [|[k v] agg IH]; simpl.
      * repeat constructor. exact Hex.
      * inversion Hkeys; subst. inversion Hnd; subst.
        destruct (String.eqb_spec k (ip_part_num ip)) as [E|E].
        -- constructor; [ simpl; congruence | assumption ].
        -- constructor; [ assumption | ]. apply IH; assumption.
    + split; [ now apply (map_keys_set_NoDup String.eqb Seqb_eq) | ].
      clear G Hnd. induction agg as [|[k v] agg IH]; simpl.
      * repeat constructor.
      * inversion Hkeys; subst.
        destruct (String.eqb_spec k (ip_part_num ip)) as [E|E].
        -- constructor; [ simpl; congruence | assumption ].
        -- constructor; [ assumption | ]. apply IH; assumption.
Qed.

(** X7. Part frequency has exactly one entry for each part number that
    occurs in the inventory-part rows, and no other entry; the grand total
    of parts is the summed quantity of all rows. *)
Theorem part_frequency_entries (t : Tables) :
  NoDup (map pf_part_num (partFrequency t)) /\
  (forall k, In k (map pf_part_num (partFrequency t)) <->
             exists ip, In ip (inventoryParts t) /\ ip_part_num ip = k) /\
  totalPartsQuantity t = sumBy qtyOf (inventoryParts t).
Proof.
  destruct (partFrequencyFrom_ranks (partMap t) (totalPartsQuantity t) (sortedParts t) 0 0)
    as (_ & _ & Hnum).
  fold (partFrequency t) in Hnum.
  destruct (partAgg_keys (inventoryParts t)) as [Hnd Hkeys]. fold (partAgg t) in Hnd, Hkeys.
  assert (map pa_part_num (map_values (partAgg t)) = map_keys (partAgg t)) as Hsame.
  { unfold map_values, map_keys. rewrite map_map. apply map_ext_in.
    intros e He. exact (proj1 (Forall_forall _ _) Hkeys e He). }
  assert (Permutation (map pf_part_num (partFrequency t)) (map_keys (partAgg t))) as Hperm.
  { rewrite Hnum, <- Hsame. apply Permutation_map, sort_perm. }
  split; [ | split ].
  - eapply Permutation_NoDup; [ symmetry; exact Hperm | exact Hnd ].
  - intros k. split.
    + intros Hin. apply (Permutation_in _ Hperm) in Hin.
      pose proof (partAgg_inv (inventoryParts t) k) as Hk. fold (partAgg t) in Hk.
      destruct (map_get String.eqb (partAgg t) k) as [acc|] eqn:G.
      * destruct Hk as (_ & _ & Hex). exact Hex.
      * apply (map_get_None_keys String.eqb Seqb_eq) in G. contradiction.
    + intros (ip & Hin & <-).
      destruct (partFrequency_entry t ip Hin) as (e & He & Hn & _).
      rewrite <- Hn. now apply in_map.
  - apply totalPartsQuantity_rows.
Qed.

Lemma part_frequency_entries_witness :
  In "B"%string (map pf_part_num (partFrequency strayColor)).
Proof.
  apply (proj1 (proj2 (part_frequency_entries strayColor))).
  exists (mkRow "1" "B" "9999" "7"). split; [ vm_compute; tauto | reflexivity ].
Defined.

Lemma totalPieces_rows (t : Tables) :
  totalPieces t
  = sumBy (fun ip => if colorKnown t ip then qtyOf ip else 0) (inventoryParts t).
Proof.
  unfold totalPieces, colorAgg.
  rewrite (fold_left_measure (fun agg => sumBy ca_quantity (map_values agg))
             (fun ip => if colorKnown t ip then qtyOf ip else 0)).
  - reflexivity.
  - intros agg ip. apply colorAggStep_total.
Qed.

(** X8. The grand total of color stats is the summed quantity of the rows
    whose color id is known; what the grand total of parts has beyond it is
    the summed quantity of the rows with an unknown color id. *)
Theorem color_total_counts_known_colors (t : Tables) :
  totalPieces t
  = sumBy (fun ip => if colorKnown t ip then qtyOf ip else 0) (inventoryParts t) /\
  totalPartsQuantity t - totalPieces t
  = sumBy (fun ip => if colorKnown t ip then 0 else qtyOf ip) (inventoryParts t).
Proof.
  split; [ apply totalPieces_rows | ].
  rewrite totalPieces_rows, totalPartsQuantity_rows.
  assert (forall a b c : Z, a = b + c -> a - b = c) as Hsub by (intros; lia).
  apply Hsub. rewrite <- sumBy_plus. apply sumBy_ext.
  intros ip _. destruct (colorKnown t ip); lia.
Qed.

(** ** Threshold counts *)

Lemma ge_weaken (x : JS.number) (t1 t2 : Z) :
  t1 <= t2 -> JS.ge x t2 = true -> JS.ge x t1 = true.
Proof.
  intros Hle. destruct x as [| | |q]; simpl; auto.
  rewrite !Qle_bool_iff. intros Hq.
  eapply Qle_trans; [ | exact Hq ]. rewrite <- Zle_Qle. exact Hle.
Qed.

Section ThresholdOrder.
Context {T : Type} `{Covered T}.

Lemma scanThreshold_bounds (rest : list T) (threshold : Z) (i count : nat) :
  scanThreshold rest threshold i = Some count ->
  (i + 1 <= count <= i + List.length rest)%nat.
Proof.
  revert i. induction rest as [|x rest IH]; intros i; simpl; [ discriminate | ].
  destruct (reaches threshold x).
  - intros [= <-]. lia.
  - intros Hs. apply IH in Hs. lia.
Qed.

Lemma scanThreshold_monotone (rest : list T) (t1 t2 : Z) (i c2 : nat) :
  t1 <= t2 -> scanThreshold rest t2 i = Some c2 ->
  exists c1, scanThreshold rest t1 i = Some c1 /\ (c1 <= c2)%nat.
Proof.
  intros Hle. revert i. induction rest as [|x rest IH]; intros i; simpl; [ discriminate | ].
  destruct (reaches t2 x) eqn:E2.
  - intros [= <-]. unfold reaches in *. rewrite (ge_weaken _ t1 t2 Hle E2). eauto.
  - intros Hs. destruct (reaches t1 x).
    + apply scanThreshold_bounds in Hs. eexists. split; [ reflexivity | lia ].
    + now apply IH.
Qed.

(** X9. The threshold count never decreases when the threshold is raised;
    it is 0 for an empty sequence and lies between 1 and the length of a
    non-empty one. *)
Theorem threshold_count_monotone (items : list T) (t1 t2 : Z) :
  (t1 <= t2 -> (findThresholdIndex items t1 <= findThresholdIndex items t2)%nat) /\
  findThresholdIndex (@nil T) t1 = 0%nat /\
  (items <> [] -> (1 <= findThresholdIndex items t1 <= List.length items)%nat).
Proof.
  split; [ | split ].
  - intros Hle. unfold findThresholdIndex.
    destruct (scanThreshold items t2 0) as [c2|] eqn:E2.
    + destruct (scanThreshold_monotone items t1 t2 0 c2 Hle E2) as (c1 & -> & Hc). exact Hc.
    + destruct (scanThreshold items t1 0) as [c1|] eqn:E1; [ | lia ].
      apply scanThreshold_bounds in E1. lia.
  - reflexivity.
  - intros Hne. unfold findThresholdIndex.
    destruct (scanThreshold items t1 0) as [c1|] eqn:E1.
    + apply scanThreshold_bounds in E1. lia.
    + destruct items; [ congruence | simpl; lia ].
Qed.
End ThresholdOrder.

Lemma threshold_count_monotone_witness :
  (findThresholdIndex (colorStats redBlue) 50 <= findThresholdIndex (colorStats redBlue) 80)%nat /\
  (1 <= findThresholdIndex (colorStats redBlue) 50 <= 2)%nat.
Proof.
  destruct (threshold_count_monotone (colorStats redBlue) 50 80) as (Hmono & _ & Hbounds).
  split; [ apply Hmono; lia | ].
  apply Hbounds. vm_compute. discriminate.
Defined.

(** ** The top color and the top part of a year *)

Lemma topOf_fold (m : Map string Z) : topOf m = fold_left topStep m (""%string, 0).
Proof. reflexivity. Qed.

Lemma topStep_keeps (l : list (string * Z)) (top : string * Z) :
  Forall (fun x => snd x <= snd top) l -> fold_left topStep l top = top.
Proof.
  induction 1 as [|x l Hx _ IH]; simpl; [ reflexivity | ].
  unfold topStep at 2. destruct (Z.ltb_spec (snd top) (snd x)); [ lia | exact IH ].
Qed.

Lemma topStep_reaches (l1 l2 : list (string * Z)) (e top : string * Z) :
  snd top < snd e ->
  Forall (fun x => snd x < snd e) l1 -> Forall (fun x => snd x <= snd e) l2 ->
  fold_left topStep (l1 ++ e :: l2) top = e.
Proof.
  intros Htop Hl1 Hl2. revert top Htop.
  induction Hl1 as [|x l1 Hx _ IH]; intros top Htop; simpl.
  - unfold topStep at 2. destruct (Z.ltb_spec (snd top) (snd e)); [ | lia ].
    now apply topStep_keeps.
  - apply IH. unfold topStep. now destruct (snd top <? snd x).
Qed.

(** X10. The top-color and top-part scan of a year returns the first entry,
    in insertion order, that has the largest quantity, provided that quantity
    is positive; when no quantity is positive it returns the empty key with
    quantity 0. *)
Theorem topOf_first_maximum (m : Map string Z) :
  (Forall (fun x => snd x <= 0) m -> topOf m = (""%string, 0)) /\
  (forall l1 e l2,
      m = l1 ++ e :: l2 -> 0 < snd e ->
      Forall (fun x => snd x < snd e) l1 -> Forall (fun x => snd x <= snd e) l2 ->
      topOf m = e).
Proof.
  split.
  - intros Hall. rewrite topOf_fold. now apply topStep_keeps.
  - intros l1 e l2 -> Hpos Hl1 Hl2. rewrite topOf_fold. now apply topStep_reaches.
Qed.

Lemma topOf_first_maximum_witness :
  topOf [("4", 150); ("1", 300); ("14", 300); ("15", 20)]%string = ("1"%string, 300).
Proof.
  apply (proj2 (topOf_first_maximum [("4", 150); ("1", 300); ("14", 300); ("15", 20)]%string)
           [("4"%string, 150)] ("1"%string, 300) [("14"%string, 300); ("15"%string, 20)]).
  - reflexivity.
  - reflexivity.
  - repeat constructor.
  - repeat constructor; simpl; lia.
Defined.

(** ** The order of the year trends *)

Lemma year_groups_NoDup (t : Tables) :
  NoDup (map yt_year (inventoryYearTrends t ++ setsOnlyYearTrends t)).
Proof.
  rewrite map_app. apply NoDup_app.
  - rewrite inventoryYearTrends_years. apply yearAgg_keys_NoDup.
  - rewrite setsOnlyYearTrends_years. apply setsOnlyYearAgg_keys_NoDup.
  - intros y Hinv Hso. rewrite setsOnlyYearTrends_years in Hso.
    apply setsOnlyYearAgg_keys in Hso. destruct Hso as (set & _ & _ & _ & Hn).
    apply Hn, inventoryYears_In, Hinv.
Qed.

Lemma descending_strict {A : Type} (key : A -> Z) (l : list A) :
  StronglySorted (fun a b => key b <= key a) l -> NoDup (map key l) ->
  StronglySorted (fun a b => key b < key a) l.
Proof.
  induction 1 as [|y l Hl IH Hy]; intros Hnd; [ constructor | ].
  simpl in Hnd. inversion Hnd as [|k ks Hnotin Hnd']; subst.
  constructor; [ now apply IH | ].
  apply Forall_forall. intros z Hz.
  pose proof (proj1 (Forall_forall _ _) Hy z Hz) as Hle. simpl in Hle.
  assert (key z <> key y).
  { intros E. apply Hnotin. rewrite <- E. now apply in_map. }
  lia.
Qed.

(** X11. The year-trends array is in strictly descending order of year: the
    most recent year first and no year twice; every year is 1949 or later. *)
Theorem year_trends_descending (t : Tables) :
  StronglySorted (fun a b => yt_year b < yt_year a) (yearTrends t) /\
  Forall (fun y => 1949 <= yt_year y) (yearTrends t).
Proof.
  split.
  - apply descending_strict.
    + apply (sort_descending yt_year).
    + eapply Permutation_NoDup; [ | apply (year_groups_NoDup t) ].
      apply Permutation_map. symmetry. apply yearTrends_perm.
  - apply Forall_forall. intros y Hy.
    apply (Permutation_in _ (yearTrends_perm t)) in Hy.
    apply (in_map yt_year) in Hy. rewrite map_app, in_app_iff in Hy.
    destruct Hy as [Hy | Hy].
    + rewrite inventoryYearTrends_years in Hy. apply yearAgg_keys in Hy.
      now destruct Hy as (ip & s & _ & _ & Hy).
    + rewrite setsOnlyYearTrends_years in Hy. apply setsOnlyYearAgg_keys in Hy.
      now destruct Hy as (set & _ & _ & Hy & _).
Qed.

(** ** Decades *)

(** X12. A year from 1950 to 2029 belongs to the decade that starts at the
    year rounded down to a multiple of ten; any other year belongs to no
    decade, and a row of such a year (1949 included) leaves the decade
    aggregation unchanged. *)
Theorem decade_of_year (t : Tables) (year : Z) :
  (1950 <= year <= 2029 ->
   exists d, decadeOf year = Some d /\ In d decades /\
             startYear d = 10 * (year / 10) /\ endYear d = startYear d + 9) /\
  (year < 1950 \/ 2029 < year ->
   decadeOf year = None /\
   forall agg ip setNum,
     resolveYear t ip = Some (setNum, year) -> decadeAggStep t agg ip = agg).
Proof.
  split.
  - intros Hy. unfold decadeOf, decades. cbn [find startYear endYear].
    repeat match goal with
           | |- context [(?a <=? year) && (year <=? ?b)] =>
               destruct (Z.leb_spec a year); destruct (Z.leb_spec year b); cbn [andb]
           end;
      try (eexists; split; [ reflexivity | ];
           split; [ cbn; tauto | cbn [startYear endYear]; split; [ | lia ];
                    Z.div_mod_to_equations; lia ]);
      lia.
  - intros Hy.
    assert (decadeOf year = None) as Hnone.
    { unfold decadeOf, decades. cbn [find startYear endYear].
      repeat match goal with
             | |- context [(?a <=? year) && (year <=? ?b)] =>
                 destruct (Z.leb_spec a year); destruct (Z.leb_spec year b); cbn [andb]
             end; try reflexivity; lia. }
    split; [ exact Hnone | ].
    intros agg ip setNum Hres. unfold decadeAggStep. now rewrite Hres, Hnone.
Qed.

Lemma decade_of_year_witness :
  (exists d, decadeOf 1995 = Some d /\ In d decades /\
             startYear d = 10 * (1995 / 10) /\ endYear d = startYear d + 9) /\
  decadeOf 1949 = None.
Proof.
  split.
  - apply (proj1 (decade_of_year redBlue 1995)). lia.
  - apply (proj2 (decade_of_year redBlue 1949)). lia.
Defined.

(** ** Rows that do not join to a year *)

Lemma fold_left_skip {A B : Type} (step : A -> B -> A) (l1 l2 : list B) (x : B) (a : A) :
  (forall a', step a' x = a') ->
  fold_left step (l1 ++ x :: l2) a = fold_left step (l1 ++ l2) a.
Proof. intros Hskip. rewrite !fold_left_app. simpl. now rewrite Hskip. Qed.

(** X13. A row whose inventory id, set number or set year cannot be resolved
    is left out of the year trends, of the decade colors and of every period
    coverage: these outputs are what they are without the row. *)
Theorem unjoined_row_is_left_out (logRankRound : nat -> nat -> nat -> Z) (t : Tables)
    (l1 l2 : list InventoryPart) (ip : InventoryPart) :
  inventoryParts t = l1 ++ ip :: l2 ->
  resolveYear t ip = None ->
  yearTrends t = yearTrends (withRows t (l1 ++ l2)) /\
  decadeColors t = decadeColors (withRows t (l1 ++ l2)) /\
  forall minYear,
    computePeriodCoverage logRankRound t minYear
    = computePeriodCoverage logRankRound (withRows t (l1 ++ l2)) minYear.
Proof.
  intros Hrows Hnone.
  assert (yearAgg t = yearAgg (withRows t (l1 ++ l2))) as Hyear.
  { unfold yearAgg. rewrite Hrows.
    change (inventoryParts (withRows t (l1 ++ l2))) with (l1 ++ l2).
    change (yearAggStep (withRows t (l1 ++ l2))) with (yearAggStep t).
    apply fold_left_skip. intros agg. unfold yearAggStep. now rewrite Hnone. }
  assert (decadeColorAgg t = decadeColorAgg (withRows t (l1 ++ l2))) as Hdecade.
  { unfold decadeColorAgg. rewrite Hrows.
    change (inventoryParts (withRows t (l1 ++ l2))) with (l1 ++ l2).
    change (decadeAggStep (withRows t (l1 ++ l2))) with (decadeAggStep t).
    apply fold_left_skip. intros agg. unfold decadeAggStep. now rewrite Hnone. }
  assert (forall skipYear, periodAgg t skipYear = periodAgg (withRows t (l1 ++ l2)) skipYear)
    as Hperiod.
  { intros skipYear. unfold periodAgg. rewrite Hrows.
    change (inventoryParts (withRows t (l1 ++ l2))) with (l1 ++ l2).
    change (periodStep (withRows t (l1 ++ l2))) with (periodStep t).
    apply fold_left_skip. intros [partAcc colorAcc]. unfold periodStep. now rewrite Hnone. }
  split; [ | split ].
  - unfold yearTrends, setsOnlyYearTrends, setsOnlyYearAgg, inventoryYears,
      inventoryYearTrends.
    change (inventoryTrend (withRows t (l1 ++ l2))) with (inventoryTrend t).
    change (sets (withRows t (l1 ++ l2))) with (sets t).
    now rewrite Hyear.
  - unfold decadeColors, decadeEntry, decadeColorData. now rewrite Hdecade.
  - intros minYear. unfold computePeriodCoverage, periodCoverage, periodPartFrequency,
      periodColorStats, periodPartsTotal, periodColorsTotal, periodParts, periodColors.
    change (partMap (withRows t (l1 ++ l2))) with (partMap t).
    now rewrite Hperiod.
Qed.

Lemma unjoined_row_is_left_out_witness :
  yearTrends strayInventory = yearTrends redBlue /\
  decadeColors strayInventory = decadeColors redBlue /\
  forall minYear,
    computePeriodCoverage noLogRank strayInventory minYear
    = computePeriodCoverage noLogRank redBlue minYear.
Proof.
  apply (unjoined_row_is_left_out noLogRank strayInventory (inventoryParts redBlue) []
           (mkRow "77" "A" "4" "9")).
  - reflexivity.
  - vm_compute. reflexivity.
Defined.

(** ** Nested periods *)

Lemma sumBy_le {A : Type} (f g : A -> Z) (l : list A) :
  (forall x, In x l -> f x <= g x) -> sumBy f l <= sumBy g l.
Proof.
  induction l as [|x l IH]; intros Hle; [ rewrite !sumBy_nil; lia | ].
  rewrite !sumBy_cons.
  assert (f x <= g x) by (apply Hle; now left).
  assert (sumBy f l <= sumBy g l) by (apply IH; intros y Hy; apply Hle; now right).
  lia.
Qed.

(** X14. With no negative quantity, a period that starts later never has a
    larger total: the total quantity of parts and of colors from [minYear2]
    on is at most that from an earlier [minYear1] on, which is at most the
    all-time total. *)
Theorem period_totals_nested (logRankRound : nat -> nat -> nat -> Z) (t : Tables)
    (minYear1 minYear2 : Z) :
  (forall ip, In ip (inventoryParts t) -> 0 <= qtyOf ip) ->
  minYear1 <= minYear2 ->
  total_quantity (pd_parts (computePeriodCoverage logRankRound t minYear2))
  <= total_quantity (pd_parts (computePeriodCoverage logRankRound t minYear1))
  <= totalPartsQuantity t /\
  total_quantity (pd_colors (computePeriodCoverage logRankRound t minYear2))
  <= total_quantity (pd_colors (computePeriodCoverage logRankRound t minYear1))
  <= totalPieces t.
Proof.
  intros Hnn Hle.
  cbn [computePeriodCoverage periodCoverage pd_parts pd_colors buildCoverageData
       total_quantity].
  rewrite !periodPartsTotal_rows, !periodColorsTotal_rows, totalPartsQuantity_rows.
  rewrite totalPieces_rows.
  assert (forall ip, keptYear t (fun year => year <? minYear2) ip = true ->
                     keptYear t (fun year => year <? minYear1) ip = true) as Hkept.
  { intros ip. unfold keptYear. destruct (resolveYear t ip) as [[setNum year]|]; [ | auto ].
    destruct (Z.ltb_spec year minYear2), (Z.ltb_spec year minYear1); simpl; auto; lia. }
  repeat split; apply sumBy_le; intros ip Hin; specialize (Hnn ip Hin);
    specialize (Hkept ip);
    destruct (keptYear t (fun year => year <? minYear2) ip),
             (keptYear t (fun year => year <? minYear1) ip),
             (colorKnown t ip); simpl; try lia;
    specialize (Hkept eq_refl); discriminate.
Qed.

Lemma period_totals_nested_witness :
  total_quantity (pd_parts (computePeriodCoverage noLogRank redBlue 2016))
  <= total_quantity (pd_parts (computePeriodCoverage noLogRank redBlue 2011))
  <= totalPartsQuantity redBlue /\
  total_quantity (pd_colors (computePeriodCoverage noLogRank redBlue 2016))
  <= total_quantity (pd_colors (computePeriodCoverage noLogRank redBlue 2011))
  <= totalPieces redBlue.
Proof.
  apply (period_totals_nested noLogRank redBlue 2011 2016).
  - intros ip Hin. simpl in Hin.
    destruct Hin as [<- | [<- | [<- | []]]]; vm_compute; discriminate.
  - lia.
Defined.

(** ** Decimal numerals and custom range keys *)

Lemma digits_step (c : ascii) (rest : string) (acc : option Z) (d : Z) :
  JS.digitValue 10 c = Some d ->
  JS.digits 10 (String c rest) acc
  = JS.digits 10 rest (Some (match acc with Some a => a * 10 + d | None => d end)).
Proof. intros Hd. cbn [JS.digits]. now rewrite Hd. Qed.

Ltac digit_step :=
  match goal with
  | |- JS.digits 10 (String ?c ?rest) ?acc = _ =>
      let d := eval vm_compute in (JS.digitValue 10 c) in
      match d with
      | Some ?v => rewrite (digits_step c rest acc v eq_refl)
      end
  end.

Lemma digits_acc (u : Decimal.uint) (a : Z) (acc : positive) :
  a = Zpos acc ->
  JS.digits 10 (NilEmpty.string_of_uint u) (Some a)
  = Some (Zpos (Pos.of_uint_acc u acc)).
Proof.
  revert a acc.
  induction u as [|u IH|u IH|u IH|u IH|u IH|u IH|u IH|u IH|u IH|u IH];
    intros a acc ->; cbn [NilEmpty.string_of_uint Pos.of_uint_acc];
    [ reflexivity
    | digit_step; apply IH;
      rewrite ?Pos2Z.inj_add, Pos2Z.inj_mul; lia .. ].
Qed.

Lemma digits_zero (u : Decimal.uint) (a : Z) :
  a = 0 ->
  JS.digits 10 (NilEmpty.string_of_uint u) (Some a) = Some (Z.of_N (Pos.of_uint u)).
Proof.
  revert a.
  induction u as [|u IH|u IH|u IH|u IH|u IH|u IH|u IH|u IH|u IH|u IH];
    intros a ->; cbn [NilEmpty.string_of_uint Pos.of_uint];
    [ reflexivity
    | digit_step; now apply IH
    | digit_step; now apply digits_acc .. ].
Qed.

Lemma digits_numeral (u : Decimal.uint) :
  u <> Decimal.Nil ->
  JS.digits 10 (NilEmpty.string_of_uint u) None = Some (Z.of_N (Pos.of_uint u)).
Proof.
  destruct u as [|u|u|u|u|u|u|u|u|u|u]; intros Hne; [ congruence | .. ];
    cbn [NilEmpty.string_of_uint Pos.of_uint];
    digit_step;
    [ now apply digits_zero | now apply digits_acc .. ].
Qed.

Lemma to_uint_not_Nil (n : N) : N.to_uint n <> Decimal.Nil.
Proof.
  intros E. pose proof (DecimalN.Unsigned.of_to n) as Hn. rewrite E in Hn.
  destruct n as [|p]; [ discriminate E | discriminate Hn ].
Qed.

Lemma decimal_NilEmpty (n : N) : decimal n = NilEmpty.string_of_uint (N.to_uint n).
Proof.
  unfold decimal, NilZero.string_of_uint.
  pose proof (to_uint_not_Nil n). now destruct (N.to_uint n).
Qed.

Lemma digits_decimal (n : N) : JS.digits 10 (decimal n) None = Some (Z.of_N n).
Proof.
  rewrite decimal_NilEmpty, digits_numeral by apply to_uint_not_Nil.
  change (Pos.of_uint (N.to_uint n)) with (N.of_uint (N.to_uint n)).
  now rewrite DecimalN.Unsigned.of_to.
Qed.

(** A numeral is a non-empty run of digits. *)
Lemma numeral_digits (u : Decimal.uint) (rest : string) :
  (match rest with String c _ => isDigit c = false | EmptyString => True end) ->
  takeDigits (NilEmpty.string_of_uint u ++ rest) = (NilEmpty.string_of_uint u, rest).
Proof.
  intros Hrest.
  induction u as [|u IH|u IH|u IH|u IH|u IH|u IH|u IH|u IH|u IH|u IH];
    cbn [NilEmpty.string_of_uint append];
    [ destruct rest as [|c rest]; [ reflexivity | simpl; now rewrite Hrest ]
    | cbn [takeDigits]; change (isDigit _) with true; cbv iota; now rewrite IH .. ].
Qed.

Lemma decimal_first (n : N) : exists c tail, decimal n = String c tail /\ isDigit c = true.
Proof.
  rewrite decimal_NilEmpty. pose proof (to_uint_not_Nil n) as Hne.
  destruct (N.to_uint n); [ congruence | .. ];
    cbn [NilEmpty.string_of_uint]; eexists; eexists; split; reflexivity.
Qed.

Lemma parseInt10_decimal (n : N) : parseInt10 (decimal n) = Some (Z.of_N n).
Proof.
  pose proof (digits_decimal n) as Hd.
  destruct (decimal_first n) as (c & tail & E & Hc). rewrite E in Hd |- *.
  unfold parseInt10. cbn [JS.trimStart].
  assert (JS.isWhite c = false) as ->.
  { revert Hc. unfold isDigit, JS.isWhite.
    destruct (Nat.leb_spec 48 (nat_of_ascii c)); [ | discriminate ].
    destruct (Nat.leb_spec (nat_of_ascii c) 13); [ lia | ].
    destruct (Nat.eqb_spec (nat_of_ascii c) 32); [ lia | ].
    now rewrite andb_false_r. }
  destruct (Ascii.eqb_spec c "-"%char) as [->|Hm]; [ discriminate Hc | ].
  destruct (Ascii.eqb_spec c "+"%char) as [->|Hp]; [ discriminate Hc | ].
  destruct c as [[] [] [] [] [] [] [] []]; try exact Hd; congruence.
Qed.

(** X15. A period key in the form the component documents, [custom_]
    followed by the start year in decimal, an underscore and the end year in
    decimal, is read by [parseCustomRange] as these two years, for years up
    to 2^53 (the integers that [parseInt] returns exactly). *)
Theorem parseCustomRange_round_trip (startY endY : N) :
  (startY <= 2 ^ 53)%N -> (endY <= 2 ^ 53)%N ->
  parseCustomRange ("custom_" ++ decimal startY ++ "_" ++ decimal endY)
  = Some (Z.of_N startY, Z.of_N endY).
Proof.
  intros _ _. unfold parseCustomRange, matchCustom.
  cbn [dropPrefix append Ascii.eqb Bool.eqb].
  rewrite decimal_NilEmpty at 1.
  rewrite numeral_digits by reflexivity. rewrite <- decimal_NilEmpty.
  destruct (decimal_first startY) as (c1 & tail1 & E1 & _). rewrite E1 at 1.
  rewrite <- (append_empty_r (decimal endY)) at 1.
  rewrite decimal_NilEmpty at 1. rewrite numeral_digits by exact I.
  rewrite <- decimal_NilEmpty.
  destruct (decimal_first endY) as (c2 & tail2 & E2 & _). rewrite E2 at 1.
  now rewrite !parseInt10_decimal.
Qed.

Lemma parseCustomRange_round_trip_witness :
  parseCustomRange ("custom_" ++ decimal 1992 ++ "_" ++ decimal 2003) = Some (1992, 2003).
Proof.
  apply (parseCustomRange_round_trip 1992 2003); vm_compute; discriminate.
Defined.

(** ** The historical trends chart *)

Lemma Permutation_filter {A : Type} (p : A -> bool) (l l' : list A) :
  Permutation l l' -> Permutation (filter p l) (filter p l').
Proof.
  induction 1 as [|x l l' _ IH|x y l|l l' l'' _ IH1 _ IH2]; simpl.
  - constructor.
  - destruct (p x); [ now constructor | exact IH ].
  - destruct (p x), (p y); try reflexivity. apply perm_swap.
  - now transitivity (filter p l').
Qed.

Lemma StronglySorted_filter {A : Type} (R : A -> A -> Prop) (p : A -> bool) (l : list A) :
  StronglySorted R l -> StronglySorted R (filter p l).
Proof.
  induction 1 as [|x l Hl IH Hx]; simpl; [ constructor | ].
  destruct (p x); [ | exact IH ].
  constructor; [ exact IH | ].
  apply Forall_forall. intros z Hz. apply filter_In in Hz.
  exact (proj1 (Forall_forall _ _) Hx z (proj1 Hz)).
Qed.

Section AscendingZ.
Context {A : Type} (key : A -> Z).

Lemma insert_ascendingZ (x : A) (l : list A) :
  StronglySorted (fun a b => key a <= key b) l ->
  StronglySorted (fun a b => key a <= key b) (insert (fun y x => key y <? key x) x l).
Proof.
  induction 1 as [|y l Hl IH Hy]; simpl.
  - repeat constructor.
  - destruct (Z.ltb_spec (key y) (key x)) as [Hlt|Hge].
    + constructor; [ exact IH | ].
      apply Forall_forall. intros z Hz.
      apply (Permutation_in _ (insert_perm _ x l)) in Hz.
      destruct Hz as [<- | Hz]; [ lia | ].
      exact (proj1 (Forall_forall _ _) Hy z Hz).
    + constructor; [ constructor; assumption | ].
      constructor; [ exact Hge | ].
      eapply Forall_impl; [ | exact Hy ].
      intros z Hz. simpl in Hz. lia.
Qed.

Lemma sort_ascendingZ (l : list A) :
  StronglySorted (fun a b => key a <= key b) (sort (fun y x => key y <? key x) l).
Proof.
  induction l as [|x l IH]; simpl; [ constructor | now apply insert_ascendingZ ].
Qed.

Lemma ascendingZ_strict (l : list A) :
  StronglySorted (fun a b => key a <= key b) l -> NoDup (map key l) ->
  StronglySorted (fun a b => key a < key b) l.
Proof.
  induction 1 as [|y l Hl IH Hy]; intros Hnd; [ constructor | ].
  simpl in Hnd. inversion Hnd as [|k ks Hnotin Hnd']; subst.
  constructor; [ now apply IH | ].
  apply Forall_forall. intros z Hz.
  pose proof (proj1 (Forall_forall _ _) Hy z Hz) as Hle. simpl in Hle.
  assert (key z <> key y).
  { intros E. apply Hnotin. rewrite <- E. now apply in_map. }
  lia.
Qed.
End AscendingZ.

Lemma filter_all {A : Type} (p : A -> bool) (l : list A) :
  (forall x, In x l -> p x = true) -> filter p l = l.
Proof.
  induction l as [|x l IH]; intros Hall; simpl; [ reflexivity | ].
  rewrite (Hall x (or_introl eq_refl)). f_equal. apply IH. intros z Hz. apply Hall. now right.
Qed.

Lemma filter_none {A : Type} (p : A -> bool) (l : list A) :
  (forall x, In x l -> p x = false) -> filter p l = [].
Proof.
  induction l as [|x l IH]; intros Hall; simpl; [ reflexivity | ].
  rewrite (Hall x (or_introl eq_refl)). apply IH. intros z Hz. apply Hall. now right.
Qed.

(** X16. The trends chart puts the emitted year trends in strictly ascending
    order of year, and its unique-parts line runs over exactly the
    inventory-joined years, the sets-only years (whose unique_parts is null)
    being left out of it. *)
Theorem trends_chart_series (t : Tables) :
  StronglySorted (fun a b => yt_year a < yt_year b) (trendsSortedData (yearTrends t)) /\
  Permutation (trendsSortedData (yearTrends t)) (yearTrends t) /\
  StronglySorted (fun a b => yt_year a < yt_year b) (dataWithUniqueParts (yearTrends t)) /\
  Permutation (dataWithUniqueParts (yearTrends t)) (inventoryYearTrends t).
Proof.
  assert (Hperm : Permutation (trendsSortedData (yearTrends t))
                              (inventoryYearTrends t ++ setsOnlyYearTrends t)).
  { unfold trendsSortedData. rewrite sort_perm. apply yearTrends_perm. }
  assert (Hsorted : StronglySorted (fun a b => yt_year a < yt_year b)
                                   (trendsSortedData (yearTrends t))).
  { apply ascendingZ_strict; [ apply (sort_ascendingZ yt_year) | ].
    eapply Permutation_NoDup; [ | apply (year_groups_NoDup t) ].
    apply Permutation_map. now symmetry. }
  split; [ exact Hsorted | ].
  split; [ apply sort_perm | ].
  split; [ now apply StronglySorted_filter | ].
  unfold dataWithUniqueParts.
  rewrite (Permutation_filter _ _ _ Hperm), filter_app.
  rewrite filter_all, filter_none, app_nil_r; [ reflexivity | | ].
  - intros y Hy. unfold setsOnlyYearTrends in Hy. apply in_map_iff in Hy.
    now destruct Hy as ([year data] & <- & _).
  - intros y Hy. unfold inventoryYearTrends in Hy. apply in_map_iff in Hy.
    now destruct Hy as ([year data] & <- & _).
Qed.

(** ** Summary figures read off a range curve *)

Lemma rangeCurveFrom_length (total : Z) (l : list NameQty) (index : nat) (cum : Z) :
  List.length (rangeCurveFrom total index cum l) = List.length l.
Proof.
  revert index cum. induction l as [|x l IH]; intros index cum; simpl; [ reflexivity | ].
  now rewrite IH.
Qed.

Lemma rangeCurveFrom_find (total : Z) (l : list NameQty) (index : nat) (cum : Z) (n : nat) :
  option_map cp_cumulative_percent
    (find (fun d => Nat.eqb (cp_rank d) n) (rangeCurveFrom total index cum l))
  = if ((index + 1 <=? n) && (n <=? index + List.length l))%nat
    then Some (JS.times100 (JS.div (cum + sumBy nq_quantity (firstn (n - index) l)) total))
    else None.
Proof.
  revert index cum. induction l as [|x l IH]; intros index cum.
  - simpl. destruct (Nat.leb_spec (index + 1) n), (Nat.leb_spec n (index + 0));
      try reflexivity; lia.
  - cbn [rangeCurveFrom find cp_rank List.length].
    destruct (Nat.eqb_spec (index + 1) n) as [<-|Hne].
    + replace (index + 1 - index)%nat with 1%nat by lia.
      cbn [firstn option_map cp_cumulative_percent].
      rewrite sumBy_cons, sumBy_nil.
      destruct (Nat.leb_spec (index + 1) (index + 1)),
               (Nat.leb_spec (index + 1) (index + S (List.length l))); try lia.
      cbn [andb]. do 3 f_equal. lia.
    + rewrite IH.
      destruct (Nat.leb_spec (S index + 1) n), (Nat.leb_spec n (S index + List.length l)),
               (Nat.leb_spec (index + 1) n), (Nat.leb_spec n (index + S (List.length l)));
        cbn [andb]; try reflexivity; try lia.
      replace (n - index)%nat with (S (n - S index)) by lia.
      cbn [firstn]. rewrite sumBy_cons. do 3 f_equal. lia.
Qed.

Lemma rangeCurveFrom_nth (total : Z) (l : list NameQty) (index : nat) (cum : Z) (k : nat) :
  option_map cp_cumulative_percent (nth_error (rangeCurveFrom total index cum l) k)
  = if (k <? List.length l)%nat
    then Some (JS.times100 (JS.div (cum + sumBy nq_quantity (firstn (S k) l)) total))
    else None.
Proof.
  revert index cum k. induction l as [|x l IH]; intros index cum k.
  - now destruct k.
  - destruct k as [|k].
    + cbn [rangeCurveFrom nth_error option_map cp_cumulative_percent firstn].
      rewrite sumBy_cons, sumBy_nil. cbn. do 3 f_equal. lia.
    + cbn [rangeCurveFrom nth_error List.length]. rewrite IH.
      change (S k <? S (List.length l))%nat with (k <? List.length l)%nat.
      destruct (k <? List.length l)%nat; [ | reflexivity ].
      cbn [firstn]. rewrite (sumBy_cons _ x). do 3 f_equal. lia.
Qed.

(** X17. On the curve built for a custom range, the coverage of the top [n]
    items is the unrounded share of the [n] largest quantities in the range
    total when the curve has a point of rank [n], and 0 when it has none
    ([n] is 0 or greater than the number of items). *)
Theorem top_n_of_range_curve (total : Z) (sorted : list NameQty) (n : nat) :
  findCoverageForTopN (rangeCurveFrom total 0 0 sorted) n
  = if ((1 <=? n) && (n <=? List.length sorted))%nat
    then JS.times100 (JS.div (sumBy nq_quantity (firstn n sorted)) total)
    else JS.Num 0.
Proof.
  unfold findCoverageForTopN.
  pose proof (rangeCurveFrom_find total sorted 0 0 n) as H.
  rewrite Nat.sub_0_r in H. cbn [Nat.add Z.add] in H.
  destruct (find _ _) as [point|]; cbn [option_map] in H;
    destruct ((1 <=? n) && (n <=? List.length sorted))%nat; congruence.
Qed.

(** X18. On the curve built for a custom range, the Pareto figure is 0 when
    there are fewer than five items, and otherwise the unrounded share, in
    the range total, of the largest fifth of the items (their number divided
    by five, rounded down). *)
Theorem pareto_of_range_curve (total : Z) (sorted : list NameQty) :
  calculateParetoCoverage (rangeCurveFrom total 0 0 sorted)
  = if (List.length sorted <? 5)%nat then JS.Num 0
    else JS.times100
           (JS.div (sumBy nq_quantity (firstn (List.length sorted / 5) sorted)) total).
Proof.
  unfold calculateParetoCoverage.
  rewrite rangeCurveFrom_length.
  destruct (rangeCurveFrom total 0 0 sorted) as [|p curve] eqn:E.
  - apply (f_equal (@List.length _)) in E. rewrite rangeCurveFrom_length in E.
    destruct sorted; [ reflexivity | discriminate ].
  - rewrite <- E. clear E.
    destruct (Nat.ltb_spec (List.length sorted) 5) as [Hlt|Hge].
    + now rewrite Nat.div_small.
    + pose proof (Nat.div_str_pos (List.length sorted) 5 ltac:(lia)) as Hpos.
      pose proof (Nat.Div0.div_le_upper_bound (List.length sorted) 5 (List.length sorted)
                    ltac:(lia)) as Hle.
      destruct (List.length sorted / 5)%nat as [|before] eqn:Ediv; [ lia | ].
      pose proof (rangeCurveFrom_nth total sorted 0 0 before) as H.
      destruct (Nat.ltb_spec before (List.length sorted)); [ | lia ].
      destruct (nth_error _ before) as [top20Point|]; cbn [option_map] in H;
        [ | discriminate ].
      injection H as ->. do 3 f_equal.
Qed.

(** ** The date range filter *)

Lemma yearOptions_In (props : FilterProps) (y : Z) :
  In y (yearOptions props) <-> minYear props <= y <= maxYear props.
Proof.
  unfold yearOptions. rewrite in_map_iff. split.
  - intros (k & <- & Hk). apply in_seq in Hk. lia.
  - intros Hy. exists (Z.to_nat (maxYear props - y)). split; [ lia | ].
    apply in_seq. lia.
Qed.

Lemma filterStep_bounds (props : FilterProps) (currentYear : Z) (st : FilterState)
    (ev : FilterEvent) :
  minYear props <= currentYear - 10 -> currentYear - 5 <= maxYear props ->
  pickedFromOptions props ev ->
  minYear props <= customStart st <= customEnd st /\ customEnd st <= maxYear props ->
  let next := filterStep props currentYear st ev in
  rangeInBounds props (snd next) /\
  (minYear props <= customStart (fst next) <= customEnd (fst next) /\
   customEnd (fst next) <= maxYear props).
Proof.
  intros Hmin Hmax Hev Hst. unfold rangeInBounds.
  destruct ev as [preset|year|year]; simpl in *.
  - destruct preset; simpl; lia.
  - apply yearOptions_In in Hev. lia.
  - apply yearOptions_In in Hev. lia.
Qed.

(** X19. Started without an initial range, or with one that lies within the
    years of the filter and is not inverted, the filter reports after every
    preset click and every pick in the two year dropdowns a range whose start
    is not after its end and that lies within [minYear, maxYear]; this needs
    [currentYear - 10] not to be before [minYear] and [currentYear - 5] not
    to be after [maxYear]. *)
Theorem filter_reports_ordered_ranges (props : FilterProps) (currentYear : Z)
    (initialRange : option YearRange) (events : list FilterEvent) :
  minYear props <= currentYear - 10 -> currentYear - 5 <= maxYear props ->
  match initialRange with Some r => rangeInBounds props r | None => True end ->
  Forall (pickedFromOptions props) events ->
  Forall (fun reported => rangeInBounds props (snd reported))
         (filterRun props currentYear (initialFilterState props currentYear initialRange)
                    events).
Proof.
  intros Hmin Hmax Hinit Hevents.
  assert (Hst : minYear props
                <= customStart (initialFilterState props currentYear initialRange)
                <= customEnd (initialFilterState props currentYear initialRange) /\
                customEnd (initialFilterState props currentYear initialRange)
                <= maxYear props).
  { unfold rangeInBounds in Hinit. destruct initialRange as [r|]; simpl; lia. }
  generalize dependent (initialFilterState props currentYear initialRange).
  induction Hevents as [|ev events Hev _ IH]; intros st Hst; simpl; [ constructor | ].
  destruct (filterStep_bounds props currentYear st ev Hmin Hmax Hev Hst) as [Hr Hnext].
  constructor; [ exact Hr | now apply IH ].
Qed.

Lemma filter_reports_ordered_ranges_witness :
  Forall (fun reported => rangeInBounds {| minYear := 1949; maxYear := 2026 |} (snd reported))
         (filterRun {| minYear := 1949; maxYear := 2026 |} 2026
            (initialFilterState {| minYear := 1949; maxYear := 2026 |} 2026 None)
            [ChangeStart 2010; ChangeEnd 2001; ClickPreset last5; ClickPreset custom]).
Proof.
  apply (filter_reports_ordered_ranges {| minYear := 1949; maxYear := 2026 |} 2026 None).
  - simpl. lia.
  - simpl. lia.
  - exact I.
  - repeat constructor; apply yearOptions_In; simpl; lia.
Defined.

(** X20. The range a preset button reports is recognised again as that preset
    when the filter is started with it, unless the range of [last5] or
    [last10] happens to start at [minYear] (it is then taken for
    [allTime]). *)
Theorem preset_round_trip (props : FilterProps) (currentYear : Z) (st : FilterState)
    (preset : PresetOption) :
  preset <> custom ->
  minYear props <> currentYear - 5 -> minYear props <> currentYear - 10 ->
  getInitialPreset props currentYear
    (Some (snd (handlePresetClick props currentYear st preset))) = preset.
Proof.
  intros Hpreset H5 H10. unfold getInitialPreset, sameRange.
  destruct preset; cbn [handlePresetClick snd yr_startYear yr_endYear];
    [ | | | congruence ];
    rewrite ?Z.eqb_refl; cbn [andb];
    repeat match goal with
           | |- context [?a =? ?b] => destruct (Z.eqb_spec a b); try lia
           end; reflexivity.
Qed.

Lemma preset_round_trip_witness :
  getInitialPreset {| minYear := 1949; maxYear := 2026 |} 2026
    (Some (snd (handlePresetClick {| minYear := 1949; maxYear := 2026 |} 2026
                  {| activePreset := allTime; customStart := 1949; customEnd := 2026 |}
                  last10))) = last10.
Proof.
  apply (preset_round_trip {| minYear := 1949; maxYear := 2026 |} 2026); simpl;
    [ discriminate | lia | lia ].
Defined.

(** X21. When [minYear] is more than ten years back, the range reported by
    each of the three preset buttons selects the precomputed period of the
    same name. *)
Theorem preset_selects_period (props : FilterProps) (currentYear : Z) (st : FilterState)
    (preset : PresetOption) (period : TimePeriod) :
  10 < currentYear - minYear props ->
  periodOfPreset preset = Some period ->
  yearRangeToTimePeriod (snd (handlePresetClick props currentYear st preset)) currentYear
  = period.
Proof.
  intros Hmin Hperiod. unfold yearRangeToTimePeriod.
  destruct preset; cbn [handlePresetClick snd yr_startYear]; simpl in Hperiod;
    try discriminate; injection Hperiod as <-;
    repeat match goal with
           | |- context [?a <=? ?b] => destruct (Z.leb_spec a b); try lia
           end; reflexivity.
Qed.

Lemma preset_selects_period_witness :
  yearRangeToTimePeriod
    (snd (handlePresetClick {| minYear := 1949; maxYear := 2026 |} 2026
            {| activePreset := allTime; customStart := 1949; customEnd := 2026 |} last5))
    2026 = last_5_years.
Proof.
  apply (preset_selects_period {| minYear := 1949; maxYear := 2026 |} 2026);
    [ simpl; lia | reflexivity ].
Defined.

(** ** The threshold markers of the coverage curve *)

Lemma In_keepSome {A : Type} (x : A) (l : list (option A)) :
  In x (keepSome l) <-> In (Some x) l.
Proof.
  induction l as [|[y|] l IH]; simpl.
  - tauto.
  - rewrite IH. split; intros [E | Hin]; auto; left; congruence.
  - rewrite IH. split; [ auto | ]. intros [E | Hin]; [ discriminate | exact Hin ].
Qed.

Lemma findIndexGe_Some (curve : list CurvePoint) (level : Z) (i k : nat) :
  findIndexGe curve level i = Some k ->
  exists p, nth_error curve (k - i) = Some p /\ (i <= k)%nat /\
            JS.ge (cp_cumulative_percent p) level = true.
Proof.
  revert i. induction curve as [|x curve IH]; intros i; simpl; [ discriminate | ].
  destruct (JS.ge (cp_cumulative_percent x) level) eqn:E.
  - intros [= <-]. exists x. rewrite Nat.sub_diag. auto.
  - intros Hk. destruct (IH (S i) Hk) as (p & Hnth & Hle & Hge).
    exists p. replace (k - i)%nat with (S (k - S i)) by lia. simpl. repeat split; [ exact Hnth | lia | exact Hge ].
Qed.

(** A marker is a point of the curve that reaches its threshold. *)
Lemma thresholdPoint_Some (data : list CurvePoint) (threshold : Z) (tp : ThresholdPoint) :
  thresholdPoint data threshold = Some tp ->
  exists k p, findIndexGe data threshold 0 = Some k /\ nth_error data k = Some p /\
    JS.ge (cp_cumulative_percent p) threshold = true /\
    tp = {| tp_threshold := threshold; tp_rank := cp_rank p; tp_name := cp_name p;
            tp_cumulative := cp_cumulative_percent p |}.
Proof.
  unfold thresholdPoint.
  destruct (findIndexGe data threshold 0) as [k|] eqn:E; [ | discriminate ].
  destruct (findIndexGe_Some _ _ _ _ E) as (p & Hnth & _ & Hge).
  rewrite Nat.sub_0_r in Hnth. rewrite Hnth. intros [= <-].
  exists k, p. auto.
Qed.

Lemma thresholdPoints_In (data : list CurvePoint) (levels : list Z) (tp : ThresholdPoint) :
  In tp (thresholdPoints data levels) ->
  exists level, In level levels /\ thresholdPoint data level = Some tp.
Proof.
  unfold thresholdPoints. destruct data as [|p data]; [ intros [] | ].
  rewrite In_keepSome, in_map_iff. intros (level & E & Hin). eauto.
Qed.

Section MarkerFacts.
Context {A : Type} (name : A -> string) (quantity : A -> Z) (total : Z).

Lemma periodItemsFrom_ranks (l : list A) (index : nat) (cum : Z) :
  map pi_rank (periodItemsFrom name quantity total index cum l)
  = seq (index + 1) (List.length l).
Proof.
  revert index cum. induction l as [|x l IH]; intros index cum; simpl; [ reflexivity | ].
  rewrite IH. now replace (S index + 1)%nat with (S (index + 1)) by lia.
Qed.

(** The scan of the full list stops at or before every item that reaches
    the threshold. *)
Lemma scanThreshold_first (l : list A) (index : nat) (cum : Z) (threshold : Z)
    (item : PeriodItem) :
  In item (periodItemsFrom name quantity total index cum l) ->
  reaches threshold item = true ->
  exists count,
    scanThreshold (periodItemsFrom name quantity total index cum l) threshold index
    = Some count /\ (count <= pi_rank item)%nat.
Proof.
  revert index cum. induction l as [|x l IH]; intros index cum; [ intros [] | ].
  cbn [periodItemsFrom scanThreshold]. intros Hin Hreach.
  match goal with |- context [reaches threshold ?first] => set (head := first) in * end.
  destruct (reaches threshold head) eqn:E.
  - exists (index + 1)%nat. split; [ reflexivity | ].
    destruct Hin as [<- | Hin]; [ simpl; lia | ].
    apply (in_map pi_rank) in Hin. rewrite periodItemsFrom_ranks in Hin.
    apply in_seq in Hin. lia.
  - destruct Hin as [<- | Hin]; [ congruence | ]. now apply IH.
Qed.

(** On the full curve the scan and the marker search stop at the same
    point, whose rank is its position. *)
Lemma findIndexGe_full (l : list A) (index : nat) (cum : Z) (threshold : Z) (k : nat) :
  findIndexGe (map curveOfPeriodItem (periodItemsFrom name quantity total index cum l))
              threshold index = Some k ->
  scanThreshold (periodItemsFrom name quantity total index cum l) threshold index
  = Some (k + 1)%nat /\
  exists p,
    nth_error (map curveOfPeriodItem (periodItemsFrom name quantity total index cum l))
              (k - index) = Some p /\ cp_rank p = (k + 1)%nat.
Proof.
  revert index cum. induction l as [|x l IH]; intros index cum; [ discriminate | ].
  cbn [periodItemsFrom map findIndexGe scanThreshold].
  unfold reaches. cbn [cumulativeOf PeriodItem_Covered curveOfPeriodItem
                       cp_cumulative_percent pi_cumulative_percent].
  destruct (JS.ge (guardedPercent (cum + quantity x) total) threshold).
  - intros [= <-]. split; [ reflexivity | ].
    rewrite Nat.sub_diag. eexists. split; reflexivity.
  - intros Hk. destruct (IH _ _ Hk) as (Hscan & p & Hnth & Hrank).
    split; [ exact Hscan | ]. exists p. split; [ | exact Hrank ].
    apply findIndexGe_Some in Hk. destruct Hk as (_ & _ & Hle & _).
    replace (k - index)%nat with (S (k - S index)) by lia. exact Hnth.
Qed.

Variable logRankRound : nat -> nat -> nat -> Z.

Lemma sampled_curve_incl (l : list A) :
  let full := map curveOfPeriodItem (periodItemsFrom name quantity total 0 0 l) in
  incl (sampleCurvePoints logRankRound cp_rank full defaultMaxPoints) full.
Proof.
  intros full.
  destruct (sampleCurvePoints_span logRankRound cp_rank full defaultMaxPoints) as [Hsame Hsampled].
  destruct (Nat.le_gt_cases (List.length full) defaultMaxPoints) as [Hle|Hgt].
  - rewrite (Hsame Hle). apply incl_refl.
  - assert (Hnd : NoDup (map cp_rank full)).
    { unfold full. rewrite map_map.
      change (fun x => cp_rank (curveOfPeriodItem x)) with pi_rank.
      rewrite periodItemsFrom_ranks. apply seq_NoDup. }
    unfold defaultMaxPoints in Hgt.
    destruct full as [|first rest] eqn:E; [ simpl in Hgt; lia | ].
    rewrite <- E in *.
    assert (Hhd : hd_error full = Some first) by now rewrite E.
    apply (Hsampled Hgt ltac:(lia) Hnd first Hhd).
Qed.

Lemma marker_rank (l : list A) (levels : list Z) (tp : ThresholdPoint) :
  let items := periodItemsFrom name quantity total 0 0 l in
  let full := map curveOfPeriodItem items in
  In tp (thresholdPoints (sampleCurvePoints logRankRound cp_rank full defaultMaxPoints)
                         levels) ->
  In (tp_threshold tp) levels /\
  JS.ge (tp_cumulative tp) (tp_threshold tp) = true /\
  (findThresholdIndex items (tp_threshold tp) <= tp_rank tp)%nat /\
  ((List.length items <= defaultMaxPoints)%nat ->
   tp_rank tp = findThresholdIndex items (tp_threshold tp)).
Proof.
  intros items full Hin.
  apply thresholdPoints_In in Hin. destruct Hin as (level & Hlevel & Hpoint).
  pose proof Hpoint as Hpoint'.
  apply thresholdPoint_Some in Hpoint. destruct Hpoint as (k & p & Hfind & Hnth & Hge & ->).
  cbn [tp_threshold tp_rank tp_cumulative].
  split; [ exact Hlevel | ]. split; [ exact Hge | ]. split.
  - apply nth_error_In in Hnth. apply (sampled_curve_incl l) in Hnth.
    fold items in Hnth. apply in_map_iff in Hnth. destruct Hnth as (item & <- & Hitem).
    destruct (scanThreshold_first l 0 0 level item Hitem Hge) as (count & Hscan & Hle).
    unfold findThresholdIndex. fold items. unfold items at 1. now rewrite Hscan.
  - intros Hsmall.
    destruct (sampleCurvePoints_span logRankRound cp_rank full defaultMaxPoints) as [Hsame _].
    assert (Hlen : (List.length full <= defaultMaxPoints)%nat).
    { unfold full. now rewrite length_map. }
    rewrite (Hsame Hlen) in Hfind, Hnth.
    destruct (findIndexGe_full l 0 0 level k Hfind) as (Hscan & q & Hq & Hrank).
    rewrite Nat.sub_0_r in Hq. fold items in Hq. fold full in Hq.
    assert (q = p) as -> by congruence.
    unfold findThresholdIndex, items. rewrite Hscan. exact Hrank.
Qed.
End MarkerFacts.

(** X22. A threshold marker drawn on the stored curve of a period (which is
    sampled when the period has more than 500 items) belongs to one of the
    given thresholds, sits on a point that reaches this threshold, and never
    sits at a lower rank than the count the threshold summary reports for
    it; when the period has at most 500 items the two are equal.  This holds
    for the parts curve and for the colors curve. *)
Theorem marker_not_before_threshold (logRankRound : nat -> nat -> nat -> Z) (t : Tables)
    (skipYear : Z -> bool) (levels : list Z) (tp : ThresholdPoint) :
  (forall data,
     pd_parts_curve (periodCoverage logRankRound t skipYear) = Some data ->
     In tp (thresholdPoints data levels) ->
     In (tp_threshold tp) levels /\
     JS.ge (tp_cumulative tp) (tp_threshold tp) = true /\
     (findThresholdIndex (periodPartFrequency t skipYear) (tp_threshold tp)
      <= tp_rank tp)%nat /\
     ((List.length (periodPartFrequency t skipYear) <= 500)%nat ->
      tp_rank tp = findThresholdIndex (periodPartFrequency t skipYear) (tp_threshold tp))) /\
  (forall data,
     pd_colors_curve (periodCoverage logRankRound t skipYear) = Some data ->
     In tp (thresholdPoints data levels) ->
     In (tp_threshold tp) levels /\
     JS.ge (tp_cumulative tp) (tp_threshold tp) = true /\
     (findThresholdIndex (periodColorStats t skipYear) (tp_threshold tp)
      <= tp_rank tp)%nat /\
     ((List.length (periodColorStats t skipYear) <= 500)%nat ->
      tp_rank tp = findThresholdIndex (periodColorStats t skipYear) (tp_threshold tp))).
Proof.
  split; intros data Hdata Hin; cbn [periodCoverage pd_parts_curve pd_colors_curve] in Hdata;
    injection Hdata as <-.
  - exact (marker_rank _ _ _ logRankRound _ levels tp Hin).
  - exact (marker_rank _ _ _ logRankRound _ levels tp Hin).
Qed.

Lemma marker_not_before_threshold_witness :
  (findThresholdIndex (periodPartFrequency redBlue (fun _ => false)) 80 <= 2)%nat /\
  2%nat = findThresholdIndex (periodPartFrequency redBlue (fun _ => false)) 80.
Proof.
  pose (tp := {| tp_threshold := 80; tp_rank := 2; tp_name := "Unknown";
                 tp_cumulative := JS.Num (100 # 1) |}).
  destruct (proj1 (marker_not_before_threshold noLogRank redBlue (fun _ => false)
                     [50; 80; 90; 95; 99] tp)
              (sampleCurvePoints noLogRank cp_rank
                 (map curveOfPeriodItem (periodPartFrequency redBlue (fun _ => false)))
                 defaultMaxPoints)
              eq_refl)
    as (_ & _ & Hle & Heq).
  - vm_compute. right. left. reflexivity.
  - split; [ exact Hle | ]. apply Heq. vm_compute. lia.
Defined.

(** ** The curve and the totals of a custom range *)

Lemma Forall_entries_set (Q : string * NameQty -> Prop) (m : Map string NameQty)
    (k : string) (v : NameQty) :
  Forall Q m -> Q (k, v) -> Forall Q (map_set String.eqb m k v).
Proof.
  intros Hm Hv. induction Hm as [|[k0 v0] m H0 Hm IH]; simpl.
  - now repeat constructor.
  - destruct (String.eqb_spec k0 k) as [->|Hne]; constructor; auto.
Qed.

Lemma addCurveItem_namedSums (st : Map string NameQty * Z) (item : CurvePoint) :
  namedSums st -> namedSums (addCurveItem st item).
Proof.
  destruct st as [quantities total]. intros (Hsum & Hnd & Hnames).
  cbn [fst snd] in *. unfold addCurveItem, namedSums.
  destruct (map_get String.eqb quantities (cp_name item)) as [existing|] eqn:G;
    cbn [fst snd].
  - split; [ | split ].
    + rewrite sum_values_set, G. simpl. lia.
    + now apply (map_keys_set_NoDup String.eqb Seqb_eq).
    + apply Forall_entries_set; [ exact Hnames | ]. simpl.
      apply (map_get_In String.eqb Seqb_eq) in G.
      exact (proj1 (Forall_forall _ _) Hnames _ G).
  - split; [ | split ].
    + rewrite sum_values_set, G. simpl. lia.
    + now apply (map_keys_set_NoDup String.eqb Seqb_eq).
    + now apply Forall_entries_set.
Qed.

Lemma addCurve_namedSums (st : Map string NameQty * Z) (curve : option (list CurvePoint)) :
  namedSums st -> namedSums (addCurve st curve).
Proof.
  intros Hst. destruct curve as [items|]; [ | exact Hst ].
  simpl. apply fold_left_inv; [ exact Hst | ].
  intros a b. apply addCurveItem_namedSums.
Qed.

Lemma collectYears_namedSums (byPeriod : Map string PeriodDataWithCurves) (years : list Z)
    (st : (Map string NameQty * Z) * (Map string NameQty * Z)) :
  namedSums (fst st) /\ namedSums (snd st) ->
  namedSums (fst (fold_left (collectYear byPeriod) years st)) /\
  namedSums (snd (fold_left (collectYear byPeriod) years st)).
Proof.
  intros Hst. apply fold_left_inv; [ exact Hst | ].
  intros a year [Hp Hc]. unfold collectYear.
  destruct (map_get String.eqb byPeriod (yearKey year)) as [yearData|]; [ | now split ].
  cbn [fst snd]. split; now apply addCurve_namedSums.
Qed.

Section RangeCurveFacts.
Variable total : Z.

Lemma rangeCurveFrom_quantities (l : list NameQty) (index : nat) (cum : Z) :
  map cp_quantity (rangeCurveFrom total index cum l) = map nq_quantity l.
Proof.
  revert index cum. induction l as [|x l IH]; intros index cum; simpl; [ reflexivity | ].
  now rewrite IH.
Qed.

Lemma rangeCurveFrom_names (l : list NameQty) (index : nat) (cum : Z) :
  map cp_name (rangeCurveFrom total index cum l) = map nq_name l.
Proof.
  revert index cum. induction l as [|x l IH]; intros index cum; simpl; [ reflexivity | ].
  now rewrite IH.
Qed.

Lemma rangeCurveFrom_ranks (l : list NameQty) (index : nat) (cum : Z) :
  map cp_rank (rangeCurveFrom total index cum l) = seq (index + 1) (List.length l).
Proof.
  revert index cum. induction l as [|x l IH]; intros index cum; simpl; [ reflexivity | ].
  rewrite IH. now replace (S index + 1)%nat with (S (index + 1)) by lia.
Qed.

Lemma rangeCurveFrom_last (l : list NameQty) (index : nat) (cum : Z) :
  l <> [] ->
  option_map cp_cumulative_percent (lastOf (rangeCurveFrom total index cum l))
  = Some (JS.times100 (JS.div (cum + sumBy nq_quantity l) total)).
Proof.
  revert index cum. induction l as [|x l IH]; intros index cum Hne; [ congruence | ].
  destruct l as [|y l].
  - simpl. rewrite sumBy_cons, sumBy_nil. do 3 f_equal. lia.
  - change (lastOf (rangeCurveFrom total index cum (x :: y :: l)))
      with (lastOf (rangeCurveFrom total (S index) (cum + nq_quantity x) (y :: l))).
    rewrite IH by discriminate. rewrite (sumBy_cons _ x). do 3 f_equal. lia.
Qed.
End RangeCurveFacts.

Lemma sumBy_as_map {A : Type} (f : A -> Z) (l : list A) :
  sumBy f l = sumBy (fun z => z) (map f l).
Proof. now rewrite sumBy_map. Qed.

Lemma StronglySorted_by_map {A B : Type} (f g : A -> Z) (h : B -> Z) (la : list A)
    (lb : list B) :
  map f la = map h lb ->
  StronglySorted (fun a b => h b <= h a) lb ->
  StronglySorted (fun a b => f b <= f a) la.
Proof.
  intros Hmap Hsorted. revert la Hmap.
  induction Hsorted as [|y lb Hlb IH Hy]; intros la Hmap.
  - destruct la; [ constructor | discriminate ].
  - destruct la as [|x la]; [ discriminate | ].
    simpl in Hmap. injection Hmap as Hx Hrest.
    constructor; [ now apply IH | ].
    apply Forall_forall. intros z Hz. apply (in_map f) in Hz. rewrite Hrest in Hz.
    apply in_map_iff in Hz. destruct Hz as (w & Hw & Hin).
    rewrite Hx, <- Hw. exact (proj1 (Forall_forall _ _) Hy w Hin).
Qed.

Lemma rangeCurve_ok (st : Map string NameQty * Z) :
  namedSums st ->
  let sorted := sort (byQuantityDesc nq_quantity) (map_values (fst st)) in
  let curve := rangeCurveFrom (snd st) 0 0 sorted in
  rangeCurveOk (rangeCoverage sorted curve (snd st)) (Some curve).
Proof.
  destruct st as [quantities total]. intros (Hsum & Hnd & Hnames) sorted curve.
  cbn [fst snd] in *.
  pose proof (sort_perm (byQuantityDesc nq_quantity) (map_values quantities)) as Hperm.
  fold sorted in Hperm.
  assert (Htotal : sumBy nq_quantity sorted = total).
  { rewrite Hsum. now apply sumBy_perm. }
  exists curve. cbn [rangeCoverage total_unique total_quantity].
  split; [ reflexivity | ].
  split; [ unfold curve; now rewrite rangeCurveFrom_length | ].
  split.
  { rewrite sumBy_as_map. unfold curve. rewrite rangeCurveFrom_quantities.
    now rewrite <- sumBy_as_map. }
  split.
  { unfold curve. now rewrite rangeCurveFrom_ranks, rangeCurveFrom_length. }
  split.
  { unfold curve. rewrite rangeCurveFrom_names.
    eapply Permutation_NoDup; [ apply Permutation_map; symmetry; exact Hperm | ].
    replace (map nq_name (map_values quantities)) with (map_keys quantities); [ exact Hnd | ].
    unfold map_values, map_keys. rewrite map_map. apply map_ext_in.
    intros e He. symmetry. exact (proj1 (Forall_forall _ _) Hnames e He). }
  split.
  { apply (StronglySorted_by_map cp_quantity cp_quantity nq_quantity curve sorted).
    - apply rangeCurveFrom_quantities.
    - apply sort_descending. }
  intros Hnz.
  assert (Hne : sorted <> []).
  { intros E. rewrite E, sumBy_nil in Htotal. congruence. }
  unfold curve. rewrite (rangeCurveFrom_last total sorted 0 0 Hne), Htotal.
  unfold JS.div. destruct (Z.eqb_spec total 0) as [E|_]; [ congruence | ].
  cbn [JS.times100 Z.add]. eexists. split; [ reflexivity | ].
  field. intros E. apply Hnz. unfold Qeq in E. simpl in E. lia.
Qed.

(** X23. When the per-period data is present, the coverage data and the curve
    that the dashboard builds for a custom year range agree with each other,
    for parts and for colors: the curve lists every item once, by name, in
    descending order of quantity and ranked by position; the number of
    unique items is the length of the curve; the total quantity is the sum of
    the curve's quantities; and when the total is not zero the last
    cumulative percent is 100. *)
Theorem range_curves_consistent (stats : CoverageStats) (startYear endYear : Z)
    (byPeriod : Map string PeriodDataWithCurves) :
  st_by_period stats = Some byPeriod ->
  rangeCurveOk (pd_parts (aggregateYearData stats startYear endYear))
               (pd_parts_curve (aggregateYearData stats startYear endYear)) /\
  rangeCurveOk (pd_colors (aggregateYearData stats startYear endYear))
               (pd_colors_curve (aggregateYearData stats startYear endYear)).
Proof.
  intros Hby. unfold aggregateYearData. rewrite Hby.
  match goal with
  | |- context [fold_left (collectYear byPeriod) ?years ?start] =>
      assert (namedSums (fst (fold_left (collectYear byPeriod) years start)) /\
              namedSums (snd (fold_left (collectYear byPeriod) years start)))
        as [Hp Hc]
        by (apply collectYears_namedSums;
            split; (split; [ reflexivity | split; constructor ]));
      destruct (fold_left (collectYear byPeriod) years start)
        as [[partsQuantities totalParts] [colorsQuantities totalColors]]
  end.
  cbn [fst snd] in Hp, Hc.
  cbn [pd_parts pd_colors pd_parts_curve pd_colors_curve]. split.
  - exact (rangeCurve_ok (partsQuantities, totalParts) Hp).
  - exact (rangeCurve_ok (colorsQuantities, totalColors) Hc).
Qed.

Lemma range_curves_consistent_witness :
  rangeCurveOk
    (pd_parts (aggregateYearData (statsWithYears noLogRank redBlue [2015; 2016]) 2015 2016))
    (pd_parts_curve
       (aggregateYearData (statsWithYears noLogRank redBlue [2015; 2016]) 2015 2016)) /\
  rangeCurveOk
    (pd_colors (aggregateYearData (statsWithYears noLogRank redBlue [2015; 2016]) 2015 2016))
    (pd_colors_curve
       (aggregateYearData (statsWithYears noLogRank redBlue [2015; 2016]) 2015 2016)).
Proof.
  apply (range_curves_consistent (statsWithYears noLogRank redBlue [2015; 2016]) 2015 2016
           (yearBuckets noLogRank redBlue [2015; 2016])).
  reflexivity.
Defined.

Lemma collectYears_missing (byPeriod : Map string PeriodDataWithCurves) (years : list Z)
    (st : (Map string NameQty * Z) * (Map string NameQty * Z)) :
  (forall y, In y years -> map_get String.eqb byPeriod (yearKey y) = None) ->
  fold_left (collectYear byPeriod) years st = st.
Proof.
  revert st. induction years as [|y years IH]; intros st Hnone; simpl; [ reflexivity | ].
  unfold collectYear at 2. rewrite (Hnone y) by now left.
  apply IH. intros z Hz. apply Hnone. now right.
Qed.

(** X24. When the per-period data is present but holds no bucket for any year
    of the custom range (which includes a range whose end is before its
    start), the dashboard gets empty data: no unique items, a total quantity
    of 0, a count of 0 and no items at each of the five thresholds, and two
    empty curves. *)
Theorem range_without_buckets (stats : CoverageStats) (startYear endYear : Z)
    (byPeriod : Map string PeriodDataWithCurves) :
  st_by_period stats = Some byPeriod ->
  (forall y, startYear <= y <= endYear ->
     map_get String.eqb byPeriod (yearKey y) = None) ->
  aggregateYearData stats startYear endYear
  = {| pd_parts := emptyCoverage; pd_colors := emptyCoverage;
       pd_parts_curve := Some []; pd_colors_curve := Some [] |}.
Proof.
  intros Hby Hnone. unfold aggregateYearData. rewrite Hby.
  rewrite collectYears_missing; [ reflexivity | ].
  intros y Hy. apply Hnone. now apply yearsBetween_In.
Qed.

Lemma range_without_buckets_witness :
  aggregateYearData (statsWithYears noLogRank redBlue [2015; 2016]) 1990 1991
  = {| pd_parts := emptyCoverage; pd_colors := emptyCoverage;
       pd_parts_curve := Some []; pd_colors_curve := Some [] |}.
Proof.
  apply (range_without_buckets (statsWithYears noLogRank redBlue [2015; 2016]) 1990 1991
           (yearBuckets noLogRank redBlue [2015; 2016])).
  - reflexivity.
  - intros y Hy. assert (y = 1990 \/ y = 1991) as [-> | ->] by lia;
      vm_compute; reflexivity.
Defined.

(** ** The two paths to a custom range, compared *)

(** ** Grouping loops *)

Lemma In_map_set {V : Type} (m : Map string V) (k k' : string) (v v' : V) :
  NoDup (map_keys m) ->
  In (k', v') (map_set String.eqb m k v) ->
  (In (k', v') m /\ k' <> k) \/ (k' = k /\ v' = v).
Proof.
  induction m as [|[k0 v0] m IH]; simpl; intros Hnd.
  - intros [[= <- <-] | []]. now right.
  - inversion Hnd as [|? ? Hnot Hnd']; subst.
    destruct (String.eqb_spec k0 k) as [->|Hne]; simpl.
    + intros [[= <- <-] | Hin]; [ now right | ].
      left. split; [ now right | ].
      intros ->. apply Hnot. apply (in_map fst) in Hin. exact Hin.
    + intros [[= <- <-] | Hin]; [ left; split; [ now left | exact Hne ] | ].
      destruct (IH Hnd' Hin) as [[Hm Hk'] | Hnew];
        [ left; split; [ now right | exact Hk' ] | now right ].
Qed.

Lemma In_keys_entry {V : Type} (m : Map string V) (k : string) :
  In k (map_keys m) -> exists v, In (k, v) m.
Proof.
  unfold map_keys. rewrite in_map_iff. intros ([k0 v] & <- & Hin). now exists v.
Qed.

Lemma NoDup_keys_value {V : Type} (m : Map string V) (k : string) (v v' : V) :
  NoDup (map_keys m) -> In (k, v) m -> In (k, v') m -> v = v'.
Proof.
  induction m as [|[k0 v0] m IH]; simpl; intros Hnd; [ tauto | ].
  inversion Hnd as [|? ? Hnot Hnd']; subst.
  intros [[= -> ->] | Hin] [[= <-] | Hin'].
  - reflexivity.
  - elim Hnot. apply (in_map fst) in Hin'. exact Hin'.
  - subst. elim Hnot. apply (in_map fst) in Hin. exact Hin.
  - now apply IH.
Qed.

Section Grouping.
Context {R V St : Type}.
Variables (sel : R -> bool) (key rname : R -> string) (w : R -> Z).
Variables (vname : V -> string) (vqty : V -> Z).
Variables (proj : St -> Map string V) (step : St -> R -> St).

(** The step passes over a row that does not count; for one that counts it
    adds the quantity to the entry of the key, or opens the entry under the
    row's name. *)
Hypothesis step_skip : forall st r, sel r = false -> proj (step st r) = proj st.
Hypothesis step_sel : forall st r, sel r = true ->
  exists v, proj (step st r) = map_set String.eqb (proj st) (key r) v /\
    match map_get String.eqb (proj st) (key r) with
    | Some old => vname v = vname old /\ vqty v = vqty old + w r
    | None => vname v = rname r /\ vqty v = w r
    end.

Variable rows : list R.
Hypothesis key_name : forall r r', In r rows -> In r' rows ->
  sel r = true -> sel r' = true -> key r = key r' -> rname r = rname r'.

Let Grouped := grouped sel key rname w vname vqty.

Lemma grouped_step (st : St) (done : list R) (r : R) :
  incl (done ++ [r]) rows ->
  Grouped (proj st) done -> Grouped (proj (step st r)) (done ++ [r]).
Proof.
  intros Hrows (Hnd & Hopened & Hfiled & Hsums).
  assert (Hr : In r rows) by (apply Hrows, in_or_app; right; now left).
  assert (Hdone : forall r', In r' done -> In r' rows)
    by (intros r' Hr'; apply Hrows, in_or_app; now left).
  destruct (sel r) eqn:Hsel.
  - destruct (step_sel st r Hsel) as (v & -> & Hv).
    assert (Hvname : vname v = rname r).
    { destruct (map_get String.eqb (proj st) (key r)) as [old|] eqn:G; [ | tauto ].
      destruct Hv as [-> _]. apply (map_get_In String.eqb Seqb_eq) in G.
      destruct (Hopened _ _ G) as (r0 & Hr0 & Hsel0 & Hkey0 & ->).
      apply key_name; auto. }
    split; [ now apply (map_keys_set_NoDup String.eqb Seqb_eq) | ].
    split; [ | split ].
    + intros k' v' Hin. destruct (In_map_set _ _ _ _ _ Hnd Hin) as [[Hold Hne] | [-> ->]].
      * destruct (Hopened _ _ Hold) as (r0 & Hr0 & Hrest).
        exists r0. split; [ apply in_or_app; now left | exact Hrest ].
      * exists r. split; [ apply in_or_app; right; now left | auto ].
    + intros r' Hr' Hsel'. apply (map_keys_set_In String.eqb Seqb_eq).
      apply in_app_or in Hr'. destruct Hr' as [Hr' | [<- | []]]; [ left | now right ].
      now apply Hfiled.
    + intros n. rewrite sum_values_set, sumBy_app, sumBy_cons, sumBy_nil, Hsel, Hsums.
      cbn [andb]. rewrite Hvname.
      destruct (map_get String.eqb (proj st) (key r)) as [old|] eqn:G.
      * destruct Hv as [Hname ->]. rewrite <- Hname, Hvname.
        destruct (String.eqb (rname r) n); lia.
      * destruct Hv as [_ ->]. destruct (String.eqb (rname r) n); lia.
  - rewrite (step_skip st r Hsel).
    split; [ exact Hnd | ]. split; [ | split ].
    + intros k v Hin. destruct (Hopened _ _ Hin) as (r0 & Hr0 & Hrest).
      exists r0. split; [ apply in_or_app; now left | exact Hrest ].
    + intros r' Hr' Hsel'. apply in_app_or in Hr'.
      destruct Hr' as [Hr' | [<- | []]]; [ now apply Hfiled | congruence ].
    + intros n. rewrite sumBy_app, sumBy_cons, sumBy_nil, Hsel, Hsums. cbn [andb]. lia.
Qed.

Lemma grouped_fold (rest done : list R) (st : St) :
  incl (done ++ rest) rows ->
  Grouped (proj st) done -> Grouped (proj (fold_left step rest st)) (done ++ rest).
Proof.
  revert done st. induction rest as [|r rest IH]; intros done st Hrows Hst.
  - now rewrite app_nil_r.
  - cbn [fold_left].
    replace (done ++ r :: rest) with ((done ++ [r]) ++ rest) in *
      by (now rewrite <- app_assoc).
    apply IH; [ exact Hrows | ].
    apply grouped_step; [ | exact Hst ].
    intros x Hx. apply Hrows, in_or_app. now left.
Qed.

Lemma grouped_all (st : St) :
  proj st = [] -> Grouped (proj (fold_left step rows st)) rows.
Proof.
  intros Hempty. apply (grouped_fold rows [] st); [ apply incl_refl | ].
  rewrite Hempty. split; [ constructor | ].
  split; [ intros k v [] | ]. split; [ intros r [] | reflexivity ].
Qed.

(** A name has an entry exactly when a row that counts has the name. *)
Lemma grouped_names (m : Map string V) (n : string) :
  Grouped m rows ->
  (exists v, In v (map_values m) /\ vname v = n) <->
  (exists r, In r rows /\ sel r = true /\ rname r = n).
Proof.
  intros (Hnd & Hopened & Hfiled & _). split.
  - intros (v & Hv & <-). unfold map_values in Hv. apply in_map_iff in Hv.
    destruct Hv as ([k v0] & <- & Hin).
    destruct (Hopened _ _ Hin) as (r & Hr & Hsel & _ & Hname). eauto.
  - intros (r & Hr & Hsel & <-).
    destruct (In_keys_entry _ _ (Hfiled r Hr Hsel)) as (v & Hin).
    exists v. split; [ unfold map_values; apply in_map_iff; now exists (key r, v) | ].
    destruct (Hopened _ _ Hin) as (r0 & Hr0 & Hsel0 & Hkey0 & ->).
    now apply key_name.
Qed.

(** When, besides, rows of one name have one key, every name has one entry
    only. *)
Hypothesis name_key : forall r r', In r rows -> In r' rows ->
  sel r = true -> sel r' = true -> rname r = rname r' -> key r = key r'.

Lemma grouped_names_NoDup (m : Map string V) :
  Grouped m rows -> NoDup (map vname (map_values m)).
Proof.
  intros (Hnd & Hopened & _ & _). unfold map_values. rewrite map_map.
  assert (Hm : NoDup m) by (eapply NoDup_map_inv; exact Hnd).
  assert (Hinj : forall e e', In e m -> In e' m ->
                   vname (snd e) = vname (snd e') -> e = e').
  { intros [k v] [k' v'] He He' Hname. cbn [snd] in Hname.
    destruct (Hopened _ _ He) as (r & Hr & Hsel & Hkey & Hn).
    destruct (Hopened _ _ He') as (r' & Hr' & Hsel' & Hkey' & Hn').
    assert (k = k') as <-.
    { rewrite <- Hkey, <- Hkey'. apply name_key; auto. congruence. }
    f_equal. eapply NoDup_keys_value; eauto. }
  clear Hopened Hnd. revert Hinj Hm.
  induction m as [|e m' IH]; intros Hinj Hm; simpl; constructor.
  - intros Hin. apply in_map_iff in Hin. destruct Hin as (e' & He' & Hin).
    inversion Hm as [|? ? Hnot _]; subst.
    apply Hnot. rewrite (Hinj e e'); auto; [ now left | now right ].
  - inversion Hm; subst. apply IH; [ | assumption ].
    intros x y Hx Hy. apply Hinj; now right.
Qed.
End Grouping.

(** ** The grouping loops of the two paths *)

Section PeriodGroups.
Variable t : Tables.
Variable skipYear : Z -> bool.

Lemma periodParts_grouped :
  grouped (fun ip => keptYear t skipYear ip && true) ip_part_num (rowPartName t) qtyOf
          (fun v => partName (partMap t) (ppa_part_num v)) ppa_quantity
          (fst (periodAgg t skipYear)) (inventoryParts t).
Proof.
  unfold periodAgg.
  apply (grouped_all (fun ip => keptYear t skipYear ip && true) ip_part_num
           (rowPartName t) qtyOf
           (fun v => partName (partMap t) (ppa_part_num v)) ppa_quantity
           fst (periodStep t skipYear)).
  - intros [partAcc colorAcc] ip Hsel. rewrite andb_true_r in Hsel.
    unfold periodStep, keptYear in *.
    destruct (resolveYear t ip) as [[setNum year]|]; [ | reflexivity ].
    destruct (skipYear year); [ reflexivity | discriminate ].
  - intros [partAcc colorAcc] ip Hsel. rewrite andb_true_r in Hsel.
    unfold periodStep, keptYear in *.
    destruct (resolveYear t ip) as [[setNum year]|]; [ | discriminate ].
    destruct (skipYear year); [ discriminate | ].
    cbn [fst].
    destruct (map_get String.eqb partAcc (ip_part_num ip)) as [existingPart|];
      eexists; (split; [ reflexivity | ]); split; reflexivity.
  - intros r r' _ _ _ _ Hkey. unfold rowPartName. now rewrite Hkey.
  - reflexivity.
Qed.

Lemma periodColors_grouped :
  (forall ip ip', In ip (inventoryParts t) -> In ip' (inventoryParts t) ->
     keptYear t skipYear ip && colorKnown t ip = true ->
     keptYear t skipYear ip' && colorKnown t ip' = true ->
     rowColorKey t ip = rowColorKey t ip' -> rowColorName t ip = rowColorName t ip') ->
  grouped (fun ip => keptYear t skipYear ip && colorKnown t ip) (rowColorKey t)
          (rowColorName t) qtyOf ca_name ca_quantity
          (snd (periodAgg t skipYear)) (inventoryParts t).
Proof.
  intros Hkey. unfold periodAgg.
  apply (grouped_all (fun ip => keptYear t skipYear ip && colorKnown t ip) (rowColorKey t)
           (rowColorName t) qtyOf ca_name ca_quantity snd (periodStep t skipYear)).
  - intros [partAcc colorAcc] ip Hsel.
    unfold periodStep, keptYear, colorKnown, map_has, colorAggStep in *.
    destruct (resolveYear t ip) as [[setNum year]|]; [ | reflexivity ].
    destruct (skipYear year); [ reflexivity | ].
    cbn [snd negb andb] in *.
    destruct (map_get String.eqb (colorMap t) (ip_color_id ip)); [ discriminate | reflexivity ].
  - intros [partAcc colorAcc] ip Hsel.
    unfold periodStep, keptYear, colorKnown, map_has, colorAggStep, rowColorKey,
      rowColorName in *.
    destruct (resolveYear t ip) as [[setNum year]|]; [ | discriminate ].
    destruct (skipYear year); [ discriminate | ].
    cbn [snd negb andb] in *.
    destruct (map_get String.eqb (colorMap t) (ip_color_id ip)) as [color|];
      [ | discriminate ].
    destruct (map_get String.eqb colorAcc (colorKey color)) as [existing|];
      eexists; (split; [ reflexivity | ]); split; reflexivity.
  - exact Hkey.
  - reflexivity.
Qed.
End PeriodGroups.

Lemma curveItems_grouped (items : list CurvePoint) :
  grouped (fun _ : CurvePoint => true) cp_name cp_name cp_quantity nq_name nq_quantity
          (fst (fold_left addCurveItem items ([], 0))) items.
Proof.
  apply (grouped_all (fun _ : CurvePoint => true) cp_name cp_name cp_quantity
           nq_name nq_quantity fst addCurveItem).
  - discriminate.
  - intros [quantities total] item _. unfold addCurveItem. cbn [fst].
    destruct (map_get String.eqb quantities (cp_name item)) as [existing|];
      eexists; (split; [ reflexivity | ]); split; reflexivity.
  - auto.
  - reflexivity.
Qed.

Lemma sumBy_flat_map {A B : Type} (f : B -> Z) (g : A -> list B) (l : list A) :
  sumBy f (flat_map g l) = sumBy (fun a => sumBy f (g a)) l.
Proof.
  induction l as [|a l IH]; [ reflexivity | ].
  cbn [flat_map]. now rewrite sumBy_app, sumBy_cons, IH.
Qed.

Lemma keptYear_year (t : Tables) (y : Z) (ip : InventoryPart) :
  keptYear t (outside y y) ip = true <-> exists setNum, resolveYear t ip = Some (setNum, y).
Proof.
  unfold keptYear, outside. destruct (resolveYear t ip) as [[setNum yr]|].
  - split.
    + intros Hkept. exists setNum. do 2 f_equal.
      destruct (Z.ltb_spec yr y), (Z.ltb_spec y yr); simpl in Hkept; try discriminate; lia.
    + intros (s & [= _ ->]). rewrite Z.ltb_irrefl. reflexivity.
  - split; [ discriminate | intros (s & Hs); discriminate ].
Qed.

Lemma keptYear_range (t : Tables) (startYear endYear : Z) (ip : InventoryPart) :
  keptYear t (outside startYear endYear) ip = true <->
  exists y, startYear <= y <= endYear /\ keptYear t (outside y y) ip = true.
Proof.
  split.
  - unfold keptYear at 1. unfold outside at 1.
    destruct (resolveYear t ip) as [[setNum yr]|] eqn:E; [ | discriminate ].
    intros Hkept. exists yr. split.
    + destruct (Z.ltb_spec yr startYear), (Z.ltb_spec endYear yr);
        simpl in Hkept; try discriminate; lia.
    + apply keptYear_year. now exists setNum.
  - intros (y & Hy & Hkept). apply keptYear_year in Hkept. destruct Hkept as (setNum & E).
    unfold keptYear, outside. rewrite E.
    destruct (Z.ltb_spec y startYear), (Z.ltb_spec endYear y); simpl; try reflexivity; lia.
Qed.

(** One entry per name: the entry of a name carries the whole sum of the
    name. *)
Lemma sum_of_name {A : Type} (name : A -> string) (qty : A -> Z) (l : list A) (x : A) :
  NoDup (map name l) -> In x l ->
  sumBy (fun y => if String.eqb (name y) (name x) then qty y else 0) l = qty x.
Proof.
  induction l as [|a l IH]; simpl; intros Hnd; [ tauto | ].
  inversion Hnd as [|? ? Hnot Hnd']; subst.
  rewrite sumBy_cons. intros [-> | Hin].
  - rewrite String.eqb_refl.
    rewrite (sumBy_ext _ (fun _ => 0)), sumBy_zero; [ lia | ].
    intros y Hy. destruct (String.eqb_spec (name y) (name x)) as [E|_]; [ | reflexivity ].
    elim Hnot. rewrite <- E. now apply in_map.
  - rewrite (IH Hnd' Hin).
    destruct (String.eqb_spec (name a) (name x)) as [E|_]; [ | lia ].
    elim Hnot. rewrite E. now apply in_map.
Qed.

Section Entries.
Context {R V : Type}.
Variables (sel : R -> bool) (key rname : R -> string) (w : R -> Z).
Variables (vname : V -> string) (vqty : V -> Z).
Variable rows : list R.
Variable m : Map string V.
Hypothesis key_name : forall r r', In r rows -> In r' rows ->
  sel r = true -> sel r' = true -> key r = key r' -> rname r = rname r'.
Hypothesis name_key : forall r r', In r rows -> In r' rows ->
  sel r = true -> sel r' = true -> rname r = rname r' -> key r = key r'.
Hypothesis Hm : grouped sel key rname w vname vqty m rows.

(** The entries as (name, quantity) pairs: one pair for each name that a row
    that counts has, with the summed quantity of the rows of the name. *)
Lemma grouped_pairs (n : string) (q : Z) :
  In (n, q) (map (fun v => (vname v, vqty v)) (map_values m)) <->
  (exists r, In r rows /\ sel r = true /\ rname r = n) /\
  q = sumBy (fun r => if sel r && String.eqb (rname r) n then w r else 0) rows.
Proof.
  pose proof (grouped_names_NoDup sel key rname w vname vqty rows name_key m Hm) as Hnd.
  pose proof (grouped_names sel key rname w vname vqty rows key_name m n Hm) as Hnames.
  destruct Hm as (_ & _ & _ & Hsums).
  rewrite in_map_iff. split.
  - intros (v & [= <- <-] & Hv). split; [ apply Hnames; eauto | ].
    rewrite <- Hsums. symmetry. now apply sum_of_name.
  - intros [Hex ->]. apply Hnames in Hex. destruct Hex as (v & Hv & <-).
    exists v. split; [ | exact Hv ]. f_equal.
    rewrite <- Hsums. symmetry. now apply sum_of_name.
Qed.

Lemma grouped_pairs_NoDup :
  NoDup (map (fun v => (vname v, vqty v)) (map_values m)).
Proof.
  pose proof (grouped_names_NoDup sel key rname w vname vqty rows name_key m Hm) as Hnd.
  apply (NoDup_map_inv fst). now rewrite map_map.
Qed.
End Entries.

Section TwoPaths.
Variable t : Tables.
Variables startYear endYear : Z.
Context {V : Type}.
Variables (also : InventoryPart -> bool) (key rname : InventoryPart -> string).
Variables (vname : V -> string) (vqty : V -> Z).
Variable agg : (Z -> bool) -> Map string V.
Variable curveOf : Z -> list CurvePoint.

Let counts (skipYear : Z -> bool) (ip : InventoryPart) : bool :=
  keptYear t skipYear ip && also ip.

(** Among the rows of the range, the key tells the name and the name the
    key. *)
Hypothesis key_name : forall r r', In r (inventoryParts t) -> In r' (inventoryParts t) ->
  counts (outside startYear endYear) r = true ->
  counts (outside startYear endYear) r' = true -> key r = key r' -> rname r = rname r'.
Hypothesis name_key : forall r r', In r (inventoryParts t) -> In r' (inventoryParts t) ->
  counts (outside startYear endYear) r = true ->
  counts (outside startYear endYear) r' = true -> rname r = rname r' -> key r = key r'.

(** The rescan of a period groups its rows by key; the curve of a year lists
    the entries of the rescan of that year. *)
Hypothesis agg_grouped : forall skipYear,
  (forall r r', In r (inventoryParts t) -> In r' (inventoryParts t) ->
     counts skipYear r = true -> counts skipYear r' = true ->
     key r = key r' -> rname r = rname r') ->
  grouped (counts skipYear) key rname qtyOf vname vqty (agg skipYear) (inventoryParts t).
Hypothesis curve_pairs : forall y,
  Permutation (map (fun p => (cp_name p, cp_quantity p)) (curveOf y))
              (map (fun v => (vname v, vqty v)) (map_values (agg (outside y y)))).

Lemma counts_in_range (y : Z) (ip : InventoryPart) :
  startYear <= y <= endYear -> counts (outside y y) ip = true ->
  counts (outside startYear endYear) ip = true.
Proof.
  unfold counts. intros Hy Hc. apply andb_true_iff in Hc. destruct Hc as [Hkept Halso].
  apply andb_true_iff. split; [ | exact Halso ].
  apply keptYear_range. now exists y.
Qed.

Lemma year_grouped (y : Z) :
  startYear <= y <= endYear ->
  grouped (counts (outside y y)) key rname qtyOf vname vqty (agg (outside y y))
          (inventoryParts t).
Proof.
  intros Hy. apply agg_grouped. intros r r' Hr Hr' Hc Hc'.
  apply key_name; auto; now apply (counts_in_range y).
Qed.

Lemma curve_names (y : Z) (n : string) :
  startYear <= y <= endYear ->
  In n (map cp_name (curveOf y)) <->
  exists r, In r (inventoryParts t) /\ counts (outside y y) r = true /\ rname r = n.
Proof.
  intros Hy.
  rewrite <- (grouped_names (counts (outside y y)) key rname qtyOf vname vqty
                (inventoryParts t)
                (fun r r' Hr Hr' Hc Hc' =>
                   key_name r r' Hr Hr' (counts_in_range y r Hy Hc)
                            (counts_in_range y r' Hy Hc'))
                (agg (outside y y)) n (year_grouped y Hy)).
  assert (Hsame : forall x, In x (map cp_name (curveOf y)) <->
                            In x (map vname (map_values (agg (outside y y))))).
  { intros x.
    replace (map cp_name (curveOf y))
      with (map fst (map (fun p => (cp_name p, cp_quantity p)) (curveOf y)))
      by (rewrite map_map; reflexivity).
    replace (map vname (map_values (agg (outside y y))))
      with (map fst (map (fun v => (vname v, vqty v)) (map_values (agg (outside y y)))))
      by (rewrite map_map; reflexivity).
    split; apply Permutation_in, Permutation_map;
      [ apply curve_pairs | symmetry; apply curve_pairs ]. }
  rewrite Hsame, in_map_iff. split.
  - intros (v & E & Hv). eauto.
  - intros (v & Hv & E). eauto.
Qed.

Lemma curve_sum (y : Z) (n : string) :
  startYear <= y <= endYear ->
  sumBy (fun p => if String.eqb (cp_name p) n then cp_quantity p else 0) (curveOf y)
  = sumBy (fun r => if counts (outside y y) r && String.eqb (rname r) n
                    then qtyOf r else 0) (inventoryParts t).
Proof.
  intros Hy. destruct (year_grouped y Hy) as (_ & _ & _ & Hsums).
  rewrite <- Hsums.
  transitivity (sumBy (fun e : string * Z => if String.eqb (fst e) n then snd e else 0)
                      (map (fun p => (cp_name p, cp_quantity p)) (curveOf y))).
  { now rewrite sumBy_map. }
  rewrite (sumBy_perm _ _ _ (curve_pairs y)). now rewrite sumBy_map.
Qed.

Let items : list CurvePoint := flat_map curveOf (yearsBetween startYear endYear).

Lemma range_sum (n : string) :
  sumBy (fun p => if String.eqb (cp_name p) n then cp_quantity p else 0) items
  = sumBy (fun r => if counts (outside startYear endYear) r && String.eqb (rname r) n
                    then qtyOf r else 0) (inventoryParts t).
Proof.
  unfold items. rewrite sumBy_flat_map.
  rewrite (sumBy_ext _ (fun y => sumBy (fun ip =>
             if keptYear t (outside y y) ip && (also ip && String.eqb (rname ip) n)
             then qtyOf ip else 0) (inventoryParts t))).
  - rewrite (rows_by_year t (fun ip => also ip && String.eqb (rname ip) n)).
    apply sumBy_ext. intros ip _. unfold counts. now rewrite andb_assoc.
  - intros y Hy. apply yearsBetween_In in Hy. rewrite (curve_sum y n Hy).
    apply sumBy_ext. intros ip _. unfold counts. now rewrite andb_assoc.
Qed.

Lemma range_names (n : string) :
  (exists p, In p items /\ cp_name p = n) <->
  (exists r, In r (inventoryParts t) /\ counts (outside startYear endYear) r = true /\
             rname r = n).
Proof.
  unfold items. split.
  - intros (p & Hp & <-). apply in_flat_map in Hp. destruct Hp as (y & Hy & Hp).
    apply yearsBetween_In in Hy.
    destruct (proj1 (curve_names y (cp_name p) Hy) (in_map cp_name _ _ Hp))
      as (r & Hr & Hc & Hname).
    exists r. split; [ exact Hr | split; [ now apply (counts_in_range y) | exact Hname ] ].
  - intros (r & Hr & Hc & <-). unfold counts in Hc. apply andb_true_iff in Hc.
    destruct Hc as [Hkept Halso]. apply keptYear_range in Hkept.
    destruct Hkept as (y & Hy & Hkept).
    assert (In (rname r) (map cp_name (curveOf y))) as Hin.
    { apply (curve_names y (rname r) Hy). exists r. split; [ exact Hr | ].
      split; [ unfold counts; now rewrite Hkept, Halso | reflexivity ]. }
    apply in_map_iff in Hin. destruct Hin as (p & Hname & Hp).
    exists p. split; [ | exact Hname ].
    apply in_flat_map. exists y. split; [ now apply yearsBetween_In | exact Hp ].
Qed.

(** The per-year path ends with the entries of the rescan: the same names
    with the same quantities. *)
Lemma paths_same_entries :
  Permutation
    (map (fun v => (nq_name v, nq_quantity v))
         (map_values (fst (fold_left addCurveItem items ([], 0)))))
    (map (fun v => (vname v, vqty v)) (map_values (agg (outside startYear endYear)))).
Proof.
  pose proof (curveItems_grouped items) as Hfast.
  pose proof (agg_grouped (outside startYear endYear) key_name) as Hrescan.
  assert (Hsame : forall (r r' : CurvePoint), In r items -> In r' items ->
            true = true -> true = true -> cp_name r = cp_name r' -> cp_name r = cp_name r')
    by auto.
  apply NoDup_Permutation.
  - exact (grouped_pairs_NoDup _ _ _ _ _ _ _ _ Hsame Hfast).
  - exact (grouped_pairs_NoDup _ _ _ _ _ _ _ _ name_key Hrescan).
  - intros [n q].
    rewrite (grouped_pairs _ _ _ _ _ _ _ _ Hsame Hsame Hfast n q).
    rewrite (grouped_pairs _ _ _ _ _ _ _ _ key_name name_key Hrescan n q).
    rewrite <- range_sum, <- range_names.
    split; intros [(p & Hp & Hname) ->]; (split; [ exists p; tauto | ]);
      apply sumBy_ext; intros x _; reflexivity.
Qed.
End TwoPaths.

(** ** Rounding and thresholds *)

(** Rounding to [d] decimals never takes a number below an integer that it
    has reached. *)
Lemma ge_toFixed (d : nat) (x : JS.number) (level : Z) :
  JS.ge x level = true -> JS.ge (JS.toFixed d x) level = true.
Proof.
  destruct x as [| | |q]; try (intros H; exact H).
  unfold JS.ge, JS.toFixed. rewrite Qle_bool_iff. intros Hge.
  set (p := JS.pow10 d).
  assert (Hscaled : (inject_Z (level * Zpos p) <= q * inject_Z (Zpos p))%Q).
  { rewrite inject_Z_mult. apply Qmult_le_compat_r; [ exact Hge | ].
    unfold Qle. simpl. lia. }
  destruct (Qle_bool 0 q) eqn:Hsign; apply Qle_bool_iff; rewrite Qred_correct.
  - unfold JS.nearest. fold p.
    assert (level * Zpos p <= Qfloor (q * inject_Z (Zpos p) + (1 # 2)))%Z as Hfloor.
    { rewrite <- (Qfloor_Z (level * Zpos p)). apply Qfloor_resp_le.
      generalize dependent (q * inject_Z (Zpos p))%Q. intros y.
      generalize (inject_Z (level * Zpos p)). intros z Hy. clear - Hy. lra. }
    generalize dependent (Qfloor (q * inject_Z (Zpos p) + (1 # 2))). intros n Hfloor.
    unfold Qle, inject_Z. cbn [Qnum Qden]. lia.
  - unfold JS.nearest. fold p.
    pose proof (Qfloor_le (- q * inject_Z (Zpos p) + (1 # 2))) as Hle.
    set (n := Qfloor (- q * inject_Z (Zpos p) + (1 # 2))) in *.
    assert (inject_Z n <= - (q * inject_Z (Zpos p)) + (1 # 2))%Q as Hle'.
    { eapply Qle_trans; [ exact Hle | ].
      assert (- q * inject_Z (Zpos p) == - (q * inject_Z (Zpos p)))%Q as E by ring.
      rewrite E. apply Qle_refl. }
    assert (inject_Z n < inject_Z (- (level * Zpos p) + 1))%Q as Hlt.
    { rewrite inject_Z_plus, inject_Z_opp. change (inject_Z 1) with 1%Q.
      revert Hscaled Hle'.
      generalize (q * inject_Z (Zpos p))%Q (inject_Z (level * Zpos p)) (inject_Z n).
      intros y z f Hy Hf. clear - Hy Hf. lra. }
    rewrite <- Zlt_Qlt in Hlt. clearbody n.
    unfold Qle, inject_Z. cbn [Qnum Qden]. lia.
Qed.

Lemma descending_perm_eq (l1 l2 : list Z) :
  StronglySorted (fun a b => b <= a) l1 -> StronglySorted (fun a b => b <= a) l2 ->
  Permutation l1 l2 -> l1 = l2.
Proof.
  intros H1. revert l2. induction H1 as [|x l1 Hs1 IH Hx]; intros l2 H2 Hperm.
  - apply Permutation_nil in Hperm. now subst.
  - destruct H2 as [|y l2 Hs2 Hy].
    + symmetry in Hperm. now apply Permutation_nil in Hperm.
    + assert (x = y) as <-.
      { assert (In x (y :: l2)) as Hin by (eapply Permutation_in; [ exact Hperm | now left ]).
        assert (In y (x :: l1)) as Hin'
          by (eapply Permutation_in; [ symmetry; exact Hperm | now left ]).
        destruct Hin as [-> | Hin]; [ reflexivity | ].
        destruct Hin' as [-> | Hin']; [ reflexivity | ].
        pose proof (proj1 (Forall_forall _ _) Hy x Hin) as Hxy.
        pose proof (proj1 (Forall_forall _ _) Hx y Hin') as Hyx.
        cbv beta in Hxy, Hyx. lia. }
      f_equal. apply IH; [ exact Hs2 | ]. now apply Permutation_cons_inv in Hperm.
Qed.

Section RankedLists.
Context {V : Type}.
Variables (vname : V -> string) (vqty : V -> Z).
Variable total : Z.

Lemma periodItemsFrom_pairs (l : list V) (index : nat) (cum : Z) :
  map (fun i => (pi_name i, pi_quantity i)) (periodItemsFrom vname vqty total index cum l)
  = map (fun v => (vname v, vqty v)) l.
Proof.
  revert index cum. induction l as [|x l IH]; intros index cum; simpl; [ reflexivity | ].
  now rewrite IH.
Qed.

Lemma periodItemsFrom_quantities (l : list V) (index : nat) (cum : Z) :
  map pi_quantity (periodItemsFrom vname vqty total index cum l) = map vqty l.
Proof.
  revert index cum. induction l as [|x l IH]; intros index cum; simpl; [ reflexivity | ].
  now rewrite IH.
Qed.

Lemma periodItemsFrom_length (l : list V) (index : nat) (cum : Z) :
  List.length (periodItemsFrom vname vqty total index cum l) = List.length l.
Proof.
  revert index cum. induction l as [|x l IH]; intros index cum; simpl; [ reflexivity | ].
  now rewrite IH.
Qed.

Lemma rangeCurveFrom_pairs (l : list NameQty) (index : nat) (cum : Z) :
  map (fun p => (cp_name p, cp_quantity p)) (rangeCurveFrom total index cum l)
  = map (fun v => (nq_name v, nq_quantity v)) l.
Proof.
  revert index cum. induction l as [|x l IH]; intros index cum; simpl; [ reflexivity | ].
  now rewrite IH.
Qed.

(** With the same quantities rank by rank, the rescan has the rounded
    percents of the per-year path. *)
Lemma rounded_cumulative (lF : list NameQty) (lR : list V) (index : nat) (cum : Z) :
  0 < total -> map nq_quantity lF = map vqty lR ->
  map (fun p => JS.toFixed 4 (cp_cumulative_percent p)) (rangeCurveFrom total index cum lF)
  = map pi_cumulative_percent (periodItemsFrom vname vqty total index cum lR).
Proof.
  intros Htotal. revert lR index cum.
  induction lF as [|x lF IH]; intros [|y lR] index cum Hq; try discriminate; [ reflexivity | ].
  cbn [map] in Hq. injection Hq as Hx Hrest.
  cbn [rangeCurveFrom periodItemsFrom map cp_cumulative_percent pi_cumulative_percent].
  rewrite Hx, (IH lR (S index) (cum + vqty y) Hrest).
  f_equal. unfold guardedPercent, percentOf.
  destruct (Z.ltb_spec 0 total); [ reflexivity | lia ].
Qed.

Lemma rounded_percent (lF : list NameQty) (lR : list V) (index : nat) (cum : Z) :
  0 < total -> map nq_quantity lF = map vqty lR ->
  map (fun p => JS.toFixed 4 (JS.times100 (JS.div (cp_quantity p) total)))
      (rangeCurveFrom total index cum lF)
  = map pi_percent (periodItemsFrom vname vqty total index cum lR).
Proof.
  intros Htotal. revert lR index cum.
  induction lF as [|x lF IH]; intros [|y lR] index cum Hq; try discriminate; [ reflexivity | ].
  cbn [map] in Hq. injection Hq as Hx Hrest.
  cbn [rangeCurveFrom periodItemsFrom map cp_quantity pi_percent].
  rewrite Hx, (IH lR (S index) (cum + vqty y) Hrest).
  f_equal. unfold guardedPercent, percentOf.
  destruct (Z.ltb_spec 0 total); [ reflexivity | lia ].
Qed.
End RankedLists.

(** The scan over rounded percents stops no later than the search over the
    unrounded ones, and at the same place when no percent is lifted over the
    level. *)
Lemma counts_related (level : Z) (curve : list CurvePoint) (items : list PeriodItem)
    (i : nat) :
  map (fun p => JS.toFixed 4 (cp_cumulative_percent p)) curve
  = map pi_cumulative_percent items ->
  let countF := match findIndexGe curve level i with
                | Some k => (k + 1)%nat
                | None => (i + List.length curve)%nat
                end in
  let countR := match scanThreshold items level i with
                | Some c => c
                | None => (i + List.length items)%nat
                end in
  (countR <= countF)%nat /\ (noLift level curve -> countR = countF).
Proof.
  revert items i. induction curve as [|p curve IH]; intros [|item items] i Hcum;
    try discriminate.
  - cbn. split; [ lia | reflexivity ].
  - cbn [map] in Hcum. injection Hcum as Hp Hrest.
    cbn [findIndexGe scanThreshold List.length].
    unfold reaches. cbn [cumulativeOf PeriodItem_Covered]. rewrite <- Hp.
    destruct (JS.ge (cp_cumulative_percent p) level) eqn:Hexact.
    + rewrite (ge_toFixed 4 _ _ Hexact). cbv zeta. split; [ lia | reflexivity ].
    + destruct (JS.ge (JS.toFixed 4 (cp_cumulative_percent p)) level) eqn:Hrounded.
      * cbv zeta. split.
        -- destruct (findIndexGe curve level (S i)) as [k|] eqn:E; [ | lia ].
           apply findIndexGe_Some in E. destruct E as (_ & _ & Hk & _). lia.
        -- intros Hno. pose proof (Hno p (or_introl eq_refl) Hrounded). congruence.
      * destruct (IH items (S i) Hrest) as [Hle Heq]. cbv zeta in *.
        replace (i + S (List.length curve))%nat with (S i + List.length curve)%nat by lia.
        replace (i + S (List.length items))%nat with (S i + List.length items)%nat by lia.
        split; [ exact Hle | ].
        intros Hno. apply Heq. intros q Hq. apply Hno. now right.
Qed.

(** ** The two paths to a custom range, side by side *)

Section Assembly.
Context {V : Type}.
Variables (vname : V -> string) (vqty : V -> Z).
Variables (valsF : list NameQty) (totalF : Z) (valsR : list V).
Hypothesis same_entries :
  Permutation (map (fun v => (nq_name v, nq_quantity v)) valsF)
              (map (fun v => (vname v, vqty v)) valsR).
Hypothesis total_sum : totalF = sumBy nq_quantity valsF.

Let sortedF := sort (byQuantityDesc nq_quantity) valsF.
Let sortedR := sort (byQuantityDesc vqty) valsR.
Let totalR := sumBy vqty sortedR.
Let curve := rangeCurveFrom totalF 0 0 sortedF.
Let ranked := periodItemsFrom vname vqty totalR 0 0 sortedR.

Lemma sorted_same_entries :
  Permutation (map (fun v => (nq_name v, nq_quantity v)) sortedF)
              (map (fun v => (vname v, vqty v)) sortedR).
Proof.
  unfold sortedF, sortedR.
  rewrite (Permutation_map _ (sort_perm (byQuantityDesc nq_quantity) valsF)).
  rewrite (Permutation_map _ (sort_perm (byQuantityDesc vqty) valsR)).
  exact same_entries.
Qed.

Lemma sorted_same_quantities : map nq_quantity sortedF = map vqty sortedR.
Proof.
  apply descending_perm_eq.
  - apply StronglySorted_map. apply (sort_descending nq_quantity).
  - apply StronglySorted_map. apply (sort_descending vqty).
  - pose proof (Permutation_map snd sorted_same_entries) as Hperm.
    now rewrite !map_map in Hperm.
Qed.

Lemma same_total : totalF = totalR.
Proof.
  unfold totalR. rewrite total_sum.
  rewrite <- (sumBy_perm _ _ _ (sort_perm (byQuantityDesc nq_quantity) valsF)).
  fold sortedF.
  rewrite (sumBy_as_map nq_quantity), (sumBy_as_map vqty).
  now rewrite sorted_same_quantities.
Qed.

Lemma found_at (level : Z) :
  In level thresholdLevels ->
  map_get Z.eqb (thresholds (buildCoverageData ranked totalR)) level
  = Some (getThresholdItems ranked level) /\
  map_get Z.eqb (thresholds (rangeCoverage sortedF curve totalF)) level
  = Some (rangeThreshold curve totalF level).
Proof.
  unfold thresholdLevels.
  intros [<- | [<- | [<- | [<- | [<- | []]]]]]; split; reflexivity.
Qed.

Lemma assembled :
  pathsAgree (rangeCoverage sortedF curve totalF) (Some curve)
             (buildCoverageData ranked totalR) ranked.
Proof.
  pose proof sorted_same_quantities as Hq. pose proof same_total as Ht.
  assert (Hquantities : map cp_quantity curve = map pi_quantity ranked).
  { unfold curve, ranked.
    now rewrite rangeCurveFrom_quantities, periodItemsFrom_quantities. }
  split; [ exact Ht | ].
  split.
  { cbn [rangeCoverage buildCoverageData total_unique]. unfold ranked.
    rewrite periodItemsFrom_length.
    rewrite <- (length_map nq_quantity), <- (length_map vqty). now rewrite Hq. }
  exists curve. split; [ reflexivity | ].
  split.
  { unfold curve, ranked. rewrite rangeCurveFrom_pairs, periodItemsFrom_pairs.
    exact sorted_same_entries. }
  split; [ exact Hquantities | ].
  cbn [buildCoverageData total_quantity]. intros Hpos.
  assert (Hcum : map (fun p => JS.toFixed 4 (cp_cumulative_percent p)) curve
                 = map pi_cumulative_percent ranked).
  { unfold curve, ranked. rewrite Ht. now apply rounded_cumulative. }
  assert (Hpercent : map (fun p => JS.toFixed 4 (JS.times100 (JS.div (cp_quantity p) totalF)))
                         curve
                     = map pi_percent ranked).
  { unfold curve, ranked. rewrite Ht. now apply rounded_percent. }
  split; [ exact Hcum | ].
  intros level Hlevel. destruct (found_at level Hlevel) as [HfoundR HfoundF].
  exists (getThresholdItems ranked level), (rangeThreshold curve totalF level).
  split; [ exact HfoundR | ]. split; [ exact HfoundF | ].
  destruct (counts_related level curve ranked 0 Hcum) as [Hle Heq]. cbv zeta in Hle, Heq.
  cbn [getThresholdItems rangeThreshold ct_count ct_items Nat.add] in *.
  unfold findThresholdIndex.
  split; [ exact Hle | ].
  intros Hno. specialize (Heq Hno). split; [ exact Heq | ].
  rewrite <- Heq.
  set (count := match scanThreshold ranked level 0 with
                | Some c => c
                | None => List.length ranked
                end).
  rewrite !map_map. cbn [reexpress ti_percent ti_cumulative_percent percentOfItem
                          cumulativeOf PeriodItem_Covered].
  rewrite (Nat.min_comm 10 count).
  rewrite <- !firstn_map. now rewrite Hcum, Hpercent.
Qed.
End Assembly.

Lemma collectYears_flat (t : Tables) (byPeriod : Map string PeriodDataWithCurves)
    (years : list Z) (st : (Map string NameQty * Z) * (Map string NameQty * Z)) :
  (forall y, In y years -> hasYearCurves t byPeriod y) ->
  fold_left (collectYear byPeriod) years st
  = (fold_left addCurveItem (flat_map (yearPartsCurve t) years) (fst st),
     fold_left addCurveItem (flat_map (yearColorsCurve t) years) (snd st)).
Proof.
  revert st. induction years as [|y years IH]; intros st Hyears.
  - now destruct st.
  - cbn [fold_left flat_map]. rewrite IH by (intros z Hz; apply Hyears; now right).
    destruct (Hyears y (or_introl eq_refl)) as (bucket & Hget & Hparts & Hcolors).
    unfold collectYear. rewrite Hget, Hparts, Hcolors. cbn [fst snd addCurve].
    now rewrite !fold_left_app.
Qed.

Lemma curveItems_total (items : list CurvePoint) :
  snd (fold_left addCurveItem items ([], 0))
  = sumBy nq_quantity (map_values (fst (fold_left addCurveItem items ([], 0)))).
Proof.
  assert (namedSums (([] : Map string NameQty), 0)) as Hstart
    by (split; [ reflexivity | split; constructor ]).
  exact (proj1 (addCurve_namedSums _ (Some items) Hstart)).
Qed.

Lemma curveItems_sum (items : list CurvePoint) :
  snd (fold_left addCurveItem items ([], 0)) = sumBy cp_quantity items.
Proof.
  pose proof (addCurve_total ([], 0) (Some items)) as Hsum.
  cbn [addCurve snd curveTotal] in Hsum. lia.
Qed.

Section RangePaths.
Variable t : Tables.
Variables startYear endYear : Z.

Lemma range_parts_total :
  sumBy cp_quantity (flat_map (yearPartsCurve t) (yearsBetween startYear endYear))
  = periodPartsTotal t (outside startYear endYear).
Proof.
  rewrite sumBy_flat_map, periodPartsTotal_rows.
  rewrite (sumBy_ext _ (fun ip => if keptYear t (outside startYear endYear) ip
                                     && (fun _ => true) ip
                                  then qtyOf ip else 0))
    by (intros ip _; now rewrite andb_true_r).
  rewrite <- rows_by_year. apply sumBy_ext. intros y _.
  unfold yearPartsCurve. rewrite sumBy_map. cbn [curveOfPeriodItem cp_quantity].
  unfold periodPartFrequency. rewrite periodItemsFrom_quantity.
  fold (periodPartsTotal t (outside y y)). rewrite periodPartsTotal_rows.
  apply sumBy_ext. intros ip _. now rewrite andb_true_r.
Qed.

Lemma range_colors_total :
  sumBy cp_quantity (flat_map (yearColorsCurve t) (yearsBetween startYear endYear))
  = periodColorsTotal t (outside startYear endYear).
Proof.
  rewrite sumBy_flat_map, periodColorsTotal_rows, <- rows_by_year.
  apply sumBy_ext. intros y _.
  unfold yearColorsCurve. rewrite sumBy_map. cbn [curveOfPeriodItem cp_quantity].
  unfold periodColorStats. rewrite periodItemsFrom_quantity.
  fold (periodColorsTotal t (outside y y)). apply periodColorsTotal_rows.
Qed.

Lemma range_parts_entries :
  partNamesTellApart t (outside startYear endYear) ->
  Permutation
    (map (fun v => (nq_name v, nq_quantity v))
       (map_values
          (fst (fold_left addCurveItem
                  (flat_map (yearPartsCurve t) (yearsBetween startYear endYear)) ([], 0)))))
    (map (fun v => (partName (partMap t) (ppa_part_num v), ppa_quantity v))
       (map_values (fst (periodAgg t (outside startYear endYear))))).
Proof.
  intros Hparts.
  apply (paths_same_entries t startYear endYear (fun _ => true) ip_part_num (rowPartName t)
           (fun v => partName (partMap t) (ppa_part_num v)) ppa_quantity
           (fun skipYear => fst (periodAgg t skipYear)) (yearPartsCurve t)).
  - intros r r' _ _ _ _ Hkey. unfold rowPartName. now rewrite Hkey.
  - intros r r' Hr Hr' Hc Hc' Hname. rewrite andb_true_r in Hc, Hc'. now apply Hparts.
  - intros skipYear _. apply periodParts_grouped.
  - intros y. unfold yearPartsCurve, periodPartFrequency.
    rewrite map_map. cbn [curveOfPeriodItem cp_name cp_quantity].
    rewrite (periodItemsFrom_pairs _ ppa_quantity).
    apply Permutation_map. unfold periodParts. apply sort_perm.
Qed.

Lemma range_colors_entries :
  colorNamesTellApart t (outside startYear endYear) ->
  Permutation
    (map (fun v => (nq_name v, nq_quantity v))
       (map_values
          (fst (fold_left addCurveItem
                  (flat_map (yearColorsCurve t) (yearsBetween startYear endYear)) ([], 0)))))
    (map (fun v => (ca_name v, ca_quantity v))
       (map_values (snd (periodAgg t (outside startYear endYear))))).
Proof.
  intros Hcolors.
  apply (paths_same_entries t startYear endYear (colorKnown t) (rowColorKey t)
           (rowColorName t) ca_name ca_quantity
           (fun skipYear => snd (periodAgg t skipYear)) (yearColorsCurve t)).
  - intros r r' Hr Hr' Hc Hc'. apply andb_true_iff in Hc, Hc'.
    apply (Hcolors r r'); tauto.
  - intros r r' Hr Hr' Hc Hc'. apply andb_true_iff in Hc, Hc'.
    apply (Hcolors r r'); tauto.
  - intros skipYear Hkey. now apply periodColors_grouped.
  - intros y. unfold yearColorsCurve, periodColorStats.
    rewrite map_map. cbn [curveOfPeriodItem cp_name cp_quantity].
    rewrite (periodItemsFrom_pairs ca_name ca_quantity).
    apply Permutation_map. unfold periodColors. apply sort_perm.
Qed.
End RangePaths.

(** C8, as the code has it.  When every year of the range has a bucket with
    the full per-item curves of the year, the per-year path and the rescan of
    the range have the same total quantity of parts and of colors.  When,
    besides, names identify the parts (the colors) of the range, the two
    paths agree for parts (for colors) on the number of unique items, on the
    items, by name and quantity, and on the quantity at every rank; and, for
    a positive total, the percents of the rescan are those of the per-year
    path rounded to four decimals, so that at each threshold the rescan's
    count is at most that of the per-year path, and is the same, with the
    same listed percents up to the rounding, when no cumulative percent is
    lifted over the threshold by the rounding.  (The per-year path does not
    round, merges items of one name and puts equal quantities in the order of
    the years: the two results need not be identical.) *)
Theorem custom_range_paths_agree (logRankRound : nat -> nat -> nat -> Z) (t : Tables)
    (startYear endYear : Z) (stats : CoverageStats)
    (byPeriod : Map string PeriodDataWithCurves) :
  st_by_period stats = Some byPeriod ->
  (forall y, startYear <= y <= endYear -> hasYearCurves t byPeriod y) ->
  total_quantity (pd_parts (aggregateYearData stats startYear endYear))
  = total_quantity (pd_parts (computeRangeCoverage logRankRound t startYear endYear)) /\
  total_quantity (pd_colors (aggregateYearData stats startYear endYear))
  = total_quantity (pd_colors (computeRangeCoverage logRankRound t startYear endYear)) /\
  (partNamesTellApart t (outside startYear endYear) ->
   pathsAgree (pd_parts (aggregateYearData stats startYear endYear))
              (pd_parts_curve (aggregateYearData stats startYear endYear))
              (pd_parts (computeRangeCoverage logRankRound t startYear endYear))
              (periodPartFrequency t (outside startYear endYear))) /\
  (colorNamesTellApart t (outside startYear endYear) ->
   pathsAgree (pd_colors (aggregateYearData stats startYear endYear))
              (pd_colors_curve (aggregateYearData stats startYear endYear))
              (pd_colors (computeRangeCoverage logRankRound t startYear endYear))
              (periodColorStats t (outside startYear endYear))).
Proof.
  intros Hby Hbuckets.
  pose proof (range_parts_entries t startYear endYear) as Hparts.
  pose proof (range_colors_entries t startYear endYear) as Hcolors.
  pose proof (curveItems_total
                (flat_map (yearPartsCurve t) (yearsBetween startYear endYear))) as HtotalP.
  pose proof (curveItems_total
                (flat_map (yearColorsCurve t) (yearsBetween startYear endYear))) as HtotalC.
  pose proof (curveItems_sum
                (flat_map (yearPartsCurve t) (yearsBetween startYear endYear))) as HsumP.
  pose proof (curveItems_sum
                (flat_map (yearColorsCurve t) (yearsBetween startYear endYear))) as HsumC.
  rewrite range_parts_total in HsumP. rewrite range_colors_total in HsumC.
  unfold aggregateYearData. rewrite Hby.
  rewrite (collectYears_flat t) by (intros y Hy; apply Hbuckets; now apply yearsBetween_In).
  cbn [fst snd].
  destruct (fold_left addCurveItem
              (flat_map (yearPartsCurve t) (yearsBetween startYear endYear)) ([], 0))
    as [partsQuantities totalParts].
  destruct (fold_left addCurveItem
              (flat_map (yearColorsCurve t) (yearsBetween startYear endYear)) ([], 0))
    as [colorsQuantities totalColors].
  cbn [fst snd] in *.
  cbn [pd_parts pd_colors pd_parts_curve pd_colors_curve computeRangeCoverage periodCoverage].
  split; [ exact HsumP | ]. split; [ exact HsumC | ]. split.
  - intros Hnames.
    exact (assembled (fun v => partName (partMap t) (ppa_part_num v)) ppa_quantity
             (map_values partsQuantities) totalParts
             (map_values (fst (periodAgg t (outside startYear endYear))))
             (Hparts Hnames) HtotalP).
  - intros Hnames.
    exact (assembled ca_name ca_quantity
             (map_values colorsQuantities) totalColors
             (map_values (snd (periodAgg t (outside startYear endYear))))
             (Hcolors Hnames) HtotalC).
Qed.

(** In [twoYears] part A has 100 pieces in 2015 and 30 in 2016: both paths
    list A 130, B 50 and C 20 out of 200 for the range 2015-2016. *)
Lemma custom_range_paths_agree_witness :
  total_quantity
    (pd_parts (aggregateYearData (statsWithYears noLogRank twoYears [2015; 2016]) 2015 2016))
  = total_quantity (pd_parts (computeRangeCoverage noLogRank twoYears 2015 2016)) /\
  pathsAgree
    (pd_parts (aggregateYearData (statsWithYears noLogRank twoYears [2015; 2016]) 2015 2016))
    (pd_parts_curve
       (aggregateYearData (statsWithYears noLogRank twoYears [2015; 2016]) 2015 2016))
    (pd_parts (computeRangeCoverage noLogRank twoYears 2015 2016))
    (periodPartFrequency twoYears (outside 2015 2016)) /\
  pathsAgree
    (pd_colors (aggregateYearData (statsWithYears noLogRank twoYears [2015; 2016]) 2015 2016))
    (pd_colors_curve
       (aggregateYearData (statsWithYears noLogRank twoYears [2015; 2016]) 2015 2016))
    (pd_colors (computeRangeCoverage noLogRank twoYears 2015 2016))
    (periodColorStats twoYears (outside 2015 2016)).
Proof.
  destruct (custom_range_paths_agree noLogRank twoYears 2015 2016
              (statsWithYears noLogRank twoYears [2015; 2016])
              (yearBuckets noLogRank twoYears [2015; 2016]))
    as (Htotal & _ & Hparts & Hcolors).
  - reflexivity.
  - intros y Hy. assert (y = 2015 \/ y = 2016) as [-> | ->] by lia;
      eexists; (split; [ vm_compute; reflexivity | split; vm_compute; reflexivity ]).
  - split; [ exact Htotal | ]. split.
    + apply Hparts. intros ip ip' Hin Hin' _ _.
      cbn [twoYears inventoryParts] in Hin, Hin'.
      destruct Hin as [<- | [<- | [<- | [<- | []]]]];
        destruct Hin' as [<- | [<- | [<- | [<- | []]]]];
        vm_compute; intros E; first [ reflexivity | discriminate E ].
    + apply Hcolors. intros ip ip' Hin Hin' _ _ _ _.
      cbn [twoYears inventoryParts] in Hin, Hin'.
      destruct Hin as [<- | [<- | [<- | [<- | []]]]];
        destruct Hin' as [<- | [<- | [<- | [<- | []]]]];
        vm_compute; split; intros E; first [ reflexivity | discriminate E ].
Defined.
